(** * ripfs: an OCI registry on a content-addressed store

    Shallow embedding of the translation and naming layer of ripfs
    (internal/registry/add.go, internal/registry/registry.go,
    internal/registry/mapper.go, the [updateCidMap] helper of the [add]
    command and the pod relocator webhook), with the properties of the
    specification stated and settled against it.  A second part embeds
    the code around it (the [add] command, the secret reconciler and the
    bootstrap of the daemon, [getImage] of the install command, the
    applier) and proves further properties of the code. *)

From Stdlib Require Import ZArith List.
From Stdlib.Strings Require Import String Byte.
From stdpp Require Import base option list gmap strings sorting countable pretty.

Set Warnings "-register-all".
Local Open Scope string_scope.
Local Open Scope Z_scope.

(** ** Go results

    A Go call either returns a value, returns a non-nil [error], or panics
    (the only panic site of the modelled code is the slice index of
    [resolveCids]).  Every [fmt.Errorf] site of the source has its own
    constructor; failures of the libraries the code calls are [ErrExt],
    tagged with the call that failed. *)

Inductive error : Type :=
  | ErrExt (call : string)
  | ErrReferenceNotLatestOrDigest (cause : error)
  | ErrDigestNotFound (d : string)
  | ErrExpectedFile
  | ErrExpectedSingleCid (n : nat)
  | ErrExpectedIpfsScheme (scheme : string)
  | ErrNope
  | ErrWritingConfig (cause : error)
  | ErrConfigDescriptorNotFound (d : string)
  | ErrLayerDescriptorNotFound (d : string)
  | ErrKeyNotInSecret (key secret : string)
  | ErrUnableToRetrieveCidMapper
  | ErrCidDoesNotExist (ref : string)
  | ErrSwarmNotInitialized
  | ErrFetchingIpnsCid (cause : error)
  | ErrExpectedIndexFile
  | ErrNoIpnsKeyInSecret (secret : string).

Inductive outcome (A : Type) : Type :=
  | Ok (a : A)
  | Err (e : error)
  | Panic.
Arguments Ok {A} a.
Arguments Err {A} e.
Arguments Panic {A}.

#[global] Instance outcome_ret : MRet outcome := @Ok.
#[global] Instance outcome_bind : MBind outcome := λ A B f m,
  match m with
  | Ok a => f a
  | Err e => Err e
  | Panic => Panic
  end.
#[global] Instance outcome_fmap : FMap outcome := λ A B f m,
  match m with
  | Ok a => Ok (f a)
  | Err e => Err e
  | Panic => Panic
  end.

(** [fmt.Errorf("...: %v", err)] around a failed call. *)
Definition wrap_err {A} (w : error → error) (m : outcome A) : outcome A :=
  match m with
  | Err e => Err (w e)
  | _ => m
  end.

Definition is_ok {A} (m : outcome A) : bool :=
  match m with Ok _ => true | _ => false end.

Fixpoint mapM_outcome {A B} (f : A → outcome B) (l : list A) : outcome (list B) :=
  match l with
  | [] => Ok []
  | x :: l' => y ← f x; ys ← mapM_outcome f l'; Ok (y :: ys)
  end.

Definition bytes : Type := list byte.

(** ** JSON documents

    The records of the graph travel as JSON text.  [encoding/json] is
    modelled at the level of JSON values: the struct encoders and decoders
    below follow the field tags of the Go types, while printing a value to
    text and parsing it back belong to the library interface [Lib].
    Numbers are the integers the records hold. *)

Inductive JSON : Type :=
  | JNull
  | JBool (b : bool)
  | JNum (n : Z)
  | JStr (s : string)
  | JArr (items : list JSON)
  | JObj (fields : list (string * JSON)).

(** The value decoded for key [k]: a later duplicate overrides an earlier
    one, as the decoder assigns fields in document order.  Keys are
    compared as written (the decoder also accepts a key that differs from
    the tag in case only; the records written here use the tags). *)
Fixpoint jfield (k : string) (fields : list (string * JSON)) : option JSON :=
  match fields with
  | [] => None
  | (k', v) :: rest =>
      match jfield k rest with
      | Some v' => Some v'
      | None => if decide (k' = k) then Some v else None
      end
  end.

(** Decoding into a Go [string]: an absent key and [null] leave the zero
    value, any other non-string is an [UnmarshalTypeError]. *)
Definition dec_string (j : option JSON) : outcome string :=
  match j with
  | None | Some JNull => Ok ""
  | Some (JStr s) => Ok s
  | Some _ => Err (ErrExt "json.Decode")
  end.

Definition dec_int (j : option JSON) : outcome Z :=
  match j with
  | None | Some JNull => Ok 0
  | Some (JNum n) => Ok n
  | Some _ => Err (ErrExt "json.Decode")
  end.

(** Decoding into a Go [[]string]: [None] is the nil slice (absent or
    [null]); a JSON array, also the empty one, gives a non-nil slice. *)
Definition dec_strings (j : option JSON) : outcome (option (list string)) :=
  match j with
  | None | Some JNull => Ok None
  | Some (JArr items) => l ← mapM_outcome (λ x, dec_string (Some x)) items; Ok (Some l)
  | Some _ => Err (ErrExt "json.Decode")
  end.

(** Decoding into a slice of structs; a [null] element leaves the zero
    struct, which is what [dec] gives for an object without fields. *)
Definition dec_array {A} (dec : list (string * JSON) → outcome A)
    (j : option JSON) : outcome (list A) :=
  match j with
  | None | Some JNull => Ok []
  | Some (JArr items) =>
      mapM_outcome (λ x, match x with
                         | JObj fields => dec fields
                         | JNull => dec []
                         | _ => Err (ErrExt "json.Decode")
                         end) items
  | Some _ => Err (ErrExt "json.Decode")
  end.

(** Decoding the document itself into a struct. *)
Definition dec_struct {A} (dec : list (string * JSON) → outcome A)
    (j : JSON) : outcome A :=
  match j with
  | JObj fields => dec fields
  | JNull => dec []
  | _ => Err (ErrExt "json.Decode")
  end.

(** [omitempty] on a slice: the key is left out when the slice is empty. *)
Definition enc_urls (urls : list string) : list (string * JSON) :=
  match urls with
  | [] => []
  | _ => [("urls", JArr (JStr <$> urls))]
  end.

(** ** Library interface

    What the code takes from its libraries: the JSON text codec
    (encoding/json), CIDs (go-cid and the store's hashing), [url.Parse],
    [digest.Parse], [v1.SHA256], [name.ParseReference] and [path.Join]. *)

(** go-cid: a CID is its binary string; [cid.Cid{}] is the empty one. *)
Abbreviation Cid := string.
Definition cid_Undef : Cid := "".

(** [v1.Hash] and [digest.Digest] are carried in their canonical
    [algorithm:hex] text, the form in which they are serialized, compared
    and parsed back. *)
Abbreviation Hash := string.

Record URL : Type := mkURL { Scheme : string; Hostname : string }.

Class Lib : Type := {
  json_print : JSON → bytes;
  json_parse : bytes → option JSON;
  cidOf : bytes → Cid;
  cid_String : Cid → string;
  cid_Decode : string → outcome Cid;
  url_Parse : string → outcome URL;
  digest_valid : string → bool;
  SHA256 : bytes → string;
  ParseReference : string → outcome string;
  path_Join : string → string → string;
}.

Definition IPFSSchema : string := "ipfs://".
Definition ipfsSchemePrefix : string := "ipfs".

(** [digest.Parse] validates the text and returns it as the digest. *)
Definition digest_Parse `{Lib} (s : string) : outcome string :=
  if digest_valid s then Ok s else Err (ErrExt "digest.Parse").

(** [path.Resolved.String()] of a content path. *)
Definition path_String `{Lib} (c : Cid) : string := "/ipfs/" ++ cid_String c.

(** Media types of go-containerregistry's [types] package. *)
Definition OCIImageIndex : string := "application/vnd.oci.image.index.v1+json".
Definition OCIConfigJSON : string := "application/vnd.oci.image.config.v1+json".

(** ** Data model

    One record stands for the descriptor and manifest types of
    go-containerregistry (written by add.go) and of image-spec (read by
    registry.go): they share the JSON schema, and the fields kept are the
    ones the code touches. *)

Module Descriptor.
Record t : Type := mk {
  MediaType : string;
  Size : Z;
  Digest : Hash;
  URLs : list string;
}.
End Descriptor.

Module Manifest.
Record t : Type := mk {
  SchemaVersion : Z;
  MediaType : string;
  Config : Descriptor.t;
  Layers : list Descriptor.t;
}.
End Manifest.

Module IndexManifest.
Record t : Type := mk {
  SchemaVersion : Z;
  MediaType : string;
  Manifests : list Descriptor.t;
}.
End IndexManifest.

(** The outer wrapper written by [AddImage]. *)
Module IpfsManifest.
Record t : Type := mk {
  MediaType : string;
  Digest : Hash;
  Size : Z;
  URLs : list string;
}.
End IpfsManifest.

(** The generic pointer record [step] decodes into; [URLs = None] is the
    nil slice. *)
Module catch.
Record entry : Type := mkEntry {
  eMediaType : string;
  eDigest : string;
  eURLs : option (list string);
}.
Record t : Type := mk {
  MediaType : string;
  Digest : string;
  URLs : option (list string);
  Manifests : list entry;
}.
End catch.

(** *** [json.Marshal] of the written records *)

Definition enc_mediaType_omitempty (mt : string) : list (string * JSON) :=
  if decide (mt = "") then [] else [("mediaType", JStr mt)].

Definition Descriptor_json (d : Descriptor.t) : JSON :=
  JObj ([("mediaType", JStr (Descriptor.MediaType d));
         ("size", JNum (Descriptor.Size d));
         ("digest", JStr (Descriptor.Digest d))]
        ++ enc_urls (Descriptor.URLs d)).

Definition Manifest_json (m : Manifest.t) : JSON :=
  JObj ([("schemaVersion", JNum (Manifest.SchemaVersion m))]
        ++ enc_mediaType_omitempty (Manifest.MediaType m)
        ++ [("config", Descriptor_json (Manifest.Config m));
            ("layers", JArr (Descriptor_json <$> Manifest.Layers m))]).

Definition IndexManifest_json (i : IndexManifest.t) : JSON :=
  JObj ([("schemaVersion", JNum (IndexManifest.SchemaVersion i))]
        ++ enc_mediaType_omitempty (IndexManifest.MediaType i)
        ++ [("manifests", JArr (Descriptor_json <$> IndexManifest.Manifests i))]).

Definition IpfsManifest_json (w : IpfsManifest.t) : JSON :=
  JObj ([("mediaType", JStr (IpfsManifest.MediaType w));
         ("digest", JStr (IpfsManifest.Digest w));
         ("size", JNum (IpfsManifest.Size w))]
        ++ enc_urls (IpfsManifest.URLs w)).

(** *** [json.Decode] into the records read back *)

Definition dec_catch_entry (fields : list (string * JSON)) : outcome catch.entry :=
  mt ← dec_string (jfield "mediaType" fields);
  dg ← dec_string (jfield "digest" fields);
  urls ← dec_strings (jfield "urls" fields);
  Ok (catch.mkEntry mt dg urls).

Definition dec_catch (fields : list (string * JSON)) : outcome catch.t :=
  mt ← dec_string (jfield "mediaType" fields);
  dg ← dec_string (jfield "digest" fields);
  urls ← dec_strings (jfield "urls" fields);
  ms ← dec_array dec_catch_entry (jfield "manifests" fields);
  Ok (catch.mk mt dg urls ms).

Definition dec_Descriptor (fields : list (string * JSON)) : outcome Descriptor.t :=
  mt ← dec_string (jfield "mediaType" fields);
  sz ← dec_int (jfield "size" fields);
  dg ← dec_string (jfield "digest" fields);
  urls ← dec_strings (jfield "urls" fields);
  Ok (Descriptor.mk mt sz dg (default [] urls)).

Definition dec_Manifest (fields : list (string * JSON)) : outcome Manifest.t :=
  sv ← dec_int (jfield "schemaVersion" fields);
  mt ← dec_string (jfield "mediaType" fields);
  cfg ← match jfield "config" fields with
        | None => dec_Descriptor []
        | Some j => dec_struct dec_Descriptor j
        end;
  layers ← dec_array dec_Descriptor (jfield "layers" fields);
  Ok (Manifest.mk sv mt cfg layers).

(** [json.NewDecoder(f).Decode(&v)] on the bytes of a file. *)
Definition json_Decode `{Lib} {A} (dec : list (string * JSON) → outcome A)
    (f : bytes) : outcome A :=
  match json_parse f with
  | Some j => dec_struct dec j
  | None => Err (ErrExt "json.Decode")
  end.

(** ** The content store

    The capability surface of [iface.CoreAPI] the code consumes, on an
    in-memory content-addressed store: [Unixfs().Add] files the bytes under
    the CID their content determines ([cidOf], with the fixed [addOpts]);
    [Unixfs().Get] finds a node or fails, and the undefined CID names
    nothing; [Name().Publish] points the node's own key at a path, and
    refuses while offline unless offline publication is allowed;
    [Name().Resolve] reads a published pointer; [Swarm().Peers] counts the
    connected peers.  The store accepts every write: a write that fails
    for want of space or connectivity is outside the model. *)

Inductive Node : Type :=
  | File (data : bytes)
  | Directory.

Record Ipfs : Type := mkIpfs {
  blocks : gmap string Node;
  names : gmap string string;
  self : string;
  peers : nat;
}.

Record IpnsEntry : Type := mkIpnsEntry { Name : string; Value : Cid }.

(** State and error: a call runs on the store and leaves a store behind,
    also when it fails. *)
Definition M (A : Type) : Type := Ipfs → outcome A * Ipfs.

#[global] Instance M_ret : MRet M := λ A a s, (Ok a, s).
#[global] Instance M_bind : MBind M := λ A B f m s,
  match m s with
  | (Ok a, s') => f a s'
  | (Err e, s') => (Err e, s')
  | (Panic, s') => (Panic, s')
  end.

Definition lift {A} (m : outcome A) : M A := λ s, (m, s).

Definition addBlock `{Lib} (data : bytes) (s : Ipfs) : Ipfs :=
  mkIpfs (<[cidOf data := File data]> (blocks s)) (names s) (self s) (peers s).

Definition Unixfs_Add `{Lib} (data : bytes) : M Cid := λ s,
  (Ok (cidOf data), addBlock data s).

Definition Unixfs_Get (s : Ipfs) (c : Cid) : outcome Node :=
  if decide (c = cid_Undef) then Err (ErrExt "Unixfs.Get")
  else match blocks s !! c with
       | Some n => Ok n
       | None => Err (ErrExt "Unixfs.Get")
       end.

Definition Name_Resolve (s : Ipfs) (name : string) : outcome Cid :=
  match names s !! name with
  | Some c => Ok c
  | None => Err (ErrExt "Name.Resolve")
  end.

Definition Name_Publish (p : Cid) (allowOffline : bool) : M IpnsEntry := λ s,
  if negb allowOffline && Nat.eqb (peers s) 0
  then (Err (ErrExt "Name.Publish"), s)
  else (Ok (mkIpnsEntry (self s) p),
        mkIpfs (blocks s) (<[self s := p]> (names s)) (self s) (peers s)).

Definition Swarm_Peers (s : Ipfs) : nat := peers s.

(** ** Image Writer (internal/registry/add.go) *)

(** The methods of [v1.Layer] and [v1.Image] the writer calls, each with
    the result it returns. *)
Module Layer.
Record t : Type := mk {
  Compressed : outcome bytes;
  Digest : outcome Hash;
}.
End Layer.

Module Image.
Record t : Type := mk {
  Layers : outcome (list Layer.t);
  RawConfigFile : outcome bytes;
  Manifest : outcome Manifest.t;
}.
End Image.

(** writeObj adds any marshallable object; the object arrives as the JSON
    value [json.Marshal] builds for it. *)
Definition writeObj `{Lib} (obj : JSON) : M (Cid * Hash * Z) :=
  let data := json_print obj in
  let h := SHA256 data in
  let size := Z.of_nat (length data) in
  p ← Unixfs_Add data;
  mret (p, h, size).

(** The body of one goroutine of [writeLayers]; it returns the entry it
    stores in [cidMap]. *)
Definition writeLayer `{Lib} (layer : Layer.t) : M (Hash * Cid) :=
  rc ← lift (Layer.Compressed layer);
  d ← lift (Layer.Digest layer);
  p ← Unixfs_Add rc;
  mret (d, p).

(** [errgroup]: every goroutine runs, [Wait] returns the first error.
    The function is the run in which the goroutines finish one after
    another in the order of the layers: the error is then the first in
    that order, and of two layers with one digest the later one owns the
    entry of [cidMap].  The program has other runs.  The goroutines may
    finish in another order: that run is this function on the image with
    its layers in that order.  And the source does not lock [cidMap]:
    with two layers or more the Go runtime may stop the program on the
    concurrent writes, and then nothing is returned.  What is proved of a
    result [AddImage] returned is about the runs that return. *)
Fixpoint errgroup `{Lib} (layers : list Layer.t)
    (acc : outcome (gmap string string)) : M (gmap string string) := λ s,
  match layers with
  | [] => (acc, s)
  | layer :: rest =>
      let '(r, s') := writeLayer layer s in
      let acc' := match acc, r with
                  | Ok cidMap, Ok (d, p) => Ok (<[d := p]> cidMap)
                  | Ok _, Err e => Err e
                  | Ok _, Panic => Panic
                  | _, _ => acc
                  end in
      errgroup rest acc' s'
  end.

Definition writeLayers `{Lib} (img : Image.t) : M (gmap string string) :=
  layers ← lift (Image.Layers img);
  errgroup layers (Ok ∅).

Definition convertLayer `{Lib} (cids : gmap string string)
    (layer : Descriptor.t) : outcome Descriptor.t :=
  match cids !! Descriptor.Digest layer with
  | None => Err (ErrLayerDescriptorNotFound (Descriptor.Digest layer))
  | Some c =>
      Ok (Descriptor.mk (Descriptor.MediaType layer) (Descriptor.Size layer)
            (Descriptor.Digest layer) [IPFSSchema ++ cid_String c])
  end.

Definition convertIpfs `{Lib} (m : Manifest.t)
    (cids : gmap string string) : outcome Manifest.t :=
  let n := m in
  match cids !! Descriptor.Digest (Manifest.Config n) with
  | None => Err (ErrConfigDescriptorNotFound (Descriptor.Digest (Manifest.Config n)))
  | Some c =>
      let config :=
        Descriptor.mk (Descriptor.MediaType (Manifest.Config n))
          (Descriptor.Size (Manifest.Config n))
          (Descriptor.Digest (Manifest.Config n)) [IPFSSchema ++ cid_String c] in
      layers ← mapM_outcome (convertLayer cids) (Manifest.Layers n);
      Ok (Manifest.mk (Manifest.SchemaVersion n) (Manifest.MediaType n) config layers)
  end.

(** AddImage adds an image to a given ipfs backend *)
Definition AddImage `{Lib} (img : Image.t) : M Cid :=
  cidMap ← writeLayers img;
  cfgData ← lift (Image.RawConfigFile img);
  cfgPath ← (λ s, let '(r, s') := Unixfs_Add cfgData s in (wrap_err ErrWritingConfig r, s'));
  manifest ← lift (Image.Manifest img);
  let cidMap := <[Descriptor.Digest (Manifest.Config manifest) := cfgPath]> cidMap in
  ipfsManifest ← lift (convertIpfs manifest cidMap);
  '(ipfsManifestPath, ipfsManifestHash, ipfsManifestSize) ← writeObj (Manifest_json ipfsManifest);
  let idx := IndexManifest.mk 2 OCIImageIndex
    [Descriptor.mk (Manifest.MediaType ipfsManifest) ipfsManifestSize ipfsManifestHash
       [IPFSSchema ++ cid_String ipfsManifestPath]] in
  '(idxPath, idxHash, idxSize) ← writeObj (IndexManifest_json idx);
  let ipfsIdx := IpfsManifest.mk OCIImageIndex idxHash idxSize
    [IPFSSchema ++ cid_String idxPath] in
  '(ipfsIdxPath, _, _) ← writeObj (IpfsManifest_json ipfsIdx);
  mret ipfsIdxPath.

(** ** Graph Walker (internal/registry/registry.go) *)

Definition open (s : Ipfs) (c : Cid) : outcome bytes :=
  n ← Unixfs_Get s c;
  match n with
  | File f => Ok f
  | Directory => Err ErrExpectedFile
  end.

(** [urls[0]] is read after the only length check, [len(urls) > 1]: on a
    slice without elements the index expression panics. *)
Definition resolveCids `{Lib} (urls : list string) : outcome Cid :=
  if Nat.ltb 1 (length urls) then Err (ErrExpectedSingleCid (length urls))
  else match urls with
       | [] => Panic
       | u0 :: _ =>
           u ← url_Parse u0;
           if decide (Scheme u = ipfsSchemePrefix) then cid_Decode (Hostname u)
           else Err (ErrExpectedIpfsScheme (Scheme u))
       end.

(** step will search for a digest one step down, and will return a cid if
    found *)
Definition step `{Lib} (f : bytes) : outcome (Cid * string * string) :=
  robj ← json_Decode dec_catch f;
  '(ds, urls) ←
    match catch.URLs robj with
    | Some urls => Ok (catch.Digest robj, urls)
    | None =>
        match catch.Manifests robj with
        | [e] => Ok (catch.eDigest e, default [] (catch.eURLs e))
        | _ => Err ErrNope
        end
    end;
  c ← resolveCids urls;
  d ← digest_Parse ds;
  Ok (c, d, catch.MediaType robj).

(** The callback of [walk] is a closure over variables of its caller; its
    captured state [St] is threaded through the calls. *)
Definition walkFn (St : Type) : Type := Cid → string → string → St → outcome St.

Fixpoint walkLayers `{Lib} {St} (fn : walkFn St) (layers : list Descriptor.t)
    (st : St) : outcome St :=
  match layers with
  | [] => Ok st
  | layer :: rest =>
      lc ← resolveCids (Descriptor.URLs layer);
      st' ← fn lc (Descriptor.Digest layer) (Descriptor.MediaType layer) st;
      walkLayers fn rest st'
  end.

(** The error of the first [step] is not looked at before the callback
    runs: after a failed [step] the callback sees the zero node and the
    walk goes on to open the undefined CID. *)
Definition walk `{Lib} {St} (s : Ipfs) (rootc : Cid) (fn : walkFn St)
    (st : St) : outcome St :=
  rootf ← open s rootc;
  '(idxc, idxd, idxmt) ←
    match step rootf with
    | Ok r => Ok r
    | Err _ => Ok (cid_Undef, "", "")
    | Panic => Panic
    end;
  st ← fn idxc idxd idxmt st;
  idxf ← open s idxc;
  '(mc, md, mmt) ← step idxf;
  st ← fn mc md mmt st;
  mf ← open s mc;
  m ← json_Decode dec_Manifest mf;
  cc ← resolveCids (Descriptor.URLs (Manifest.Config m));
  st ← fn cc (Descriptor.Digest (Manifest.Config m))
          (Descriptor.MediaType (Manifest.Config m)) st;
  walkLayers fn (Manifest.Layers m) st.

(** The closure of [ReadBlob] over [found], [fcid] and [fmtype]. *)
Definition matchDigest (d : string) : walkFn (bool * Cid * string) :=
  λ c _d mt st, Ok (if decide (d = _d) then (true, c, mt) else st).

Definition ReadBlob `{Lib} (s : Ipfs) (name : string) (d : string)
    : outcome (bytes * string) :=
  rootc ← cid_Decode name;
  '(found, fcid, fmtype) ← walk s rootc (matchDigest d) (false, cid_Undef, "");
  if negb found then Err (ErrDigestNotFound d)
  else ff ← open s fcid; Ok (ff, fmtype).

(** ReadManifest returns an io.ReadSeeker for the ipfs backed manifest *)
Definition ReadManifest `{Lib} (s : Ipfs) (name : string) (reference : string)
    : outcome (bytes * string) :=
  c ← cid_Decode name;
  if decide (reference = "latest") then
    rootf ← open s c;
    '(idxc, _, idxmt) ← step rootf;
    idxf ← open s idxc;
    Ok (idxf, idxmt)
  else
    d ← wrap_err ErrReferenceNotLatestOrDigest (digest_Parse reference);
    ReadBlob s name d.

(** ** Registry Server (internal/registry/registry.go) *)

Module http.
Record Request : Type := mkRequest {
  Method : string;
  cid : string;
  reference : string;
}.

(** What a handler has written: the status line once [WriteHeader] ran,
    the header map and the body. *)
Record ResponseWriter : Type := mkResponseWriter {
  status : option Z;
  Header : gmap string string;
  body : bytes;
}.

Definition fresh : ResponseWriter := mkResponseWriter None ∅ [].

Definition Header_Set (k v : string) (w : ResponseWriter) : ResponseWriter :=
  mkResponseWriter (status w) (<[k := v]> (Header w)) (body w).

Definition WriteHeader (code : Z) (w : ResponseWriter) : ResponseWriter :=
  match status w with
  | None => mkResponseWriter (Some code) (Header w) (body w)
  | Some _ => w
  end.

Definition Write (data : bytes) (w : ResponseWriter) : ResponseWriter :=
  mkResponseWriter (Some (default 200 (status w))) (Header w) (body w ++ data)%list.

(** What the client receives. *)
Record Response : Type := mkResponse {
  StatusCode : Z;
  RespHeader : gmap string string;
  Body : bytes;
}.

(** net/http after the handler returns: a handler that never wrote a
    header gets the implicit [WriteHeader(StatusOK)]; a handler that
    panicked has produced no response of its own. *)
Definition finish (w : outcome ResponseWriter) : option Response :=
  match w with
  | Ok w => Some (mkResponse (default 200 (status w)) (Header w) (body w))
  | _ => None
  end.
End http.

(** [http.ServeContent] of net/http. *)
Class HttpLib : Type := {
  ServeContent : http.ResponseWriter → http.Request → bytes → http.ResponseWriter;
}.

Definition buildHealthHandler (w : http.ResponseWriter) (r : http.Request)
    : outcome http.ResponseWriter :=
  Ok (http.Write [x7b; x7d] (http.WriteHeader 200 w)).

Definition buildGetManifestHandler `{Lib} `{HttpLib} (s : Ipfs)
    (w : http.ResponseWriter) (r : http.Request) : outcome http.ResponseWriter :=
  match ReadManifest s (http.cid r) (http.reference r) with
  | Err _ => Ok w
  | Panic => Panic
  | Ok (content, mediaType) =>
      Ok (ServeContent (http.Header_Set "Content-Type" mediaType w) r content)
  end.

Definition buildGetBlobsHandler `{Lib} `{HttpLib} (s : Ipfs)
    (w : http.ResponseWriter) (r : http.Request) : outcome http.ResponseWriter :=
  match digest_Parse (http.reference r) with
  | Err _ => Ok w
  | Panic => Panic
  | Ok d =>
      match ReadBlob s (http.cid r) d with
      | Err _ => Ok w
      | Panic => Panic
      | Ok (content, mediaType) =>
          Ok (ServeContent (http.Header_Set "Content-Type" mediaType w) r content)
      end
  end.

(** One request against the route table of [NewIpfsRegistry]. *)
Inductive route : Type := Health | Manifests | Blobs.

Definition ServeHTTP `{Lib} `{HttpLib} (s : Ipfs) (rt : route)
    (r : http.Request) : option http.Response :=
  http.finish
    match rt with
    | Health => buildHealthHandler http.fresh r
    | Manifests => buildGetManifestHandler s http.fresh r
    | Blobs => buildGetBlobsHandler s http.fresh r
    end.

(** ** Naming Service (internal/registry/mapper.go, cmd add) *)

Module consts.
Definition Name : string := "ripfs".
Definition CidMapperSecretName : string := Name ++ "-cid-mapper".
Definition CidMapperSecretKey : string := "ipns-cid".
End consts.

(** The secrets of the cluster, by namespace and name, each with its data. *)
Abbreviation Cluster := (gmap (string * string) (gmap string string)).

(** *** The Name Map as JSON: [map[string]string] *)

Definition key_le (a b : string * string) : Prop := String.leb a.1 b.1 = true.
#[global] Instance key_le_dec : RelDecision key_le :=
  λ a b, decide (String.leb a.1 b.1 = true).

(** [json.Marshal] writes the keys of a map in sorted order. *)
Definition cidMap_json (m : gmap string string) : JSON :=
  JObj ((λ kv, (kv.1, JStr kv.2)) <$> merge_sort key_le (map_to_list m)).

Definition dec_cidMap (fields : list (string * JSON)) : outcome (gmap string string) :=
  kvs ← mapM_outcome (λ kv, v ← dec_string (Some kv.2); Ok (kv.1, v)) fields;
  Ok (fold_left (λ (m : gmap string string) kv, <[kv.1 := kv.2]> m) kvs ∅).

(** *** Fetcher *)

Module SecretFetcher.
Record t : Type := mk {
  Key : string * string;   (* namespace, name *)
  IpnsKey : string;
}.
End SecretFetcher.

Definition NewSecretFetcher (key : string * string) : SecretFetcher.t :=
  SecretFetcher.mk key consts.CidMapperSecretKey.

Definition SecretFetcher_Fetch (k : Cluster) (f : SecretFetcher.t) : outcome string :=
  match k !! SecretFetcher.Key f with
  | None => Err (ErrExt "Secrets.Get")
  | Some data =>
      match data !! SecretFetcher.IpnsKey f with
      | None => Err (ErrKeyNotInSecret (SecretFetcher.IpnsKey f) (SecretFetcher.Key f).2)
      | Some p => Ok p
      end
  end.

(** *** IpnsCidMapper; [fetcher] is what [Fetch] returns when called. *)

Definition peered (s : Ipfs) : bool := Nat.ltb 0 (Swarm_Peers s).

Definition fetch `{Lib} (s : Ipfs) (fetcher : outcome string)
    : outcome (gmap string string) :=
  if negb (peered s) then Err ErrSwarmNotInitialized
  else
    cid ← wrap_err ErrFetchingIpnsCid fetcher;
    p ← Name_Resolve s cid;
    nd ← Unixfs_Get s p;
    match nd with
    | Directory => Err ErrExpectedIndexFile
    | File f => json_Decode dec_cidMap f
    end.

Definition Resolve `{Lib} (s : Ipfs) (fetcher : outcome string)
    (reference : string) : outcome string :=
  match fetch s fetcher with
  | Err _ => Err ErrUnableToRetrieveCidMapper
  | Panic => Panic
  | Ok mapper =>
      ref ← ParseReference reference;
      match mapper !! ref with
      | None => Err (ErrCidDoesNotExist ref)
      | Some cid => Ok cid
      end
  end.

(** *** Update: [updateCidMap] of the [add] command *)

(** The secret the bootstrap pointer is kept in. *)
Definition secretKey : string * string := ("ripfs-system", consts.CidMapperSecretName).

Definition updateCidMap `{Lib} (k : Cluster) (ref : string) (op : Cid)
    : M (Cid * IpnsEntry) :=
  s ← lift (match k !! secretKey with
            | None => Err (ErrExt "Secrets.Get")
            | Some s => Ok s
            end);
  idxPath ← lift (match s !! consts.CidMapperSecretKey with
                  | None => Err (ErrNoIpnsKeyInSecret consts.CidMapperSecretName)
                  | Some p => Ok p
                  end);
  p ← (λ st, (Name_Resolve st idxPath, st));
  nd ← (λ st, (Unixfs_Get st p, st));
  f ← lift (match nd with
            | Directory => Err ErrExpectedIndexFile
            | File f => Ok f
            end);
  cidMap ← lift (json_Decode dec_cidMap f);
  let cidMap := <[ref := path_String op]> cidMap in
  let data := json_print (cidMap_json cidMap) in
  ap ← Unixfs_Add data;
  e ← Name_Publish ap true;
  mret (ap, e).

(** ** Admission Mutator (webhook package) *)

Module Container.
Record t : Type := mk { Name : string; Image : string }.
End Container.

Module Pod.
Record t : Type := mk {
  Name : string;
  InitContainers : list Container.t;
  Containers : list Container.t;
}.
End Pod.

Module jsonpatch.
Record Operation : Type := mkOperation {
  Op : string;
  Path : string;
  Value : JSON;
}.
End jsonpatch.

(** controller-runtime and its JSON patch library: decoding the raw object
    of the request into a pod, [json.Marshal] of a pod, and
    [jsonpatch.CreatePatch] on two serialized objects. *)
Class AdmissionLib : Type := {
  Decode : bytes → outcome Pod.t;
  Marshal : Pod.t → outcome bytes;
  CreatePatch : bytes → bytes → outcome (list jsonpatch.Operation);
}.

Module admission.
Inductive Response : Type :=
  | Errored (code : Z) (err : error)
  | Allowed (message : string)
  | Patched (patches : list jsonpatch.Operation).

Definition PatchResponseFromRaw `{AdmissionLib} (original current : bytes) : Response :=
  match CreatePatch original current with
  | Ok patches => Patched patches
  | Err e => Errored 500 e
  | Panic => Errored 500 (ErrExt "jsonpatch.CreatePatch")
  end.
End admission.

(** [CidMapper]: anything that can resolve oci references to IPFS CIDs. *)
Definition CidMapper : Type := string → outcome string.

(** prefixIpfsRegistry prefixes the registry *)
Definition prefixIpfsRegistry `{Lib} (registry : string) (cid : string) : string :=
  path_Join registry cid.

(** One of the two loops of [Handle]: the containers with the images that
    resolved rewritten, and [changed] with their entries added. *)
Fixpoint relocate `{Lib} (cidMapper : CidMapper) (registry : string)
    (cs : list Container.t) (changed : gmap string string)
    : outcome (list Container.t * gmap string string) :=
  match cs with
  | [] => Ok ([], changed)
  | c :: rest =>
      match cidMapper (Container.Image c) with
      | Err _ =>
          '(rest', changed') ← relocate cidMapper registry rest changed;
          Ok (c :: rest', changed')
      | Panic => Panic
      | Ok cid =>
          let resolved := prefixIpfsRegistry registry cid in
          '(rest', changed') ←
            relocate cidMapper registry rest (<[Container.Image c := resolved]> changed);
          Ok (Container.mk (Container.Name c) resolved :: rest', changed')
      end
  end.

(** The pod after both loops, with the [changed] map. *)
Definition relocatePod `{Lib} (cidMapper : CidMapper) (registry : string)
    (pod : Pod.t) : outcome (Pod.t * gmap string string) :=
  '(inits, changed) ← relocate cidMapper registry (Pod.InitContainers pod) ∅;
  '(cs, changed) ← relocate cidMapper registry (Pod.Containers pod) changed;
  Ok (Pod.mk (Pod.Name pod) inits cs, changed).

Definition Handle `{Lib} `{AdmissionLib} (cidMapper : CidMapper) (registry : string)
    (raw : bytes) : outcome admission.Response :=
  match Decode raw with
  | Err err => Ok (admission.Errored 400 err)
  | Panic => Panic
  | Ok pod =>
      '(pod', changed) ← relocatePod cidMapper registry pod;
      match Marshal pod' with
      | Err err => Ok (admission.Errored 500 err)
      | Panic => Panic
      | Ok marshaledPod =>
          if Nat.ltb 0 (size changed)
          then Ok (admission.PatchResponseFromRaw raw marshaledPod)
          else Ok (admission.Allowed "no image resolutions found")
      end
  end.

(** *** What the patch library computes

    [CreatePatch] compares two JSON documents.  On the serializations of
    two pods the differences are the field-wise comparison below (the
    fields are the ones of the [Pod] record).  The library ranges over the
    keys of an object in no fixed order: its result is that list up to
    the order of the operations. *)

Definition Container_json (c : Container.t) : JSON :=
  JObj [("name", JStr (Container.Name c)); ("image", JStr (Container.Image c))].

Definition containerPath (kind : string) (i : nat) (field : string) : string :=
  "/spec/" ++ kind ++ "/" ++ pretty i ++ field.

(** The operation that turns the image [old] of a container into [new].
    The image is [omitempty]: a container without an image has no key in
    the document, so giving it one is an addition and taking it away a
    removal. *)
Definition imagePatch (kind : string) (i : nat) (old new : string)
    : list jsonpatch.Operation :=
  if decide (old = new) then []
  else if decide (old = "")
  then [jsonpatch.mkOperation "add" (containerPath kind i "/image") (JStr new)]
  else if decide (new = "")
  then [jsonpatch.mkOperation "remove" (containerPath kind i "/image") JNull]
  else [jsonpatch.mkOperation "replace" (containerPath kind i "/image") (JStr new)].

Fixpoint containers_patch (kind : string) (i : nat)
    (old new : list Container.t) : list jsonpatch.Operation :=
  match old, new with
  | o :: old', n :: new' =>
      (if decide (Container.Name o = Container.Name n) then []
       else [jsonpatch.mkOperation "replace" (containerPath kind i "/name")
               (JStr (Container.Name n))])
      ++ imagePatch kind i (Container.Image o) (Container.Image n)
      ++ containers_patch kind (S i) old' new'
  | [], _ =>
      imap (λ j n, jsonpatch.mkOperation "add" (containerPath kind (i + j) "")
                     (Container_json n)) new
  | _ :: _, [] =>
      replicate (length old) (jsonpatch.mkOperation "remove" (containerPath kind i "") JNull)
  end.

Definition pod_patch (old new : Pod.t) : list jsonpatch.Operation :=
  (if decide (Pod.Name old = Pod.Name new) then []
   else [jsonpatch.mkOperation "replace" "/metadata/name" (JStr (Pod.Name new))])
  ++ containers_patch "initContainers" 0 (Pod.InitContainers old) (Pod.InitContainers new)
  ++ containers_patch "containers" 0 (Pod.Containers old) (Pod.Containers new).

(** What [Handle] does to a pod at most: [new] is [old] with images
    replaced; the name of the pod and the names, the order and the number
    of its containers are those of [old]. *)
Definition imagesReplaced (old new : Pod.t) : Prop :=
  Pod.Name new = Pod.Name old
  ∧ Container.Name <$> Pod.InitContainers new = Container.Name <$> Pod.InitContainers old
  ∧ Container.Name <$> Pod.Containers new = Container.Name <$> Pod.Containers old.

(** ** Reading a walk

    The nodes a walk emits, in the order of emission: [walk] run with a
    callback that only records what it is given. *)

Definition node : Type := Cid * string * string.

Definition collect : walkFn (list node) :=
  λ c d mt acc, Ok (acc ++ [(c, d, mt)])%list.

Definition walkNodes `{Lib} (s : Ipfs) (rootc : Cid) : outcome (list node) :=
  walk s rootc collect [].

(** The node emitted for a descriptor of the manifest. *)
Definition descriptorNode (c : Cid) (desc : Descriptor.t) : node :=
  (c, Descriptor.Digest desc, Descriptor.MediaType desc).

(** The nodes emitted for the layers of a manifest, in manifest order. *)
Definition layerNodes `{Lib} (layers : list Descriptor.t) : outcome (list node) :=
  mapM_outcome (λ layer, lc ← resolveCids (Descriptor.URLs layer);
                         Ok (descriptorNode lc layer)) layers.

(** A callback that never fails: it only updates its state. *)
Definition pureFn {St} (g : node → St → St) : walkFn St :=
  λ c d mt st, Ok (g (c, d, mt) st).

(** What is left of [walk] once the first node is known. *)
Definition walkFrom `{Lib} {St} (s : Ipfs) (fn : walkFn St) (idx : node) (st : St)
    : outcome St :=
  let '(idxc, idxd, idxmt) := idx in
  st ← fn idxc idxd idxmt st;
  idxf ← open s idxc;
  '(mc, md, mmt) ← step idxf;
  st ← fn mc md mmt st;
  mf ← open s mc;
  m ← json_Decode dec_Manifest mf;
  cc ← resolveCids (Descriptor.URLs (Manifest.Config m));
  st ← fn cc (Descriptor.Digest (Manifest.Config m))
          (Descriptor.MediaType (Manifest.Config m)) st;
  walkLayers fn (Manifest.Layers m) st.

(** The last emitted node with digest [d]. *)
Fixpoint lastMatch (d : string) (nodes : list node) : option node :=
  match nodes with
  | [] => None
  | n :: rest =>
      match lastMatch d rest with
      | Some n' => Some n'
      | None => if decide (d = n.1.2) then Some n else None
      end
  end.

(** The rule of the specification: the first emitted node with digest
    [d] ends the walk. *)
Fixpoint firstMatch (d : string) (nodes : list node) : option node :=
  match nodes with
  | [] => None
  | n :: rest => if decide (d = n.1.2) then Some n else firstMatch d rest
  end.

(** What a resolution returns for a matched node. *)
Definition openNode (s : Ipfs) (d : string) (found : option node)
    : outcome (bytes * string) :=
  match found with
  | None => Err (ErrDigestNotFound d)
  | Some (c, _, mt) => ff ← open s c; Ok (ff, mt)
  end.

(** A digest names one blob and one media type within an image: layers
    (and the config) with equal digests have equal bytes, descriptors with
    equal digests declare equal media types. *)
Definition coherent (layers : list Layer.t) (cfg : bytes) (m : Manifest.t) : Prop :=
  let blobs := Layer.mk (Ok cfg) (Ok (Descriptor.Digest (Manifest.Config m))) :: layers in
  let descs := Manifest.Config m :: Manifest.Layers m in
  (∀ l l', l ∈ blobs → l' ∈ blobs →
     Layer.Digest l = Layer.Digest l' → Layer.Compressed l = Layer.Compressed l')
  ∧ (∀ d d', d ∈ descs → d' ∈ descs →
       Descriptor.Digest d = Descriptor.Digest d' →
       Descriptor.MediaType d = Descriptor.MediaType d').

(** The fetcher of the mapper as wired by the manager, in the namespace
    [updateCidMap] reads the secret from. *)
Definition mapperFetcher (k : Cluster) : outcome string :=
  SecretFetcher_Fetch k (NewSecretFetcher secretKey).

(** The blob [b] is in the store, under its CID. *)
Definition stored `{Lib} (s : Ipfs) (b : bytes) : Prop :=
  blocks s !! cidOf b = Some (File b).

(** The digest to CID table built from the blobs written, in order. *)
Definition cidMapOf `{Lib} (entries : list (string * bytes))
    (acc : gmap string string) : gmap string string :=
  fold_left (λ m e, <[e.1 := cidOf e.2]> m) entries acc.

(** The records [AddImage] writes above a decorated manifest [n]: its
    serialization, the wrapping index and the outer wrapper. *)
Definition manifestBytes `{Lib} (n : Manifest.t) : bytes :=
  json_print (Manifest_json n).

Definition wrappingIndex `{Lib} (n : Manifest.t) : IndexManifest.t :=
  IndexManifest.mk 2 OCIImageIndex
    [Descriptor.mk (Manifest.MediaType n) (Z.of_nat (length (manifestBytes n)))
       (SHA256 (manifestBytes n)) [IPFSSchema ++ cid_String (cidOf (manifestBytes n))]].

Definition indexBytes `{Lib} (n : Manifest.t) : bytes :=
  json_print (IndexManifest_json (wrappingIndex n)).

Definition outerWrapper `{Lib} (n : Manifest.t) : IpfsManifest.t :=
  IpfsManifest.mk OCIImageIndex (SHA256 (indexBytes n))
    (Z.of_nat (length (indexBytes n))) [IPFSSchema ++ cid_String (cidOf (indexBytes n))].

Definition wrapperBytes `{Lib} (n : Manifest.t) : bytes :=
  json_print (IpfsManifest_json (outerWrapper n)).

(** The container a loop of [Handle] leaves behind. *)
Definition relocated `{Lib} (cidMapper : CidMapper) (registry : string)
    (c : Container.t) : Container.t :=
  match cidMapper (Container.Image c) with
  | Ok cid => Container.mk (Container.Name c) (prefixIpfsRegistry registry cid)
  | _ => c
  end.

Definition resolves (cidMapper : CidMapper) (c : Container.t) : bool :=
  is_ok (cidMapper (Container.Image c)).

(** The last blob with CID [c] in a sequence of writes. *)
Fixpoint lastBlob `{Lib} (c : Cid) (written : list bytes) : option bytes :=
  match written with
  | [] => None
  | b :: rest =>
      match lastBlob c rest with
      | Some b' => Some b'
      | None => if decide (cidOf b = c) then Some b else None
      end
  end.

(** The store after a sequence of writes. *)
Definition addBlocks `{Lib} (written : list bytes) (s : Ipfs) : Ipfs :=
  fold_left (λ s b, addBlock b s) written s.

(** A computation whose result and writes do not depend on the store it
    runs on. *)
Definition writes `{Lib} {A} (m : M A) (r : outcome A) (written : list bytes) : Prop :=
  ∀ s, m s = (r, addBlocks written s).

(** The pod [Handle] serializes. *)
Definition relocatedPod `{Lib} (cidMapper : CidMapper) (registry : string)
    (pod : Pod.t) : Pod.t :=
  Pod.mk (Pod.Name pod)
    (relocated cidMapper registry <$> Pod.InitContainers pod)
    (relocated cidMapper registry <$> Pod.Containers pod).

(** ** What the libraries guarantee

    The facts about the libraries the properties below rest on: JSON text
    parses back to the value printed; CIDs are collision-free and the
    store never hands out the undefined one; the text of a CID decodes to
    it and is the host of its [ipfs://] locator; [v1.SHA256] returns a well-formed digest. *)

Class LibLaws `{Lib} : Prop := {
  json_parse_print : ∀ j, json_parse (json_print j) = Some j;
  cidOf_inj : ∀ b1 b2, cidOf b1 = cidOf b2 → b1 = b2;
  cidOf_defined : ∀ b, cidOf b ≠ cid_Undef;
  cid_Decode_String : ∀ b, cid_Decode (cid_String (cidOf b)) = Ok (cidOf b);
  url_Parse_ipfs : ∀ b,
    url_Parse (IPFSSchema ++ cid_String (cidOf b))
    = Ok (mkURL ipfsSchemePrefix (cid_String (cidOf b)));
  SHA256_valid : ∀ b, digest_valid (SHA256 b) = true;
}.

(** A pod always serializes.  The patch is computed from the raw object
    of the request, not from the pod decoded from it: what the raw object
    holds and the typed pod does not carry shows in the patch.  For a raw
    object that loses nothing on the way ([CreatePatch] finds no
    difference between it and the serialization of the pod decoded from
    it), the patch against the serialization of that pod with images
    replaced is the comparison of the two pods, in some order. *)
Class AdmissionLaws `{AdmissionLib} : Prop := {
  Marshal_Ok : ∀ pod, ∃ current, Marshal pod = Ok current;
  CreatePatch_images : ∀ raw pod pod' original current,
    Decode raw = Ok pod →
    Marshal pod = Ok original → CreatePatch raw original = Ok [] →
    imagesReplaced pod pod' → Marshal pod' = Ok current →
    ∃ patch, CreatePatch raw current = Ok patch ∧ patch ≡ₚ pod_patch pod pod';
}.

(** ** An in-memory double of the libraries

    A small executable instance of the interfaces, on which the properties
    are run: JSON values are serialized through their encoding as trees,
    a CID and a digest spell out the content they name. *)

Module Sim.

Definition leaf : Type := (bool + Z) + string.

Fixpoint to_tree (j : JSON) : gen_tree leaf :=
  match j with
  | JNull => GenNode 0 []
  | JBool b => GenLeaf (inl (inl b))
  | JNum n => GenLeaf (inl (inr n))
  | JStr s => GenLeaf (inr s)
  | JArr items => GenNode 1 (map to_tree items)
  | JObj fields =>
      GenNode 2 (map (λ kv, match kv with
                            | (k, v) => GenNode 3 [GenLeaf (inr k); to_tree v]
                            end) fields)
  end.

Fixpoint of_tree (t : gen_tree leaf) : option JSON :=
  match t with
  | GenLeaf (inl (inl b)) => Some (JBool b)
  | GenLeaf (inl (inr n)) => Some (JNum n)
  | GenLeaf (inr s) => Some (JStr s)
  | GenNode 0 [] => Some JNull
  | GenNode 1 ts =>
      JArr <$> (fix go (ts : list (gen_tree leaf)) : option (list JSON) :=
                  match ts with
                  | [] => Some []
                  | t :: ts' => j ← of_tree t; js ← go ts'; Some (j :: js)
                  end) ts
  | GenNode 2 ts =>
      JObj <$> (fix go (ts : list (gen_tree leaf)) : option (list (string * JSON)) :=
                  match ts with
                  | [] => Some []
                  | GenNode 3 [GenLeaf (inr k); v] :: ts' =>
                      j ← of_tree v; js ← go ts'; Some ((k, j) :: js)
                  | _ => None
                  end) ts
  | _ => None
  end.

(** A positive number as bytes: its binary digits, the low one first,
    eight to a byte, the last byte filled with zeros. *)
Fixpoint pos_bits (p : positive) : list bool :=
  match p with
  | xH => [true]
  | xO p' => false :: pos_bits p'
  | xI p' => true :: pos_bits p'
  end.

Fixpoint pack (bits : list bool) : bytes :=
  match bits with
  | [] => []
  | b0 :: b1 :: b2 :: b3 :: b4 :: b5 :: b6 :: b7 :: rest =>
      Byte.of_bits (b0, (b1, (b2, (b3, (b4, (b5, (b6, b7))))))) :: pack rest
  | b0 :: rest =>
      [Byte.of_bits (b0, (nth 0 rest false, (nth 1 rest false, (nth 2 rest false,
         (nth 3 rest false, (nth 4 rest false, (nth 5 rest false, false)))))))]
  end.

Definition byte_bits (x : byte) : list bool :=
  let '(b0, (b1, (b2, (b3, (b4, (b5, (b6, b7))))))) := Byte.to_bits x in
  [b0; b1; b2; b3; b4; b5; b6; b7].

Fixpoint unpack (b : bytes) : list bool :=
  match b with
  | [] => []
  | x :: b' => (byte_bits x ++ unpack b')%list
  end.

Fixpoint bits_to_N (bits : list bool) : N :=
  match bits with
  | [] => 0%N
  | true :: bits' => N.succ_double (bits_to_N bits')
  | false :: bits' => N.double (bits_to_N bits')
  end.

Definition print (j : JSON) : bytes := pack (pos_bits (encode (to_tree j))).

Definition parse (b : bytes) : option JSON :=
  match bits_to_N (unpack b) with
  | N0 => None
  | Npos p => t ← decode p; of_tree t
  end.

Fixpoint strip_prefix (p s : string) : option string :=
  match p, s with
  | EmptyString, _ => Some s
  | String a p', String b s' => if decide (a = b) then strip_prefix p' s' else None
  | _, _ => None
  end.

(** A short polynomial checksum, printed in decimal. *)
Definition checksum (base : N) (b : bytes) : string :=
  pretty (fold_left (λ acc x, ((acc * base + Byte.to_N x + 1) mod 1000003)%N) b 7%N).

(** A CID spells out the content it names. *)
Definition cid (b : bytes) : Cid := "bafy" ++ string_of_list_byte b.

Definition decodeCid (s : string) : outcome Cid :=
  match strip_prefix "bafy" s with
  | Some _ => Ok s
  | None => Err (ErrExt "cid.Decode")
  end.

Definition parseURL (s : string) : outcome URL :=
  match strip_prefix "ipfs://" s with
  | Some host => Ok (mkURL "ipfs" host)
  | None => Ok (mkURL "" s)
  end.

Definition validDigest (s : string) : bool :=
  bool_decide (is_Some (strip_prefix "sha256:" s)).

Definition sha (b : bytes) : string := "sha256:" ++ checksum 263 b.

(** References are canonical in the default registry, with the
    [library/] repository prefix and the [latest] tag. *)
Definition parseRef (s : string) : outcome string :=
  match strip_prefix "index.docker.io/" s with
  | Some _ => Ok s
  | None => Ok ("index.docker.io/library/" ++ s ++ ":latest")
  end.

Definition join (a b : string) : string :=
  match strip_prefix "/" b with
  | Some _ => a ++ b
  | None => a ++ "/" ++ b
  end.

#[global] Instance lib : Lib := {|
  json_print := print;
  json_parse := parse;
  cidOf := cid;
  cid_String := id;
  cid_Decode := decodeCid;
  url_Parse := parseURL;
  digest_valid := validDigest;
  SHA256 := sha;
  ParseReference := parseRef;
  path_Join := join;
|}.

(** The pod documents of the admission double. *)
Definition Pod_json (p : Pod.t) : JSON :=
  JObj [("metadata", JObj [("name", JStr (Pod.Name p))]);
        ("spec",
         JObj [("initContainers", JArr (Container_json <$> Pod.InitContainers p));
               ("containers", JArr (Container_json <$> Pod.Containers p))])].

Definition dec_Container (fields : list (string * JSON)) : outcome Container.t :=
  n ← dec_string (jfield "name" fields);
  i ← dec_string (jfield "image" fields);
  Ok (Container.mk n i).

(** Decoding a nested struct: an absent key and [null] leave the zero
    struct. *)
Definition dec_object {A} (dec : list (string * JSON) → outcome A)
    (j : option JSON) : outcome A :=
  match j with
  | None => dec []
  | Some j => dec_struct dec j
  end.

Definition dec_Pod (fields : list (string * JSON)) : outcome Pod.t :=
  n ← dec_object (λ meta, dec_string (jfield "name" meta)) (jfield "metadata" fields);
  dec_object
    (λ spec,
       inits ← dec_array dec_Container (jfield "initContainers" spec);
       cs ← dec_array dec_Container (jfield "containers" spec);
       Ok (Pod.mk n inits cs))
    (jfield "spec" fields).

Definition decodePod (raw : bytes) : outcome Pod.t := json_Decode dec_Pod raw.

(** The fields of the spec of a raw object that the pod of the model does
    not carry: the re-serialized pod is without them, and the patch
    removes each. *)
Definition dropped (raw : bytes) : list jsonpatch.Operation :=
  match parse raw with
  | Some (JObj fields) =>
      match jfield "spec" fields with
      | Some (JObj spec) =>
          (λ kv : string * JSON, jsonpatch.mkOperation "remove" ("/spec/" ++ kv.1) JNull)
          <$> filter (λ kv : string * JSON, kv.1 ∉ ["initContainers"; "containers"]) spec
      | _ => []
      end
  | _ => []
  end.

(** The patch of the double: the removal of what the pod does not carry,
    then the comparison of the two pods, field by field. *)
#[global] Instance admissionLib : AdmissionLib := {|
  Decode := decodePod;
  Marshal := λ pod, Ok (print (Pod_json pod));
  CreatePatch := λ original current,
    old ← decodePod original; new ← decodePod current;
    Ok (dropped original ++ pod_patch old new)%list;
|}.

(** [ServeContent] writes the content of a GET and nothing for a HEAD. *)
#[global] Instance httpLib : HttpLib := {|
  ServeContent := λ w r content,
    if decide (http.Method r = "HEAD") then http.WriteHeader 200 w
    else http.Write content w;
|}.

(** *** Sample data *)

Definition b (s : string) : bytes := list_byte_of_string s.

Definition store0 : Ipfs := mkIpfs ∅ ∅ "k51self" 1.

(** The two-layer image of the scenario. *)
Definition layer1 : bytes := b "layer-one".
Definition layer2 : bytes := b "layer-two".
Definition config0 : bytes := b "{}".
Definition gzip : string := "application/vnd.oci.image.layer.v1.tar+gzip".

Definition manifest0 : Manifest.t :=
  Manifest.mk 2 "application/vnd.oci.image.manifest.v1+json"
    (Descriptor.mk OCIConfigJSON 2 (sha config0) [])
    [Descriptor.mk gzip 9 (sha layer1) []; Descriptor.mk gzip 9 (sha layer2) []].

Definition layers0 : list Layer.t :=
  [Layer.mk (Ok layer1) (Ok (sha layer1)); Layer.mk (Ok layer2) (Ok (sha layer2))].

Definition image0 : Image.t := Image.mk (Ok layers0) (Ok config0) (Ok manifest0).

(** An image whose only layer is byte for byte its config blob. *)
Definition twinManifest : Manifest.t :=
  Manifest.mk 2 "application/vnd.oci.image.manifest.v1+json"
    (Descriptor.mk OCIConfigJSON 2 (sha config0) [])
    [Descriptor.mk gzip 2 (sha config0) []].

Definition twin : Image.t :=
  Image.mk (Ok [Layer.mk (Ok config0) (Ok (sha config0))]) (Ok config0) (Ok twinManifest).

Definition dropBlock (c : Cid) (s : Ipfs) : Ipfs :=
  mkIpfs (delete c (blocks s)) (names s) (self s) (peers s).

(** A wrapper record without a locator. *)
Definition noLocator : bytes :=
  print (JObj [("mediaType", JStr OCIImageIndex); ("digest", JStr (sha config0));
               ("size", JNum 2); ("urls", JArr [])]).

(** A cluster after the bootstrap: the empty Name Map is stored and
    published, the secret holds the key it is published under. *)
Definition emptyMap : bytes := print (JObj []).

Definition bootstrapped (peers : nat) : Ipfs :=
  mkIpfs {[cid emptyMap := File emptyMap]} {["k51self" := cid emptyMap]} "k51self" peers.

Definition cluster0 : Cluster :=
  {[("ripfs-system", consts.CidMapperSecretName) :=
      {[consts.CidMapperSecretKey := "k51self"]}]}.

(** A cluster whose secret exists but holds no key yet. *)
Definition clusterNoKey : Cluster :=
  {[("ripfs-system", consts.CidMapperSecretName) := ∅]}.

Definition rootOf (img : Image.t) (s : Ipfs) : Cid :=
  match (AddImage img s).1 with Ok p => p | _ => cid_Undef end.

Definition alpine : string := "index.docker.io/library/alpine:latest".

(** A mapper that knows one reference. *)
Definition oneMapper : CidMapper := λ image,
  if decide (image = alpine) then Ok "/ipfs/bafyroot"
  else Err (ErrCidDoesNotExist image).

Definition pod0 : Pod.t :=
  Pod.mk "web" [Container.mk "init" "busybox"]
    [Container.mk "sidecar" "envoy"; Container.mk "app" alpine].

Definition pod1 : Pod.t :=
  Pod.mk "web" [Container.mk "init" "busybox"] [Container.mk "sidecar" "envoy"].

Definition raw0 : bytes := print (Pod_json pod0).
Definition raw1 : bytes := print (Pod_json pod1).

(** The first pod as a newer API server sends it, with a field of the
    spec the pod of the webhook does not know. *)
Definition raw2 : bytes :=
  print (JObj [("metadata", JObj [("name", JStr "web")]);
               ("spec",
                JObj [("initContainers", JArr (Container_json <$> Pod.InitContainers pod0));
                      ("containers", JArr (Container_json <$> Pod.Containers pod0));
                      ("schedulingGates", JArr [JObj [("name", JStr "quota")]])])]).

(** An image one of whose blobs is listed twice, as a layer of two media
    types. *)
Definition zstd : string := "application/vnd.oci.image.layer.v1.tar+zstd".

Definition mixedManifest : Manifest.t :=
  Manifest.mk 2 "application/vnd.oci.image.manifest.v1+json"
    (Descriptor.mk OCIConfigJSON 2 (sha config0) [])
    [Descriptor.mk gzip 9 (sha layer1) []; Descriptor.mk zstd 9 (sha layer1) []].

Definition mixed : Image.t :=
  Image.mk (Ok [Layer.mk (Ok layer1) (Ok (sha layer1));
                Layer.mk (Ok layer1) (Ok (sha layer1))])
    (Ok config0) (Ok mixedManifest).

(** A cluster whose secret points at the key of another node, and a store
    that resolves that key to the empty Name Map. *)
Definition clusterOther : Cluster :=
  {[("ripfs-system", consts.CidMapperSecretName) :=
      {[consts.CidMapperSecretKey := "k51other"]}]}.

Definition bootstrappedOther : Ipfs :=
  mkIpfs {[cid emptyMap := File emptyMap]} {["k51other" := cid emptyMap]} "k51self" 1.

(** The store after the sample ingestion, and its root handle. *)
Definition store1 : Ipfs := (AddImage image0 store0).2.
Definition root1 : Cid := rootOf image0 store0.

(** The store and root handle of the twin image. *)
Definition storeT : Ipfs := (AddImage twin store0).2.
Definition rootT : Cid := rootOf twin store0.

(** The sample store without the block of its manifest. *)
Definition manifestCid : Cid :=
  match walkNodes store1 root1 with
  | Ok (_ :: (mc, _, _) :: _) => mc
  | _ => cid_Undef
  end.
Definition broken : Ipfs := dropBlock manifestCid store1.

(** The digest of the wrapping index, the first node of the walk. *)
Definition indexDigest : string :=
  match walkNodes store1 root1 with
  | Ok ((_, d, _) :: _) => d
  | _ => ""
  end.

Definition unknown : string := sha (b "not-in-the-graph").

End Sim.

(** * More of the program *)

(** ** Digests, locators and patches

    What the further properties are stated with: the digests an image
    manifest lists (its config first), the locator [AddImage] writes for a
    blob, and the patch of the containers a loop of [Handle] has
    rewritten. *)

Definition digests (m : Manifest.t) : list string :=
  Descriptor.Digest <$> (Manifest.Config m :: Manifest.Layers m).

Definition locator `{Lib} (data : bytes) : string :=
  IPFSSchema ++ cid_String (cidOf data).

Definition imagePatches `{Lib} (cidMapper : CidMapper) (registry : string)
    (kind : string) (i : nat) (cs : list Container.t) : list jsonpatch.Operation :=
  mjoin (imap (λ j c, imagePatch kind (i + j) (Container.Image c)
                        (Container.Image (relocated cidMapper registry c))) cs).

(** ** Secret Reconciler (package controllers) and the daemon's bootstrap

    The reconciler acts on the secrets of the cluster through the
    controller-runtime client and on the store through the IPFS client.
    The cluster of the model answers every request: [Get] and [Update]
    fail only for a secret that is not there, [Create] only for one that
    is. *)

(** The text of the empty JSON object, [[]byte(`{}`)]. *)
Definition emptyObject : bytes := [x7b; x7d].

Definition ClusterConfigSecretName : string := consts.Name ++ "-cluster-config".
Definition BootstrapServiceName : string := consts.Name ++ "-controller-manager".

Record World : Type := mkWorld {
  secrets : Cluster;
  ipfs : Ipfs;
}.

Definition R (A : Type) : Type := World → outcome A * World.

#[global] Instance R_ret : MRet R := λ A a w, (Ok a, w).
#[global] Instance R_bind : MBind R := λ A B f m w,
  match m w with
  | (Ok a, w') => f a w'
  | (Err e, w') => (Err e, w')
  | (Panic, w') => (Panic, w')
  end.

Definition liftR {A} (m : outcome A) : R A := λ w, (m, w).

(** A call on the IPFS client. *)
Definition onIpfs {A} (m : M A) : R A := λ w,
  let '(r, s) := m (ipfs w) in (r, mkWorld (secrets w) s).

(** k8s.io/apimachinery/pkg/api/errors *)
Module apierrors.
Definition NotFound : error := ErrExt "NotFound".
Definition AlreadyExists : error := ErrExt "AlreadyExists".
Definition IsNotFound (err : error) : bool :=
  match err with
  | ErrExt reason => String.eqb reason "NotFound"
  | _ => false
  end.
End apierrors.

(** controller-runtime's client, on secrets. *)
Module client.
Definition Get (key : string * string) : R (gmap string string) := λ w,
  match secrets w !! key with
  | Some data => (Ok data, w)
  | None => (Err apierrors.NotFound, w)
  end.

Definition Create (key : string * string) (data : gmap string string) : R unit := λ w,
  match secrets w !! key with
  | Some _ => (Err apierrors.AlreadyExists, w)
  | None => (Ok (), mkWorld (<[key := data]> (secrets w)) (ipfs w))
  end.

Definition Update (key : string * string) (data : gmap string string) : R unit := λ w,
  match secrets w !! key with
  | Some _ => (Ok (), mkWorld (<[key := data]> (secrets w)) (ipfs w))
  | None => (Err apierrors.NotFound, w)
  end.
End client.

(** [repo.Repo]: the swarm key and, of the config, the identity of the
    node. *)
Module repo.
Record Identity : Type := mkIdentity { PeerID : string }.
Record t : Type := mk {
  SwarmKey : outcome string;
  Config : outcome Identity;
}.
End repo.

Module ctrl.
Record Result : Type := mkResult { Requeue : bool }.
End ctrl.

Module SecretReconciler.
Record t : Type := mk {
  IpfsRepo : repo.t;
  ClusterSecretKey : string * string;   (* namespace, name *)
  CidMapperSecretKey : string * string;
}.
End SecretReconciler.

Definition ensureSecret (n : string * string) : R unit := λ w,
  match client.Get n w with
  | (Ok _, w') => (Ok (), w')
  | (Err err, w') =>
      if apierrors.IsNotFound err then client.Create n ∅ w' else (Err err, w')
  | (Panic, w') => (Panic, w')
  end.

Definition reconcileClusterConfig (r : SecretReconciler.t) : R ctrl.Result :=
  obj ← client.Get (SecretReconciler.ClusterSecretKey r);
  swarmKey ← liftR (repo.SwarmKey (SecretReconciler.IpfsRepo r));
  cfg ← liftR (repo.Config (SecretReconciler.IpfsRepo r));
  let bootstrapPeer :=
    "/dns/" ++ BootstrapServiceName ++ "." ++ (SecretReconciler.ClusterSecretKey r).1
    ++ ".svc/tcp/4001/ipfs/" ++ repo.PeerID cfg in
  let want : gmap string string :=
    <["bootstrap-peers" := bootstrapPeer]> (<["swarm.key" := swarmKey]> ∅) in
  if decide (want = obj) then mret (ctrl.mkResult false)
  else
    _ ← client.Update (SecretReconciler.ClusterSecretKey r) want;
    mret (ctrl.mkResult false).

Definition reconcileCidMapper `{Lib} (r : SecretReconciler.t) : R ctrl.Result :=
  obj ← client.Get (SecretReconciler.CidMapperSecretKey r);
  peers ← (λ w, (Ok (Swarm_Peers (ipfs w)), w));
  if Nat.eqb peers 0 then mret (ctrl.mkResult true)
  else
    match obj !! consts.CidMapperSecretKey with
    | Some _ => mret (ctrl.mkResult false)
    | None =>
        p ← onIpfs (Unixfs_Add emptyObject);
        e ← onIpfs (Name_Publish p true);
        _ ← client.Update (SecretReconciler.CidMapperSecretKey r)
              {[consts.CidMapperSecretKey := Name e]};
        mret (ctrl.mkResult false)
    end.

Definition Reconcile `{Lib} (r : SecretReconciler.t) (req : string * string)
    : R ctrl.Result :=
  if decide (req = SecretReconciler.ClusterSecretKey r) then reconcileClusterConfig r
  else if decide (req = SecretReconciler.CidMapperSecretKey r) then reconcileCidMapper r
  else
    _ ← ensureSecret (SecretReconciler.ClusterSecretKey r);
    _ ← ensureSecret (SecretReconciler.CidMapperSecretKey r);
    mret (ctrl.mkResult false).

(** [Daemon.createMapper] of package ipfs; [inCluster] is the result of
    [rest.InClusterConfig] and [client.New]. *)
Definition createMapper `{Lib} (inCluster : outcome unit) : R IpnsEntry :=
  p ← onIpfs (Unixfs_Add emptyObject);
  e ← onIpfs (Name_Publish p true);
  _ ← liftR inCluster;
  _ ← client.Create ("ripfs-system", "ripfs-index") {["ipns" := Name e]};
  mret e.

(** The fetcher the manager wires to the mapper: it reads the secret the
    reconciler keeps. *)
Definition reconcilerFetcher (r : SecretReconciler.t) (k : Cluster) : outcome string :=
  SecretFetcher_Fetch k (NewSecretFetcher (SecretReconciler.CidMapperSecretKey r)).

(** The data the cluster config secret is reconciled to. *)
Definition clusterConfig (r : SecretReconciler.t) (swarmKey peerID : string)
    : gmap string string :=
  <["bootstrap-peers" :=
      "/dns/" ++ BootstrapServiceName ++ "." ++ (SecretReconciler.ClusterSecretKey r).1
      ++ ".svc/tcp/4001/ipfs/" ++ peerID]> (<["swarm.key" := swarmKey]> ∅).

(** ** The commands (cmd/ripfs/cli)

    The [fmt.Errorf] sites of the commands have constructors of their own;
    an error a command receives from a package below and returns as it is
    travels in [ErrFrom]. *)

Inductive cmdError : Type :=
  | ErrFrom (err : error)
  | ErrLoadingImage (cause : cmdError)
  | ErrNeitherRemoteNorLocal (reference : string)
  | ErrLolNo (mediaType : string)
  | ErrLayoutMismatched (cause : error)
  | ErrCouldntFindContainer (container pod : string)
  | ErrCouldntFindImage.

(** What a command does: it returns a value, returns an error, or does not
    return to its caller (a panic, or [os.Exit]). *)
Inductive run (A : Type) : Type :=
  | Done (a : A)
  | Failed (err : cmdError)
  | Crashed.
Arguments Done {A} a.
Arguments Failed {A} err.
Arguments Crashed {A}.

#[global] Instance run_ret : MRet run := @Done.
#[global] Instance run_bind : MBind run := λ A B f m,
  match m with
  | Done a => f a
  | Failed err => Failed err
  | Crashed => Crashed
  end.

(** The result of a call into a package below, returned as it is. *)
Definition from {A} (m : outcome A) : run A :=
  match m with
  | Ok a => Done a
  | Err err => Failed (ErrFrom err)
  | Panic => Crashed
  end.

(** [fmt.Errorf("...: %v", err)] around a failed call. *)
Definition wrap_failed {A} (w : cmdError → cmdError) (m : run A) : run A :=
  match m with
  | Failed err => Failed (w err)
  | _ => m
  end.

(** A command step on a state [S]: the map of images a loader fills in
    place, or the cluster and the store. *)
Definition ST (S A : Type) : Type := S → run A * S.

#[global] Instance ST_ret {S} : MRet (ST S) := λ A a s, (Done a, s).
#[global] Instance ST_bind {S} : MBind (ST S) := λ A B f m s,
  match m s with
  | (Done a, s') => f a s'
  | (Failed err, s') => (Failed err, s')
  | (Crashed, s') => (Crashed, s')
  end.

Definition liftST {S A} (m : run A) : ST S A := λ s, (m, s).

(** Media types of go-containerregistry's [types] package. *)
Definition DockerManifestList : string :=
  "application/vnd.docker.distribution.manifest.list.v2+json".
Definition DockerManifestSchema1 : string :=
  "application/vnd.docker.distribution.manifest.v1+json".
Definition DockerManifestSchema1Signed : string :=
  "application/vnd.docker.distribution.manifest.v1+prettyjws".

(** [ocispec.AnnotationTitle] *)
Definition AnnotationTitle : string := "org.opencontainers.image.title".

(** An image index as the code reads it: its manifest, and the images and
    the nested indexes it hands out by digest.  Of a descriptor of the
    manifest the code reads the media type, the digest, and whether its
    platform equals the one asked for: [PlatformEquals] is what
    [m.Platform.Equals(p)] returns, [None] where the call does not
    return. *)
Module ImageIndex.
Record entry : Type := mkEntry {
  MediaType : string;
  Digest : Hash;
  PlatformEquals : option bool;
}.
Record manifest : Type := mkManifest {
  Manifests : list entry;
  Annotations : gmap string string;
}.
Inductive t : Type := mk {
  IndexManifest : outcome manifest;
  Image : Hash → outcome Image.t;
  ImageIndex : Hash → outcome t;
}.
End ImageIndex.

Module Platform.
Record t : Type := mk { Architecture : string; OS : string; Variant : string }.
End Platform.

(** internal/k8s/tunnel.go *)
Module k8s.
Record Target : Type := mkTarget {
  Name : string;
  Namespace : string;
  Container : string;
}.
End k8s.

(** What a command finds outside the process: the configuration of the
    cluster ([GetConfigOrDie] is whether [ctrl.GetConfigOrDie] returns) and
    the client built from it, the remote registry ([remote.Get], which
    gives the media type of the descriptor, and [remote.Image]), the file
    system ([os.Stat], which gives [IsDir]), [tarball.ImageFromPath],
    [layout.FromPath] with [ImageIndex] of the path, the services and pods
    of the cluster (a pod comes with its namespace; the pods are listed by
    the selector of the service, whose label string the code joins in the
    order the map hands out), the tunnel and the client of the IPFS API. *)
Class Host : Type := {
  GetConfigOrDie : bool;
  NewForConfig : outcome unit;
  remote_Get : Platform.t → string → outcome string;
  remote_Image : Platform.t → string → outcome Image.t;
  os_Stat : string → outcome bool;
  tarball_ImageFromPath : string → outcome Image.t;
  layout_FromPath : string → outcome (outcome ImageIndex.t);
  Services_Get : string → string → outcome (gmap string string);
  Pods_List : string → gmap string string → outcome (list (string * Pod.t));
  NewTunneler : outcome unit;
  Tunnel : k8s.Target → list string → outcome unit;
  NewMultiaddr : string → outcome string;
  NewApi : string → outcome unit;
}.

Module addCommandOpts.
Record t : Type := mk {
  IPFSApiAddress : string;
  Name : string;
  Namespace : string;
  Container : string;
  OS : string;
  Architecture : string;
  Variant : string;
}.
End addCommandOpts.

(** The loaders fill [imgMap] in place. *)
Abbreviation imgMap := (gmap string Image.t) (only parsing).

(** [imgMap[key] = img] *)
Definition setImage (key : string) (img : Image.t) : ST imgMap unit :=
  λ imgs, (Done (), <[key := img]> imgs).

Definition loadImagesFromRemote `{Host} (o : addCommandOpts.t) (ref : string)
    : ST imgMap unit :=
  let p := Platform.mk (addCommandOpts.Architecture o) (addCommandOpts.OS o)
             (addCommandOpts.Variant o) in
  mediaType ← liftST (from (remote_Get p ref));
  _ ← liftST (if decide (mediaType = DockerManifestSchema1
                         ∨ mediaType = DockerManifestSchema1Signed)
              then Failed (ErrLolNo mediaType) else Done ());
  img ← liftST (from (remote_Image p ref));
  setImage ref img.

Definition loadImagesFromTar `{Host} (path : string) : ST imgMap unit :=
  img ← liftST (from (tarball_ImageFromPath path));
  setImage "temp" img.

(** The loop of [loadImagesFromLayout]: every image goes under the title
    annotation of the INDEX. *)
Fixpoint layoutImages (idx : ImageIndex.t) (title : string)
    (ms : list ImageIndex.entry) : ST imgMap unit :=
  match ms with
  | [] => mret ()
  | m :: rest =>
      img ← liftST (match ImageIndex.Image idx (ImageIndex.Digest m) with
                    | Ok img => Done img
                    | Err err => Failed (ErrLayoutMismatched err)
                    | Panic => Crashed
                    end);
      _ ← setImage title img;
      layoutImages idx title rest
  end.

Definition loadImagesFromLayout `{Host} (path : string) : ST imgMap unit :=
  p ← liftST (from (layout_FromPath path));
  idx ← liftST (from p);
  idxm ← liftST (from (ImageIndex.IndexManifest idx));
  layoutImages idx (default "" (ImageIndex.Annotations idxm !! AnnotationTitle))
    (ImageIndex.Manifests idxm).

(** What a caller that checks the error first sees of a loader. *)
Definition loaded (r : run unit * imgMap) : run imgMap :=
  match r.1 with
  | Done _ => Done r.2
  | Failed err => Failed err
  | Crashed => Crashed
  end.

Definition loadImages `{Lib} `{Host} (o : addCommandOpts.t) (reference : string)
    : run imgMap :=
  match ParseReference reference with
  | Ok iref => loaded (loadImagesFromRemote o iref ∅)
  | Panic => Crashed
  | Err _ =>
      match os_Stat reference with
      | Err _ => Failed (ErrNeitherRemoteNorLocal reference)
      | Panic => Crashed
      | Ok isDir =>
          if isDir then loaded (loadImagesFromLayout reference ∅)
          else loaded (loadImagesFromTar reference ∅)
      end
  end.

Definition fwdTarget `{Host} (o : addCommandOpts.t) : run k8s.Target :=
  _ ← from NewForConfig;
  selector ← from (Services_Get (addCommandOpts.Namespace o) (addCommandOpts.Name o));
  pods ← from (Pods_List (addCommandOpts.Namespace o) selector);
  match pods with
  | [] => Crashed
  | fwdPod :: _ =>
      if existsb (λ c, String.eqb (Container.Name c) (addCommandOpts.Container o))
           (Pod.Containers fwdPod.2)
      then Done (k8s.mkTarget (Pod.Name fwdPod.2) fwdPod.1 (addCommandOpts.Container o))
      else Failed (ErrCouldntFindContainer (addCommandOpts.Container o)
                     (Pod.Name fwdPod.2))
  end.

(** A call on the IPFS client, by a command that reads the secrets of the
    cluster. *)
Definition onStore {A} (m : Cluster → M A) : ST World A := λ w,
  let '(r, s) := m (secrets w) (ipfs w) in (from r, mkWorld (secrets w) s).

(** The loop of [Run] over the loaded images, in the order the map hands
    them out. *)
Fixpoint addImages `{Lib} (imgs : list (string * Image.t)) : ST World unit :=
  match imgs with
  | [] => mret ()
  | (ref, img) :: rest =>
      p ← onStore (λ _, AddImage img);
      _ ← onStore (λ k, updateCidMap k ref p);
      addImages rest
  end.

(** The tunnel to the pod of the IPFS API, opened when a container is
    named. *)
Definition openTunnel `{Host} (o : addCommandOpts.t) : run unit :=
  if decide (addCommandOpts.Container o = "") then Done ()
  else
    _ ← from NewTunneler;
    ipfsTargetPod ← fwdTarget o;
    from (Tunnel ipfsTargetPod ["5001:5001"]).

Definition Run `{Lib} `{Host} (o : addCommandOpts.t) (reference : string)
    : ST World unit :=
  _ ← liftST (if GetConfigOrDie then Done () else Crashed);
  imgs ← liftST (wrap_failed ErrLoadingImage (loadImages o reference));
  _ ← liftST (openTunnel o);
  ma ← liftST (from (NewMultiaddr (addCommandOpts.IPFSApiAddress o)));
  _ ← liftST (from (NewApi ma));
  addImages (map_to_list imgs).

(** [getImage] of the install command: the loop over the manifests of
    the index of a layout.  [img] is the image found so far; a nested
    index is scanned for the first entry of the platform, and the image of
    that entry, or nothing when it cannot be read, replaces what was
    found. *)
Fixpoint firstOfPlatform (idx : ImageIndex.t) (ms : list ImageIndex.entry)
    (img : option Image.t) : run (option Image.t) :=
  match ms with
  | [] => Done img
  | m :: rest =>
      match ImageIndex.PlatformEquals m with
      | None => Crashed
      | Some true =>
          match ImageIndex.Image idx (ImageIndex.Digest m) with
          | Ok found => Done (Some found)
          | Err _ => Done None
          | Panic => Crashed
          end
      | Some false => firstOfPlatform idx rest img
      end
  end.

Fixpoint scanIndex (idx : ImageIndex.t) (ms : list ImageIndex.entry)
    (img : option Image.t) : run (option Image.t) :=
  match ms with
  | [] => Done img
  | m :: rest =>
      if decide (ImageIndex.MediaType m = DockerManifestList
                 ∨ ImageIndex.MediaType m = OCIImageIndex)
      then
        nidx ← from (ImageIndex.ImageIndex idx (ImageIndex.Digest m));
        nidxm ← from (ImageIndex.IndexManifest nidx);
        img' ← firstOfPlatform nidx (ImageIndex.Manifests nidxm) img;
        scanIndex idx rest img'
      else scanIndex idx rest img
  end.

Definition getImage `{Host} (path : string) : run Image.t :=
  l ← from (layout_FromPath path);
  idx ← from l;
  idxm ← from (ImageIndex.IndexManifest idx);
  img ← scanIndex idx (ImageIndex.Manifests idxm) None;
  match img with
  | None => Failed ErrCouldntFindImage
  | Some img => Done img
  end.

(** ** The applier (package k8s)

    [ssa.ResourceManager] of fluxcd: the state of the cluster it acts on,
    what [ApplyAll] and [WaitForSet] make of it, and which objects are
    cluster definitions. *)

Module ssa.
Class Manager : Type := {
  Object : Type;
  ChangeSet : Type;
  State : Type;
  IsClusterDefinition : Object → bool;
  ApplyAll : list Object → State → outcome ChangeSet * State;
  WaitForSet : ChangeSet → State → outcome unit * State;
}.
End ssa.

(** The change set is a pointer: [None] is [nil]. *)
Definition applyAndWait `{ssa.Manager} (objs : list ssa.Object)
    : ssa.State → outcome (option ssa.ChangeSet) * ssa.State := λ k,
  if decide (length objs = 0%nat) then (Ok None, k)
  else
    match ssa.ApplyAll objs k with
    | (Ok cs, k1) =>
        match ssa.WaitForSet cs k1 with
        | (Ok _, k2) => (Ok (Some cs), k2)
        | (Err err, k2) => (Err err, k2)
        | (Panic, k2) => (Panic, k2)
        end
    | (Err err, k1) => (Err err, k1)
    | (Panic, k1) => (Panic, k1)
    end.

(** One turn of the loop of [split]. *)
Definition split_step `{ssa.Manager} (acc : list ssa.Object * list ssa.Object)
    (obj : ssa.Object) : list ssa.Object * list ssa.Object :=
  match ssa.IsClusterDefinition obj with
  | true => (acc.1 ++ [obj], acc.2)%list
  | _ => (acc.1, acc.2 ++ [obj])%list
  end.

Definition split `{ssa.Manager} (objects : list ssa.Object)
    : list ssa.Object * list ssa.Object :=
  fold_left split_step objects ([], []).

Definition Apply `{ssa.Manager} (objs : list ssa.Object)
    : ssa.State → outcome (option ssa.ChangeSet) * ssa.State := λ k,
  let '(cobjs, objs) := split objs in
  match applyAndWait cobjs k with
  | (Ok _, k1) => applyAndWait objs k1
  | (Err err, k1) => (Err err, k1)
  | (Panic, k1) => (Panic, k1)
  end.

(** ** A double that reads the empty object

    The double of the libraries with a printer and a parser that know the
    text [{}] of the empty JSON object, and with references that do not
    parse (the absolute paths); a host for the commands; sample data. *)

Module Demo.

Definition print (j : JSON) : bytes :=
  match j with
  | JObj [] => emptyObject
  | _ => Sim.print j
  end.

Definition isEmptyObject (b : bytes) : bool :=
  match b with
  | [x; y] => Byte.eqb x x7b && Byte.eqb y x7d
  | _ => false
  end.

Definition parse (b : bytes) : option JSON :=
  if isEmptyObject b then Some (JObj []) else Sim.parse b.

Definition parseRef (s : string) : outcome string :=
  match Sim.strip_prefix "/" s with
  | Some _ => Err (ErrExt "name.ParseReference")
  | None => Sim.parseRef s
  end.

Definition lib : Lib := {|
  json_print := print;
  json_parse := parse;
  cidOf := Sim.cid;
  cid_String := id;
  cid_Decode := Sim.decodeCid;
  url_Parse := Sim.parseURL;
  digest_valid := Sim.validDigest;
  SHA256 := Sim.sha;
  ParseReference := parseRef;
  path_Join := Sim.join;
|}.

(** *** The cluster and the reconciler *)

Definition clusterKey : string * string := ("ripfs-system", ClusterConfigSecretName).

Definition reconciler : SecretReconciler.t :=
  SecretReconciler.mk
    (repo.mk (Ok "/key/swarm/psk/1.0.0/") (Ok (repo.mkIdentity "12D3KooWpeer")))
    clusterKey secretKey.

(** A cluster without secrets, and the cluster the manager has made the
    two secrets in. *)
Definition world0 : World := mkWorld ∅ Sim.store0.
Definition world1 : World :=
  mkWorld {[clusterKey := ∅; secretKey := ∅]} Sim.store0.

(** The store without peers. *)
Definition alone : World :=
  mkWorld {[secretKey := ∅]} (mkIpfs ∅ ∅ "k51self" 0).

(** The world after the bootstrap of the Name Map. *)
Definition world2 : World := (@reconcileCidMapper lib reconciler world1).2.

(** The world of the add command: the Name Map of the first double. *)
Definition world3 : World := mkWorld Sim.cluster0 (Sim.bootstrapped 1).

(** A store whose root block is not a record. *)
Definition scrambled : Ipfs :=
  mkIpfs {[Sim.cid Sim.layer1 := File Sim.layer1]} ∅ "k51self" 1.

(** *** Images *)

(** An image whose second layer cannot be read. *)
Definition torn : Image.t :=
  Image.mk (Ok [Layer.mk (Ok Sim.layer1) (Ok (Sim.sha Sim.layer1));
                Layer.mk (Err (ErrExt "Compressed")) (Ok (Sim.sha Sim.layer2))])
    (Ok Sim.config0) (Ok Sim.manifest0).

(** The manifest the sample ingestion decorates with locators. *)
Definition decorated : Manifest.t :=
  match convertIpfs Sim.manifest0
          (<[Sim.sha Sim.config0 := Sim.cid Sim.config0]>
             (cidMapOf [(Sim.sha Sim.layer1, Sim.layer1);
                        (Sim.sha Sim.layer2, Sim.layer2)] ∅)) with
  | Ok n => n
  | _ => Sim.manifest0
  end.

(** The sample ingestion into the bootstrapped store. *)
Definition store2 : Ipfs := (@AddImage lib Sim.image0 (ipfs world2)).2.
Definition root2 : Cid :=
  match (@AddImage lib Sim.image0 (ipfs world2)).1 with
  | Ok p => p
  | _ => cid_Undef
  end.

(** *** The host of the commands *)

Definition imageManifest : string := "application/vnd.oci.image.manifest.v1+json".

Definition noImage : Hash → outcome Image.t := λ _, Err (ErrExt "Image").
Definition noIndex : Hash → outcome ImageIndex.t := λ _, Err (ErrExt "ImageIndex").

(** A layout of two images, with a title. *)
Definition flat : ImageIndex.t :=
  ImageIndex.mk
    (Ok (ImageIndex.mkManifest
           [ImageIndex.mkEntry imageManifest "sha256:1" None;
            ImageIndex.mkEntry imageManifest "sha256:2" None]
           {[AnnotationTitle := "demo"]}))
    (λ h, if decide (h = "sha256:1") then Ok Sim.image0
          else if decide (h = "sha256:2") then Ok Sim.twin
          else Err (ErrExt "Image"))
    noIndex.

(** An index of three platforms, the second and the third of which are
    the platform asked for. *)
Definition platforms : ImageIndex.t :=
  ImageIndex.mk
    (Ok (ImageIndex.mkManifest
           [ImageIndex.mkEntry imageManifest "sha256:arm" (Some false);
            ImageIndex.mkEntry imageManifest "sha256:1" (Some true);
            ImageIndex.mkEntry imageManifest "sha256:2" (Some true)]
           ∅))
    (λ h, if decide (h = "sha256:1") then Ok Sim.image0
          else if decide (h = "sha256:2") then Ok Sim.twin
          else Err (ErrExt "Image"))
    noIndex.

(** A layout whose only manifest is that index. *)
Definition nested : ImageIndex.t :=
  ImageIndex.mk
    (Ok (ImageIndex.mkManifest [ImageIndex.mkEntry OCIImageIndex "sha256:idx" None] ∅))
    noImage
    (λ h, if decide (h = "sha256:idx") then Ok platforms else Err (ErrExt "ImageIndex")).

Definition ipfsPod : Pod.t :=
  Pod.mk "ripfs-0" [] [Container.mk "manager" "ripfs"; Container.mk "ipfs" "ipfs/kubo"].

Definition host : Host := {|
  GetConfigOrDie := true;
  NewForConfig := Ok ();
  remote_Get := λ _ ref,
    if decide (ref = Sim.alpine) then Ok imageManifest
    else if decide (ref = "index.docker.io/library/torn:latest") then Ok imageManifest
    else Err (ErrExt "remote.Get");
  remote_Image := λ _ ref,
    if decide (ref = Sim.alpine) then Ok Sim.image0
    else if decide (ref = "index.docker.io/library/torn:latest") then Ok torn
    else Err (ErrExt "remote.Image");
  os_Stat := λ path,
    if decide (path = "/srv/Layout") then Ok true
    else if decide (path = "/srv/Nested") then Ok true
    else if decide (path = "/srv/Image.tar") then Ok false
    else Err (ErrExt "os.Stat");
  tarball_ImageFromPath := λ path,
    if decide (path = "/srv/Image.tar") then Ok Sim.twin
    else Err (ErrExt "tarball.ImageFromPath");
  layout_FromPath := λ path,
    if decide (path = "/srv/Layout") then Ok (Ok flat)
    else if decide (path = "/srv/Nested") then Ok (Ok nested)
    else Err (ErrExt "layout.FromPath");
  Services_Get := λ ns name,
    if decide (name = "ripfs") then Ok {["app" := "ripfs"]}
    else Err (ErrExt "Services.Get");
  Pods_List := λ ns _,
    if decide (ns = "ripfs-system") then Ok [(ns, ipfsPod)] else Ok [];
  NewTunneler := Ok ();
  Tunnel := λ _ _, Ok ();
  NewMultiaddr := λ a, Ok a;
  NewApi := λ _, Ok ();
|}.

(** The options of [ripfs add]: through a tunnel to the container [ipfs],
    and without one. *)
Definition tunneled : addCommandOpts.t :=
  addCommandOpts.mk "/ip4/127.0.0.1/tcp/5001" "ripfs" "ripfs-system" "ipfs"
    "linux" "amd64" "".
Definition direct : addCommandOpts.t :=
  addCommandOpts.mk "/ip4/127.0.0.1/tcp/5001" "ripfs" "ripfs-system" ""
    "linux" "amd64" "".
Definition elsewhere : addCommandOpts.t :=
  addCommandOpts.mk "/ip4/127.0.0.1/tcp/5001" "ripfs" "default" "ipfs"
    "linux" "amd64" "".
Definition nginx : addCommandOpts.t :=
  addCommandOpts.mk "/ip4/127.0.0.1/tcp/5001" "ripfs" "ripfs-system" "nginx"
    "linux" "amd64" "".

(** A manager that records what it is asked to apply. *)
Definition manager : ssa.Manager := {|
  ssa.Object := string * bool;
  ssa.ChangeSet := list string;
  ssa.State := list (list string);
  ssa.IsClusterDefinition := snd;
  ssa.ApplyAll := λ objs k, (Ok objs.*1, (k ++ [objs.*1])%list);
  ssa.WaitForSet := λ _ k, (Ok (), k);
|}.

(** A pod that runs the sample image. *)
Definition pod : Pod.t := Pod.mk "web" [] [Container.mk "app" "alpine"].
Definition raw : bytes := Sim.print (Sim.Pod_json pod).

End Demo.

(** * Proofs *)

(** ** Results *)

Lemma bind_Ok {A B} (m : outcome A) (f : A → outcome B) b :
  m ≫= f = Ok b → ∃ a, m = Ok a ∧ f a = Ok b.
Proof. destruct m; simpl; [eauto | discriminate..]. Qed.

Lemma M_bind_Ok {A B} (m : M A) (f : A → M B) s b s' :
  (m ≫= f) s = (Ok b, s') → ∃ a s1, m s = (Ok a, s1) ∧ f a s1 = (Ok b, s').
Proof.
  unfold mbind, M_bind. destruct (m s) as [[a|e|] s1]; [eauto | discriminate..].
Qed.

Lemma mapM_outcome_fmap {A B C} (f : B → outcome C) (g : A → B) l :
  mapM_outcome f (g <$> l) = mapM_outcome (f ∘ g) l.
Proof. induction l as [|x l IH]; csimpl; [done|]. by rewrite IH. Qed.

Lemma mapM_outcome_Ok_id {A} (f : A → outcome A) l :
  (∀ x, f x = Ok x) → mapM_outcome f l = Ok l.
Proof. intros Hf. induction l as [|x l IH]; simpl; [done|]. by rewrite Hf, IH. Qed.

Lemma mapM_outcome_ext {A B} (f g : A → outcome B) l :
  (∀ x, f x = g x) → mapM_outcome f l = mapM_outcome g l.
Proof. intros Hfg. induction l as [|x l IH]; simpl; [done|]. by rewrite Hfg, IH. Qed.

Lemma mapM_outcome_Forall2 {A B} (f : A → outcome B) l k :
  mapM_outcome f l = Ok k → Forall2 (λ x y, f x = Ok y) l k.
Proof.
  revert k. induction l as [|x l IH]; simpl; intros k Hk.
  - injection Hk as <-. constructor.
  - apply bind_Ok in Hk as (y & Hy & Hk). apply bind_Ok in Hk as (ys & Hys & Hk).
    injection Hk as <-. constructor; auto.
Qed.

(** ** JSON records read back *)

Lemma jfield_app k l1 l2 :
  jfield k (l1 ++ l2)
  = match jfield k l2 with Some v => Some v | None => jfield k l1 end.
Proof.
  induction l1 as [|[k' v'] l1 IH]; simpl; [by destruct (jfield k l2)|].
  rewrite IH. by destruct (jfield k l2).
Qed.

Lemma dec_strings_JStr urls :
  dec_strings (Some (JArr (JStr <$> urls))) = Ok (Some urls).
Proof.
  unfold dec_strings. rewrite mapM_outcome_fmap.
  by rewrite mapM_outcome_Ok_id.
Qed.

(** Looking up a literal key in a literal list of fields. *)
Ltac jfields :=
  rewrite ?jfield_app; cbn [jfield enc_urls app];
  repeat first [rewrite decide_True by done | rewrite decide_False by done].

Lemma dec_Descriptor_json d :
  dec_struct dec_Descriptor (Descriptor_json d) = Ok d.
Proof.
  destruct d as [mt sz dg urls]. unfold Descriptor_json, dec_struct, dec_Descriptor.
  cbn [Descriptor.MediaType Descriptor.Size Descriptor.Digest Descriptor.URLs].
  destruct urls as [|u urls]; jfields; [done|].
  cbn [dec_string dec_int mbind outcome_bind].
  by rewrite dec_strings_JStr.
Qed.

Lemma dec_array_Descriptor_json ds :
  dec_array dec_Descriptor (Some (JArr (Descriptor_json <$> ds))) = Ok ds.
Proof.
  unfold dec_array. rewrite mapM_outcome_fmap.
  apply mapM_outcome_Ok_id. intros d. apply dec_Descriptor_json.
Qed.

Lemma dec_Manifest_json m :
  dec_struct dec_Manifest (Manifest_json m) = Ok m.
Proof.
  destruct m as [sv mt cfg layers]. unfold Manifest_json, dec_struct, dec_Manifest.
  cbn [Manifest.SchemaVersion Manifest.MediaType Manifest.Config Manifest.Layers].
  unfold enc_mediaType_omitempty.
  destruct (decide (mt = "")) as [->|Hmt]; jfields;
    cbn [dec_string dec_int mbind outcome_bind];
    rewrite dec_Descriptor_json, dec_array_Descriptor_json; done.
Qed.

Lemma dec_catch_IpfsManifest mt dg sz u :
  dec_struct dec_catch (IpfsManifest_json (IpfsManifest.mk mt dg sz [u]))
  = Ok (catch.mk mt dg (Some [u]) []).
Proof.
  unfold IpfsManifest_json, dec_struct, dec_catch. cbn [IpfsManifest.MediaType
    IpfsManifest.Digest IpfsManifest.Size IpfsManifest.URLs]. jfields. done.
Qed.

Lemma dec_catch_IndexManifest sv mt dmt dsz ddg u :
  mt ≠ "" →
  dec_struct dec_catch
    (IndexManifest_json (IndexManifest.mk sv mt [Descriptor.mk dmt dsz ddg [u]]))
  = Ok (catch.mk mt "" None [catch.mkEntry dmt ddg (Some [u])]).
Proof.
  intros Hmt. unfold IndexManifest_json, dec_struct, dec_catch, enc_mediaType_omitempty.
  cbn [IndexManifest.SchemaVersion IndexManifest.MediaType IndexManifest.Manifests].
  rewrite decide_False by done. jfields. done.
Qed.

(** ** The store *)

Section store.
Context {Lb : Lib} {Lw : LibLaws}.

Lemma stored_Add b s : stored (addBlock b s) b.
Proof. unfold stored, addBlock. simpl. apply lookup_insert_eq. Qed.

Lemma stored_Add_mono b b' s : stored s b → stored (addBlock b' s) b.
Proof.
  unfold stored, addBlock. simpl. intros Hb.
  destruct (decide (cidOf b' = cidOf b)) as [Heq|Hne].
  - apply cidOf_inj in Heq as ->. apply lookup_insert_eq.
  - by rewrite lookup_insert_ne.
Qed.

Lemma open_stored s b : stored s b → open s (cidOf b) = Ok b.
Proof.
  unfold stored, open, Unixfs_Get. intros Hb.
  rewrite decide_False by apply cidOf_defined. by rewrite Hb.
Qed.

Lemma writeObj_spec obj s :
  writeObj obj s
  = (Ok (cidOf (json_print obj), SHA256 (json_print obj),
         Z.of_nat (length (json_print obj))),
     addBlock (json_print obj) s).
Proof. reflexivity. Qed.

(** *** [writeLayers] *)

Lemma errgroup_not_Ok layers acc s :
  is_ok acc = false → is_ok (errgroup layers acc s).1 = false.
Proof.
  revert acc s. induction layers as [|l layers IH]; intros acc s Hacc; [done|].
  simpl. destruct (writeLayer l s) as [r s1]. apply IH.
  by destruct acc.
Qed.

Lemma writeLayer_Ok l s d p s' :
  writeLayer l s = (Ok (d, p), s') →
  ∃ b, Layer.Compressed l = Ok b ∧ Layer.Digest l = Ok d ∧ p = cidOf b
       ∧ s' = addBlock b s.
Proof.
  unfold writeLayer. intros Hw.
  apply M_bind_Ok in Hw as (b & s1 & Hb & Hw). injection Hb as Hb <-.
  apply M_bind_Ok in Hw as (d' & s2 & Hd & Hw). injection Hd as Hd <-.
  apply M_bind_Ok in Hw as (p' & s3 & Hp & Hw). injection Hp as <- <-.
  injection Hw as <- <- <-. eauto.
Qed.

Lemma errgroup_Ok layers acc s cm s' :
  errgroup layers (Ok acc) s = (Ok cm, s') →
  ∃ entries,
    Forall2 (λ l e, Layer.Digest l = Ok e.1 ∧ Layer.Compressed l = Ok e.2)
      layers entries
    ∧ cm = cidMapOf entries acc
    ∧ (∀ b, stored s b → stored s' b)
    ∧ Forall (λ e, stored s' e.2) entries.
Proof.
  revert acc s. induction layers as [|l layers IH]; intros acc s Hg.
  - injection Hg as <- <-. exists []. repeat split; auto.
  - simpl in Hg. destruct (writeLayer l s) as [[[d p]|e|] s1] eqn:Hw.
    + apply writeLayer_Ok in Hw as (b & Hb & Hd & -> & ->).
      apply IH in Hg as (entries & HF & -> & Hmono & Hst).
      exists ((d, b) :: entries). repeat split.
      * constructor; auto.
      * intros b' Hb'. apply Hmono. by apply stored_Add_mono.
      * constructor; [|done]. apply Hmono. apply stored_Add.
    + pose proof (errgroup_not_Ok layers (Err e) s1 eq_refl) as Hn.
      rewrite Hg in Hn. discriminate.
    + pose proof (errgroup_not_Ok layers Panic s1 eq_refl) as Hn.
      rewrite Hg in Hn. discriminate.
Qed.

Lemma cidMapOf_lookup entries acc d c :
  cidMapOf entries acc !! d = Some c →
  acc !! d = Some c ∨ ∃ b, (d, b) ∈ entries ∧ c = cidOf b.
Proof.
  revert acc. induction entries as [|[d' b'] entries IH]; intros acc; [by left|].
  unfold cidMapOf. simpl. intros Hl. apply IH in Hl as [Hl|(b & Hin & ->)].
  - destruct (decide (d' = d)) as [->|Hne].
    + rewrite lookup_insert_eq in Hl. injection Hl as <-.
      right. exists b'. split; [left|done].
    + rewrite lookup_insert_ne in Hl by done. by left.
  - right. exists b. split; [by right|done].
Qed.

Lemma cidMapOf_is_Some entries acc d :
  is_Some (acc !! d) ∨ (∃ b, (d, b) ∈ entries) →
  is_Some (cidMapOf entries acc !! d).
Proof.
  revert acc. induction entries as [|[d' b'] entries IH]; intros acc Hin.
  - destruct Hin as [?|[b Hin]]; [done|]. by apply elem_of_nil in Hin.
  - unfold cidMapOf. simpl. apply IH.
    destruct Hin as [Hacc|[b Hin]].
    + left. destruct (decide (d' = d)) as [->|Hne].
      * rewrite lookup_insert_eq. eauto.
      * by rewrite lookup_insert_ne.
    + apply elem_of_cons in Hin as [Heq|Hin]; [|right; eauto].
      injection Heq as <- <-. left. rewrite lookup_insert_eq. eauto.
Qed.
End store.

(** ** The walk *)

Section walk.
Context {Lb : Lib}.

Lemma walkLayers_pure {St} (fn : walkFn St) (g : node → St → St) layers st :
  (∀ c d mt st, fn c d mt st = Ok (g (c, d, mt) st)) →
  walkLayers fn layers st
  = ns ← layerNodes layers; Ok (fold_left (λ st n, g n st) ns st).
Proof.
  intros Hfn. revert st. induction layers as [|layer layers IH]; intros st; [done|].
  unfold layerNodes in *. simpl.
  destruct (resolveCids (Descriptor.URLs layer)) as [lc|e|]; simpl; [|done..].
  rewrite Hfn. simpl. rewrite IH. by destruct (mapM_outcome _ layers).
Qed.

Lemma collect_pure c d mt acc :
  collect c d mt acc = Ok ((λ n (acc : list node), acc ++ [n])%list (c, d, mt) acc).
Proof. reflexivity. Qed.

Lemma fold_left_snoc (ns acc : list node) :
  fold_left (λ (acc : list node) n, (acc ++ [n])%list) ns acc = (acc ++ ns)%list.
Proof.
  revert acc. induction ns as [|n ns IH]; intros acc; simpl.
  - by rewrite app_nil_r.
  - rewrite IH. by rewrite <- app_assoc.
Qed.

Lemma walk_walkFrom {St} s rootc (fn : walkFn St) st :
  walk s rootc fn st
  = rootf ← open s rootc;
    match step rootf with
    | Ok idx => walkFrom s fn idx st
    | Err _ => walkFrom s fn (cid_Undef, "", "") st
    | Panic => Panic
    end.
Proof.
  unfold walk. destruct (open s rootc) as [rootf|e|]; simpl; [|done..].
  by destruct (step rootf) as [[[idxc idxd] idxmt]|e|].
Qed.

Lemma walkFrom_pure {St} (fn : walkFn St) (g : node → St → St) s idx st :
  (∀ c d mt st, fn c d mt st = Ok (g (c, d, mt) st)) →
  walkFrom s fn idx st
  = nodes ← walkFrom s collect idx []; Ok (fold_left (λ st n, g n st) nodes st).
Proof.
  intros Hfn. destruct idx as [[idxc idxd] idxmt]. unfold walkFrom.
  rewrite Hfn, collect_pure. simpl.
  destruct (open s idxc) as [idxf|e|]; simpl; [|done..].
  destruct (step idxf) as [[[mc md] mmt]|e|]; simpl; [|done..].
  rewrite Hfn. simpl.
  destruct (open s mc) as [mf|e|]; simpl; [|done..].
  destruct (json_Decode dec_Manifest mf) as [m|e|]; simpl; [|done..].
  destruct (resolveCids _) as [cc|e|]; simpl; [|done..].
  rewrite Hfn. simpl.
  rewrite (walkLayers_pure fn g) by done.
  rewrite (walkLayers_pure collect _ _ _ collect_pure).
  destruct (layerNodes (Manifest.Layers m)) as [ns|e|]; simpl; [|done..].
  by rewrite fold_left_snoc.
Qed.

Lemma walk_pure {St} (fn : walkFn St) (g : node → St → St) s rootc st :
  (∀ c d mt st, fn c d mt st = Ok (g (c, d, mt) st)) →
  walk s rootc fn st
  = nodes ← walkNodes s rootc; Ok (fold_left (λ st n, g n st) nodes st).
Proof.
  intros Hfn. unfold walkNodes. rewrite !walk_walkFrom.
  destruct (open s rootc) as [rootf|e|]; cbn [mbind outcome_bind]; [|done..].
  destruct (step rootf) as [idx|e|]; [| |done]; by apply walkFrom_pure.
Qed.

Lemma fold_matchDigest d nodes st :
  fold_left (λ (st : bool * Cid * string) (n : node),
               if decide (d = n.1.2) then (true, n.1.1, n.2) else st) nodes st
  = match lastMatch d nodes with
    | Some n => (true, n.1.1, n.2)
    | None => st
    end.
Proof.
  revert st. induction nodes as [|n nodes IH]; intros st; [done|].
  simpl. rewrite IH. destruct (lastMatch d nodes); [done|].
  by destruct (decide (d = n.1.2)).
Qed.

(** [ReadBlob] walks to the end and keeps the last node that matched. *)
Lemma ReadBlob_walkNodes s name d :
  ReadBlob s name d
  = rootc ← cid_Decode name;
    nodes ← walkNodes s rootc;
    openNode s d (lastMatch d nodes).
Proof.
  unfold ReadBlob. destruct (cid_Decode name) as [rootc|e|]; simpl; [|done..].
  rewrite (walk_pure (matchDigest d)
             (λ (n : node) (st : bool * Cid * string),
                if decide (d = n.1.2) then (true, n.1.1, n.2) else st))
    by done.
  destruct (walkNodes s rootc) as [nodes|e|]; simpl; [|done..].
  rewrite fold_matchDigest. by destruct (lastMatch d nodes) as [[[c d'] mt]|].
Qed.

Lemma walkFrom_collect_Ok s idx nodes :
  walkFrom s collect idx [] = Ok nodes →
  ∃ idxf mf m man cc ns,
    open s idx.1.1 = Ok idxf ∧ step idxf = Ok man
    ∧ open s man.1.1 = Ok mf ∧ json_Decode dec_Manifest mf = Ok m
    ∧ resolveCids (Descriptor.URLs (Manifest.Config m)) = Ok cc
    ∧ layerNodes (Manifest.Layers m) = Ok ns
    ∧ nodes = idx :: man :: descriptorNode cc (Manifest.Config m) :: ns.
Proof.
  destruct idx as [[idxc idxd] idxmt]. unfold walkFrom. simpl.
  destruct (open s idxc) as [idxf|e|] eqn:Hidx; simpl; [|done..].
  destruct (step idxf) as [[[mc md] mmt]|e|] eqn:Hman; simpl; [|done..].
  destruct (open s mc) as [mf|e|] eqn:Hmf; simpl; [|done..].
  destruct (json_Decode dec_Manifest mf) as [m|e|] eqn:Hm; simpl; [|done..].
  destruct (resolveCids _) as [cc|e|] eqn:Hcc; simpl; [|done..].
  rewrite (walkLayers_pure collect _ _ _ collect_pure).
  destruct (layerNodes (Manifest.Layers m)) as [ns|e|] eqn:Hns; simpl; [|done..].
  rewrite fold_left_snoc. intros [= <-].
  exists idxf, mf, m, (mc, md, mmt), cc, ns. done.
Qed.

(** The nodes of a walk that reached its end, in the order of emission. *)
Lemma walkNodes_Ok s rootc nodes :
  walkNodes s rootc = Ok nodes →
  ∃ rootf idxf mf m idx man cc ns,
    open s rootc = Ok rootf ∧ step rootf = Ok idx
    ∧ open s idx.1.1 = Ok idxf ∧ step idxf = Ok man
    ∧ open s man.1.1 = Ok mf ∧ json_Decode dec_Manifest mf = Ok m
    ∧ resolveCids (Descriptor.URLs (Manifest.Config m)) = Ok cc
    ∧ layerNodes (Manifest.Layers m) = Ok ns
    ∧ nodes = idx :: man :: descriptorNode cc (Manifest.Config m) :: ns.
Proof.
  unfold walkNodes. rewrite walk_walkFrom.
  destruct (open s rootc) as [rootf|e|] eqn:Hroot; cbn [mbind outcome_bind]; [|done..].
  destruct (step rootf) as [idx|e|] eqn:Hstep; [| |done]; intros Hw;
    apply walkFrom_collect_Ok in Hw
      as (idxf & mf & m & man & cc & ns & Hidx & Hman & Hmf & Hm & Hcc & Hns & ->).
  - exists rootf, idxf, mf, m, idx, man, cc, ns. done.
  - simpl in Hidx. unfold open, Unixfs_Get in Hidx.
    by rewrite decide_True in Hidx.
Qed.

Lemma layerNodes_Forall2 layers ns :
  layerNodes layers = Ok ns →
  Forall2 (λ layer n, ∃ lc, resolveCids (Descriptor.URLs layer) = Ok lc
                            ∧ n = descriptorNode lc layer) layers ns.
Proof.
  intros Hns. apply mapM_outcome_Forall2 in Hns.
  eapply Forall2_impl; [done|]. simpl. intros layer n Hn.
  apply bind_Ok in Hn as (lc & Hlc & [= <-]). eauto.
Qed.
End walk.

(** ** The graph of an ingestion *)

Section ingestion.
Context {Lb : Lib} {Lw : LibLaws}.

Lemma json_Decode_print {A} (dec : list (string * JSON) → outcome A) j :
  json_Decode dec (json_print j) = dec_struct dec j.
Proof. unfold json_Decode. by rewrite json_parse_print. Qed.

Lemma resolveCids_locator b :
  resolveCids [IPFSSchema ++ cid_String (cidOf b)] = Ok (cidOf b).
Proof.
  unfold resolveCids. cbn [length Nat.ltb Nat.leb].
  rewrite url_Parse_ipfs. cbn [mbind outcome_bind Scheme Hostname].
  rewrite decide_True by done. apply cid_Decode_String.
Qed.

Lemma digest_Parse_SHA256 b : digest_Parse (SHA256 b) = Ok (SHA256 b).
Proof. unfold digest_Parse. by rewrite SHA256_valid. Qed.

Lemma step_wrapper n :
  step (wrapperBytes n) = Ok (cidOf (indexBytes n), SHA256 (indexBytes n), OCIImageIndex).
Proof.
  unfold step, wrapperBytes, outerWrapper.
  rewrite json_Decode_print, dec_catch_IpfsManifest. simpl.
  rewrite resolveCids_locator. simpl. by rewrite digest_Parse_SHA256.
Qed.

Lemma step_index n :
  step (indexBytes n)
  = Ok (cidOf (manifestBytes n), SHA256 (manifestBytes n), OCIImageIndex).
Proof.
  unfold step, indexBytes, wrappingIndex.
  rewrite json_Decode_print, dec_catch_IndexManifest by done. simpl.
  rewrite resolveCids_locator. simpl. by rewrite digest_Parse_SHA256.
Qed.

Lemma convertIpfs_Ok m cm n :
  convertIpfs m cm = Ok n →
  ∃ c0, cm !! Descriptor.Digest (Manifest.Config m) = Some c0
    ∧ Manifest.Config n
      = Descriptor.mk (Descriptor.MediaType (Manifest.Config m))
          (Descriptor.Size (Manifest.Config m))
          (Descriptor.Digest (Manifest.Config m)) [IPFSSchema ++ cid_String c0]
    ∧ Forall2 (λ desc desc', convertLayer cm desc = Ok desc')
        (Manifest.Layers m) (Manifest.Layers n).
Proof.
  unfold convertIpfs.
  destruct (cm !! Descriptor.Digest (Manifest.Config m)) as [c0|]; [|done].
  intros Hn. apply bind_Ok in Hn as (layers & Hl & [= <-]).
  exists c0. repeat split; try done. simpl. by apply mapM_outcome_Forall2.
Qed.

(** What an ingestion that succeeded has written. *)
Lemma AddImage_Ok img s root s' :
  AddImage img s = (Ok root, s') →
  ∃ layers cfg m entries n,
    Image.Layers img = Ok layers ∧ Image.RawConfigFile img = Ok cfg
    ∧ Image.Manifest img = Ok m
    ∧ Forall2 (λ l e, Layer.Digest l = Ok e.1 ∧ Layer.Compressed l = Ok e.2)
        layers entries
    ∧ convertIpfs m (<[Descriptor.Digest (Manifest.Config m) := cidOf cfg]>
                       (cidMapOf entries ∅)) = Ok n
    ∧ root = cidOf (wrapperBytes n)
    ∧ stored s' (wrapperBytes n) ∧ stored s' (indexBytes n)
    ∧ stored s' (manifestBytes n) ∧ stored s' cfg
    ∧ Forall (λ e, stored s' e.2) entries.
Proof.
  unfold AddImage. intros Ha.
  apply M_bind_Ok in Ha as (cm & s1 & Hw & Ha).
  unfold writeLayers in Hw. apply M_bind_Ok in Hw as (layers & s0 & Hl & Hw).
  injection Hl as Hl <-.
  apply errgroup_Ok in Hw as (entries & HF & -> & Hmono & Hst).
  apply M_bind_Ok in Ha as (cfg & s2 & Hcfg & Ha). injection Hcfg as Hcfg <-.
  apply M_bind_Ok in Ha as (cfgPath & s3 & Hadd & Ha).
  unfold Unixfs_Add in Hadd. simpl in Hadd. injection Hadd as <- <-.
  apply M_bind_Ok in Ha as (m & s4 & Hm & Ha). injection Hm as Hm <-.
  apply M_bind_Ok in Ha as (n & s5 & Hn & Ha). injection Hn as Hn <-.
  apply M_bind_Ok in Ha as ([[mp mh] msz] & s6 & Hwm & Ha).
  rewrite writeObj_spec in Hwm. injection Hwm as <- <- <- <-.
  apply M_bind_Ok in Ha as ([[ip ih] isz] & s7 & Hwi & Ha).
  rewrite writeObj_spec in Hwi. injection Hwi as <- <- <- <-.
  apply M_bind_Ok in Ha as ([[wp wh] wsz] & s8 & Hww & Ha).
  rewrite writeObj_spec in Hww. injection Hww as <- <- <- <-.
  injection Ha as <- <-.
  exists layers, cfg, m, entries, n. repeat split; try done.
  - apply stored_Add.
  - apply stored_Add_mono, stored_Add.
  - do 2 apply stored_Add_mono. apply stored_Add.
  - do 3 apply stored_Add_mono. apply stored_Add.
  - eapply Forall_impl; [done|]. intros e He. simpl. by do 4 apply stored_Add_mono.
Qed.
End ingestion.

Section resolution.
Context {Lb : Lib} {Lw : LibLaws}.

Lemma lastMatch_Some d nodes n :
  lastMatch d nodes = Some n → n ∈ nodes ∧ n.1.2 = d.
Proof.
  induction nodes as [|n' nodes IH]; [done|]. simpl.
  destruct (lastMatch d nodes) as [n''|].
  - intros [= ->]. destruct IH as [Hin Hd]; [done|]. split; [by right|done].
  - destruct (decide (d = n'.1.2)) as [->|]; [|done].
    intros [= ->]. split; [left|done].
Qed.

Lemma lastMatch_is_Some d nodes n :
  n ∈ nodes → n.1.2 = d → is_Some (lastMatch d nodes).
Proof.
  intros Hin Hd. induction nodes as [|n' nodes IH]; [by apply elem_of_nil in Hin|].
  simpl. apply elem_of_cons in Hin as [->|Hin].
  - destruct (lastMatch d nodes); [eauto|]. rewrite decide_True by done. eauto.
  - destruct (IH Hin) as [n'' ->]. eauto.
Qed.

Lemma lastMatch_cons d x rest n :
  lastMatch d rest = Some n → lastMatch d (x :: rest) = Some n.
Proof. intros Hs. simpl. by rewrite Hs. Qed.

Lemma layerNodes_converted cm L L' :
  Forall2 (λ desc desc', convertLayer cm desc = Ok desc') L L' →
  (∀ d c, cm !! d = Some c → ∃ b, c = cidOf b) →
  ∃ ns, layerNodes L' = Ok ns
    ∧ Forall2 (λ desc nd, ∃ c, cm !! Descriptor.Digest desc = Some c
                 ∧ nd = (c, Descriptor.Digest desc, Descriptor.MediaType desc)) L ns.
Proof.
  intros HF Hcm. induction HF as [|desc desc' L L' Hc HF IH].
  - exists []. split; [done|constructor].
  - destruct IH as (ns & Hns & HF2). unfold convertLayer in Hc.
    destruct (cm !! Descriptor.Digest desc) as [c|] eqn:Hl; [|done].
    injection Hc as <-. destruct (Hcm _ _ Hl) as [b ->].
    exists ((cidOf b, Descriptor.Digest desc, Descriptor.MediaType desc) :: ns).
    split.
    + unfold layerNodes in *. simpl. rewrite resolveCids_locator. simpl.
      by rewrite Hns.
    + constructor; eauto.
Qed.

(** The walk over the graph of an ingestion. *)
Lemma walkNodes_ingested s' cfg m entries n :
  let cm := <[Descriptor.Digest (Manifest.Config m) := cidOf cfg]> (cidMapOf entries ∅) in
  convertIpfs m cm = Ok n →
  stored s' (wrapperBytes n) → stored s' (indexBytes n) → stored s' (manifestBytes n) →
  ∃ ns,
    walkNodes s' (cidOf (wrapperBytes n))
    = Ok ((cidOf (indexBytes n), SHA256 (indexBytes n), OCIImageIndex)
          :: (cidOf (manifestBytes n), SHA256 (manifestBytes n), OCIImageIndex)
          :: (cidOf cfg, Descriptor.Digest (Manifest.Config m),
              Descriptor.MediaType (Manifest.Config m)) :: ns)
    ∧ Forall2 (λ desc nd, ∃ c, cm !! Descriptor.Digest desc = Some c
                 ∧ nd = (c, Descriptor.Digest desc, Descriptor.MediaType desc))
        (Manifest.Layers m) ns.
Proof.
  intros cm Hn Hw Hi Hm.
  apply convertIpfs_Ok in Hn as (c0 & Hc0 & Hcfg & HL).
  unfold cm in Hc0. rewrite lookup_insert_eq in Hc0. injection Hc0 as <-.
  destruct (layerNodes_converted cm _ _ HL) as (ns & Hns & HF).
  { intros d c Hd. unfold cm in Hd.
    destruct (decide (Descriptor.Digest (Manifest.Config m) = d)) as [Heq|Hne].
    - rewrite <- Heq, lookup_insert_eq in Hd. injection Hd as <-. eauto.
    - rewrite lookup_insert_ne in Hd by done.
      apply cidMapOf_lookup in Hd as [Hd|(b & _ & ->)]; [done|eauto]. }
  exists ns. split; [|done].
  unfold walkNodes. rewrite walk_walkFrom, (open_stored _ _ Hw).
  cbn [mbind outcome_bind]. rewrite step_wrapper.
  unfold walkFrom. simpl. rewrite (open_stored _ _ Hi). simpl.
  rewrite step_index. simpl. rewrite (open_stored _ _ Hm). simpl.
  unfold manifestBytes. rewrite json_Decode_print, dec_Manifest_json. simpl.
  rewrite Hcfg. simpl. rewrite resolveCids_locator. simpl.
  rewrite (walkLayers_pure collect _ _ _ collect_pure), Hns. simpl.
  by rewrite fold_left_snoc.
Qed.
End resolution.

Section blobs.
Context {Lb : Lib} {Lw : LibLaws}.

(** Resolving the digest of a blob of the image: the blob comes back,
    with the media type of its descriptor. *)
Lemma ReadBlob_ingested img s root s' layers cfg m l desc b :
  AddImage img s = (Ok root, s') →
  Image.Layers img = Ok layers → Image.RawConfigFile img = Ok cfg →
  Image.Manifest img = Ok m →
  coherent layers cfg m →
  l ∈ Layer.mk (Ok cfg) (Ok (Descriptor.Digest (Manifest.Config m))) :: layers →
  desc ∈ Manifest.Config m :: Manifest.Layers m →
  Layer.Digest l = Ok (Descriptor.Digest desc) → Layer.Compressed l = Ok b →
  ReadBlob s' (cid_String root) (Descriptor.Digest desc)
  = Ok (b, Descriptor.MediaType desc).
Proof.
  intros Ha Hl Hc Hm [Hblob Hdesc] Hlin Hdin Hld Hlb.
  apply AddImage_Ok in Ha
    as (layers' & cfg' & m' & entries & n & Hl' & Hc' & Hm' & HF & Hn & ->
        & Hsw & Hsi & Hsm & Hsc & Hse).
  rewrite Hl in Hl'. injection Hl' as <-. rewrite Hc in Hc'. injection Hc' as <-.
  rewrite Hm in Hm'. injection Hm' as <-.
  set (Dc := Descriptor.Digest (Manifest.Config m)) in *.
  set (cm := <[Dc := cidOf cfg]> (cidMapOf entries ∅)) in *.
  destruct (walkNodes_ingested _ _ _ _ _ Hn Hsw Hsi Hsm) as (ns & Hw & Hns).
  fold Dc cm in Hw, Hns.
  rewrite ReadBlob_walkNodes, cid_Decode_String. cbn [mbind outcome_bind].
  rewrite Hw. cbn [mbind outcome_bind].
  set (d := Descriptor.Digest desc) in *.
  set (cfgn := (cidOf cfg, Dc, Descriptor.MediaType (Manifest.Config m)) : node).
  (* every node for [d] among the config and the layers carries the CID
     of the table and the media type of a descriptor with that digest *)
  assert (∀ nd, nd ∈ cfgn :: ns → nd.1.2 = d →
            cm !! d = Some nd.1.1
            ∧ ∃ desc', desc' ∈ Manifest.Config m :: Manifest.Layers m
                ∧ Descriptor.Digest desc' = d ∧ nd.2 = Descriptor.MediaType desc')
    as Hnodes.
  { intros nd Hin Hd. apply elem_of_cons in Hin as [->|Hin].
    - simpl in Hd. split.
      + rewrite <- Hd. unfold cm. by rewrite lookup_insert_eq.
      + exists (Manifest.Config m). split; [left|done].
    - apply list_elem_of_lookup in Hin as [j Hj].
      destruct (Forall2_lookup_r _ _ _ _ _ Hns Hj) as (desc' & Hj' & c & Hcm & ->).
      simpl in Hd. simpl. rewrite <- Hd. split; [done|].
      exists desc'. split; [|done]. right. by eapply list_elem_of_lookup_2. }
  (* a node for [d] exists *)
  assert (∃ nd, nd ∈ cfgn :: ns ∧ nd.1.2 = d) as (nd0 & Hnd0 & Hd0).
  { apply elem_of_cons in Hdin as [->|Hdin].
    - exists cfgn. split; [left|done].
    - apply list_elem_of_lookup in Hdin as [j Hj].
      destruct (Forall2_lookup_l _ _ _ _ _ Hns Hj) as (nd & Hj' & c & Hcm & ->).
      eexists. split; [right; by eapply list_elem_of_lookup_2|done]. }
  destruct (lastMatch_is_Some d _ _ Hnd0 Hd0) as [nd Hlast].
  rewrite (lastMatch_cons d _ _ _ (lastMatch_cons d _ _ _ Hlast)).
  apply lastMatch_Some in Hlast as [Hin Hd].
  destruct (Hnodes nd Hin Hd) as (Hcm & desc' & Hdin' & Hdd & Hmt).
  destruct nd as [[c d'] mt]. simpl in *. subst d' mt.
  rewrite (Hdesc desc' desc Hdin' Hdin Hdd).
  (* the CID of the table names the bytes of the blob *)
  assert (∃ l', l' ∈ Layer.mk (Ok cfg) (Ok Dc) :: layers
                ∧ Layer.Digest l' = Ok d
                ∧ ∃ b', Layer.Compressed l' = Ok b' ∧ c = cidOf b' ∧ stored s' b')
    as (l' & Hl'in & Hl'd & b' & Hl'b & -> & Hst).
  { unfold cm in Hcm. destruct (decide (Dc = d)) as [Heq|Hne].
    - rewrite <- Heq, lookup_insert_eq in Hcm. injection Hcm as <-.
      exists (Layer.mk (Ok cfg) (Ok Dc)). split; [left|]. rewrite Heq. eauto.
    - rewrite lookup_insert_ne in Hcm by done.
      apply cidMapOf_lookup in Hcm as [Hcm|(b' & Hbin & ->)]; [done|].
      apply list_elem_of_lookup in Hbin as [j Hj].
      destruct (Forall2_lookup_r _ _ _ _ _ HF Hj) as (l' & Hj' & Hl'd & Hl'b).
      exists l'. split; [right; by eapply list_elem_of_lookup_2|].
      split; [done|]. exists b'. split; [done|]. split; [done|].
      by apply (proj1 (Forall_lookup _ _) Hse j (d, b')). }
  assert (b' = b) as ->.
  { assert (Layer.Compressed l' = Layer.Compressed l) as Heq
      by (apply Hblob; [done..|by rewrite Hl'd, Hld]).
    rewrite Hl'b, Hlb in Heq. by injection Heq. }
  unfold openNode. by rewrite (open_stored _ _ Hst).
Qed.
End blobs.

Section claims.
Context {Lb : Lib} {Lw : LibLaws}.

Lemma json_print_inj j1 j2 : json_print j1 = json_print j2 → j1 = j2.
Proof.
  intros Heq. apply (f_equal json_parse) in Heq.
  rewrite !json_parse_print in Heq. by injection Heq.
Qed.

Lemma indexBytes_ne_manifestBytes n : indexBytes n ≠ manifestBytes n.
Proof.
  unfold indexBytes, manifestBytes. intros Heq%json_print_inj.
  unfold IndexManifest_json, Manifest_json, wrappingIndex, enc_mediaType_omitempty in Heq.
  simpl in Heq. destruct (decide (Manifest.MediaType n = "")); discriminate.
Qed.

Lemma convertIpfs_digests m cm n :
  convertIpfs m cm = Ok n →
  Descriptor.Digest <$> (Manifest.Config n :: Manifest.Layers n)
  = Descriptor.Digest <$> (Manifest.Config m :: Manifest.Layers m).
Proof.
  intros (c0 & _ & Hcfg & HL)%convertIpfs_Ok. csimpl. rewrite Hcfg. simpl. f_equal.
  induction HL as [|desc desc' L L' Hc HL IH]; [done|]. csimpl. rewrite IH. f_equal.
  unfold convertLayer in Hc. destruct (cm !! _); [|done]. by injection Hc as <-.
Qed.

(** C1, as the code has it.  After [AddImage] has ingested an OCI image
    in which a digest names one blob and one media type (and whose config
    descriptor declares the OCI config media type), resolving the config
    digest against the returned root handle returns the raw config blob,
    byte for byte, with the OCI config media type, and resolving the
    digest of a layer returns the compressed bytes of that layer with
    the media type of its descriptor. *)
Theorem AddImage_then_ReadBlob img s root s' layers cfg m :
  AddImage img s = (Ok root, s') →
  Image.Layers img = Ok layers →
  Image.RawConfigFile img = Ok cfg →
  Image.Manifest img = Ok m →
  coherent layers cfg m →
  Descriptor.MediaType (Manifest.Config m) = OCIConfigJSON →
  ReadBlob s' (cid_String root) (Descriptor.Digest (Manifest.Config m))
  = Ok (cfg, OCIConfigJSON)
  ∧ ∀ i l desc b,
      layers !! i = Some l → Manifest.Layers m !! i = Some desc →
      Layer.Digest l = Ok (Descriptor.Digest desc) →
      Layer.Compressed l = Ok b →
      ReadBlob s' (cid_String root) (Descriptor.Digest desc)
      = Ok (b, Descriptor.MediaType desc).
Proof.
  intros Ha Hl Hc Hm Hcoh Hmt. split.
  - rewrite <- Hmt.
    eapply (ReadBlob_ingested img s root s' layers cfg m
              (Layer.mk (Ok cfg) (Ok (Descriptor.Digest (Manifest.Config m)))));
      try done; left.
  - intros i l desc b Hi Hj Hd Hb.
    eapply (ReadBlob_ingested img s root s' layers cfg m l); try done.
    + right. by eapply list_elem_of_lookup_2.
    + right. by eapply list_elem_of_lookup_2.
Qed.

(** C2.  For an ingested image, ["latest"] resolves in one hop: the
    wrapper under the root handle is decoded, its single locator is
    followed, and the bytes found there, the serialized wrapping index,
    are returned with the media type the wrapper record declares; they
    are not the bytes of the manifest, which lies one hop further.  On
    any store, what a ["latest"] resolution returns is the content under
    the CID the root record points at, with the media type of that
    record. *)
Theorem ReadManifest_latest_is_index img s root s' :
  AddImage img s = (Ok root, s') →
  (∃ m n wrapper,
     Image.Manifest img = Ok m
     ∧ Descriptor.Digest <$> (Manifest.Config n :: Manifest.Layers n)
       = Descriptor.Digest <$> (Manifest.Config m :: Manifest.Layers m)
     ∧ open s' root = Ok (wrapperBytes n)
     ∧ json_Decode dec_catch (wrapperBytes n) = Ok wrapper
     ∧ catch.URLs wrapper = Some [IPFSSchema ++ cid_String (cidOf (indexBytes n))]
     ∧ open s' (cidOf (indexBytes n)) = Ok (indexBytes n)
     ∧ ReadManifest s' (cid_String root) "latest"
       = Ok (indexBytes n, catch.MediaType wrapper)
     ∧ open s' (cidOf (manifestBytes n)) = Ok (manifestBytes n)
     ∧ indexBytes n ≠ manifestBytes n)
  ∧ (∀ s0 name content mt,
       ReadManifest s0 name "latest" = Ok (content, mt) →
       ∃ rootc rootf idxc idxd,
         cid_Decode name = Ok rootc ∧ open s0 rootc = Ok rootf
         ∧ step rootf = Ok (idxc, idxd, mt) ∧ open s0 idxc = Ok content).
Proof.
  intros Ha. split.
  - apply AddImage_Ok in Ha
      as (layers & cfg & m & entries & n & Hl & Hc & Hm & HF & Hn & ->
          & Hsw & Hsi & Hsm & Hsc & Hse).
    exists m, n, (catch.mk OCIImageIndex (SHA256 (indexBytes n))
                    (Some [IPFSSchema ++ cid_String (cidOf (indexBytes n))]) []).
    split; [done|]. split; [by eapply convertIpfs_digests|].
    split; [by apply open_stored|].
    split; [unfold wrapperBytes, outerWrapper;
            by rewrite json_Decode_print, dec_catch_IpfsManifest|].
    split; [done|]. split; [by apply open_stored|].
    split; [|split; [by apply open_stored|apply indexBytes_ne_manifestBytes]].
    unfold ReadManifest. rewrite cid_Decode_String. cbn [mbind outcome_bind].
    rewrite decide_True by done. rewrite (open_stored _ _ Hsw). cbn [mbind outcome_bind].
    rewrite step_wrapper. cbn [mbind outcome_bind].
    by rewrite (open_stored _ _ Hsi).
  - intros s0 name content mt. unfold ReadManifest.
    destruct (cid_Decode name) as [rootc|e|] eqn:Hname; simpl; [|done..].
    destruct (open s0 rootc) as [rootf|e|] eqn:Hroot; simpl; [|done..].
    destruct (step rootf) as [[[idxc idxd] idxmt]|e|] eqn:Hstep; simpl; [|done..].
    destruct (open s0 idxc) as [idxf|e|] eqn:Hidx; simpl; [|done..].
    intros [= <- <-]. by exists rootc, rootf, idxc, idxd.
Qed.

End claims.

(** C3, as the code has it.  The walk emits the index node, the manifest
    node, the config descriptor and the layer descriptors in manifest
    order, and always runs to its end: a walk that fails or panics fails
    the resolution, also after a node has matched.  When the walk reaches
    its end, the LAST emitted node whose digest equals the requested one
    is returned, with the content under its CID and its media type, and a
    walk without a match is the not-found error. *)
Theorem ReadBlob_walks_to_the_end {Lb : Lib} s name d rootc :
  cid_Decode name = Ok rootc →
  match walkNodes s rootc with
  | Ok nodes =>
      (∃ rootf idxf mf m idx man cc ns,
         open s rootc = Ok rootf ∧ step rootf = Ok idx
         ∧ open s idx.1.1 = Ok idxf ∧ step idxf = Ok man
         ∧ open s man.1.1 = Ok mf ∧ json_Decode dec_Manifest mf = Ok m
         ∧ resolveCids (Descriptor.URLs (Manifest.Config m)) = Ok cc
         ∧ Forall2 (λ layer n, ∃ lc, resolveCids (Descriptor.URLs layer) = Ok lc
                                ∧ n = descriptorNode lc layer) (Manifest.Layers m) ns
         ∧ nodes = idx :: man :: descriptorNode cc (Manifest.Config m) :: ns)
      ∧ ReadBlob s name d
        = match lastMatch d nodes with
          | Some (c, _, mt) => ff ← open s c; Ok (ff, mt)
          | None => Err (ErrDigestNotFound d)
          end
  | Err e => ReadBlob s name d = Err e
  | Panic => ReadBlob s name d = Panic
  end.
Proof.
  intros Hname. rewrite ReadBlob_walkNodes, Hname. cbn [mbind outcome_bind].
  destruct (walkNodes s rootc) as [nodes|e|] eqn:Hw; cbn [mbind outcome_bind]; [|done..].
  split; [|done].
  apply walkNodes_Ok in Hw
    as (rootf & idxf & mf & m & idx & man & cc & ns & ? & ? & ? & ? & ? & ? & ? & Hns & ->).
  exists rootf, idxf, mf, m, idx, man, cc, ns. repeat split; try done.
  by apply layerNodes_Forall2.
Qed.

(** ** The Name Map *)

Lemma fold_insert_lookup (l : list (string * string)) (acc : gmap string string) k :
  NoDup l.*1 →
  fold_left (λ (m : gmap string string) kv, <[kv.1 := kv.2]> m) l acc !! k
  = match (list_to_map l : gmap string string) !! k with
    | Some v => Some v
    | None => acc !! k
    end.
Proof.
  revert acc. induction l as [|[k0 v0] l IH]; intros acc Hnd; [done|].
  apply NoDup_cons in Hnd as [Hk0 Hnd]. simpl. rewrite IH by done.
  destruct (decide (k0 = k)) as [->|Hne].
  - rewrite (not_elem_of_list_to_map_1 _ _ Hk0), !lookup_insert_eq. done.
  - rewrite !lookup_insert_ne by done. done.
Qed.

Lemma dec_cidMap_json m : dec_struct dec_cidMap (cidMap_json m) = Ok m.
Proof.
  unfold cidMap_json, dec_struct, dec_cidMap.
  rewrite mapM_outcome_fmap.
  rewrite (mapM_outcome_ext _ Ok) by (by intros [k v]).
  rewrite mapM_outcome_Ok_id by done. simpl. f_equal.
  assert (merge_sort key_le (map_to_list m) ≡ₚ map_to_list m) as Hp
    by apply merge_sort_Permutation.
  assert (NoDup (merge_sort key_le (map_to_list m)).*1) as Hnd.
  { rewrite Hp. apply NoDup_fst_map_to_list. }
  apply map_eq. intros k. rewrite fold_insert_lookup by done.
  rewrite lookup_empty.
  rewrite (list_to_map_proper _ _ Hnd Hp), list_to_map_to_list.
  by destruct (m !! k).
Qed.

Section naming.
Context {Lb : Lib} {Lw : LibLaws}.

(** What [updateCidMap] does on a Name Map that exists. *)
Lemma updateCidMap_Ok k ref op s secret idxPath p f m :
  k !! secretKey = Some secret →
  secret !! consts.CidMapperSecretKey = Some idxPath →
  names s !! idxPath = Some p → p ≠ cid_Undef →
  blocks s !! p = Some (File f) →
  json_Decode dec_cidMap f = Ok m →
  let data := json_print (cidMap_json (<[ref := path_String op]> m)) in
  updateCidMap k ref op s
  = (Ok (cidOf data, mkIpnsEntry (self s) (cidOf data)),
     mkIpfs (<[cidOf data := File data]> (blocks s))
       (<[self s := cidOf data]> (names s)) (self s) (peers s)).
Proof.
  intros Hk Hs Hn Hp Hb Hm data. unfold updateCidMap, secretKey in *.
  unfold mbind, M_bind, lift. rewrite Hk, Hs. unfold Name_Resolve. rewrite Hn.
  unfold Unixfs_Get. rewrite decide_False by done. rewrite Hb, Hm.
  unfold Unixfs_Add, addBlock, Name_Publish. simpl. done.
Qed.

Lemma updateCidMap_inv k ref op s ap e s' :
  updateCidMap k ref op s = (Ok (ap, e), s') →
  ∃ secret idxPath p f m,
    k !! secretKey = Some secret
    ∧ secret !! consts.CidMapperSecretKey = Some idxPath
    ∧ names s !! idxPath = Some p ∧ p ≠ cid_Undef
    ∧ blocks s !! p = Some (File f)
    ∧ json_Decode dec_cidMap f = Ok m.
Proof.
  unfold updateCidMap, secretKey. intros Hu.
  apply M_bind_Ok in Hu as (secret & s1 & Hk & Hu). unfold lift in Hk.
  destruct (k !! _) as [secret'|] eqn:Hk'; [|done]. injection Hk as -> <-.
  apply M_bind_Ok in Hu as (idxPath & s2 & Hs & Hu). unfold lift in Hs.
  destruct (secret !! _) as [idxPath'|] eqn:Hs'; [|done]. injection Hs as -> <-.
  apply M_bind_Ok in Hu as (p & s3 & Hn & Hu). unfold Name_Resolve in Hn.
  destruct (names s !! idxPath) as [p'|] eqn:Hn'; [|done]. injection Hn as -> <-.
  apply M_bind_Ok in Hu as (nd & s4 & Hg & Hu). unfold Unixfs_Get in Hg.
  destruct (decide (p = cid_Undef)) as [|Hp]; [done|].
  destruct (blocks s !! p) as [nd'|] eqn:Hb; [|done]. injection Hg as -> <-.
  apply M_bind_Ok in Hu as (f & s5 & Hf & Hu). unfold lift in Hf.
  destruct nd as [f'|]; [|done]. injection Hf as -> <-.
  apply M_bind_Ok in Hu as (m & s6 & Hm & Hu). unfold lift in Hm.
  injection Hm as Hm <-.
  by exists secret, idxPath, p, f, m.
Qed.
End naming.

(** C5, as the code has it.  For a CANONICAL reference (one that
    [name.ParseReference] maps to itself) and a root handle, on a peered
    store whose bootstrap pointer is the key the store publishes under,
    [Update(ref, cid)] followed by [Resolve(ref)] returns the path string
    of the handle that was stored. *)
Theorem Update_then_Resolve {Lb : Lib} {Lw : LibLaws} k ref op s ap e s' :
  ParseReference ref = Ok ref →
  mapperFetcher k = Ok (self s) →
  peered s = true →
  updateCidMap k ref op s = (Ok (ap, e), s') →
  Resolve s' (mapperFetcher k) ref = Ok (path_String op).
Proof.
  intros Href Hfetch Hpeer Hu.
  destruct (updateCidMap_inv _ _ _ _ _ _ _ Hu)
    as (secret & idxPath & p & f & m & Hk & Hs & Hn & Hp & Hb & Hm).
  rewrite (updateCidMap_Ok _ ref op _ _ _ _ _ _ Hk Hs Hn Hp Hb Hm) in Hu.
  injection Hu as <- <- <-.
  unfold Resolve, fetch. rewrite Hfetch.
  unfold peered, Swarm_Peers in *. simpl. rewrite Hpeer. simpl.
  unfold Name_Resolve. simpl. rewrite lookup_insert_eq. simpl.
  unfold Unixfs_Get. simpl. rewrite decide_False by apply cidOf_defined.
  rewrite lookup_insert_eq. cbn [mbind outcome_bind].
  rewrite json_Decode_print, dec_cidMap_json.
  rewrite Href. simpl. by rewrite lookup_insert_eq.
Qed.

(** C6, as the code has it.  [updateCidMap] needs a Name Map that exists:
    without the secret, the key in it, the published name or the blob it
    returns the error of the step that failed and leaves the store as it
    is.  On a map that exists, the empty one of the bootstrap included, it
    succeeds: the entry is inserted, the map is serialized and written,
    and the new blob is published under the key of the store with offline
    publication allowed, so also without a peer, where a publication that
    does not allow it fails. *)
Theorem updateCidMap_needs_the_map {Lb : Lib} {Lw : LibLaws} k ref op s :
  (k !! secretKey = None →
     updateCidMap k ref op s = (Err (ErrExt "Secrets.Get"), s))
  ∧ (∀ secret,
       k !! secretKey = Some secret → secret !! consts.CidMapperSecretKey = None →
       updateCidMap k ref op s
       = (Err (ErrNoIpnsKeyInSecret consts.CidMapperSecretName), s))
  ∧ (∀ secret idxPath,
       k !! secretKey = Some secret →
       secret !! consts.CidMapperSecretKey = Some idxPath →
       names s !! idxPath = None →
       updateCidMap k ref op s = (Err (ErrExt "Name.Resolve"), s))
  ∧ (∀ secret idxPath p,
       k !! secretKey = Some secret →
       secret !! consts.CidMapperSecretKey = Some idxPath →
       names s !! idxPath = Some p → blocks s !! p = None →
       updateCidMap k ref op s = (Err (ErrExt "Unixfs.Get"), s))
  ∧ (∀ secret idxPath p f m,
       k !! secretKey = Some secret →
       secret !! consts.CidMapperSecretKey = Some idxPath →
       names s !! idxPath = Some p → p ≠ cid_Undef →
       blocks s !! p = Some (File f) →
       json_Decode dec_cidMap f = Ok m →
       let data := json_print (cidMap_json (<[ref := path_String op]> m)) in
       updateCidMap k ref op s
       = (Ok (cidOf data, mkIpnsEntry (self s) (cidOf data)),
          mkIpfs (<[cidOf data := File data]> (blocks s))
            (<[self s := cidOf data]> (names s)) (self s) (peers s))
       ∧ json_Decode dec_cidMap data = Ok (<[ref := path_String op]> m)
       ∧ (peers s = 0%nat →
          (Name_Publish (cidOf data) false (addBlock data s)).1
          = Err (ErrExt "Name.Publish"))).
Proof.
  repeat split.
  - intros Hk. unfold updateCidMap, mbind, M_bind, lift. by rewrite Hk.
  - intros secret Hk Hs. unfold updateCidMap, mbind, M_bind, lift. by rewrite Hk, Hs.
  - intros secret idxPath Hk Hs Hn.
    unfold updateCidMap, mbind, M_bind, lift, Name_Resolve. by rewrite Hk, Hs, Hn.
  - intros secret idxPath p Hk Hs Hn Hb.
    unfold updateCidMap, mbind, M_bind, lift, Name_Resolve, Unixfs_Get.
    rewrite Hk, Hs, Hn. destruct (decide (p = cid_Undef)); [done|]. by rewrite Hb.
  - by eapply updateCidMap_Ok.
  - by rewrite json_Decode_print, dec_cidMap_json.
  - intros Hp. unfold Name_Publish. simpl. by rewrite Hp.
Qed.

(** ** Re-ingestion *)

Section writes.
Context {Lb : Lib}.

Lemma addBlocks_app W1 W2 s : addBlocks (W1 ++ W2) s = addBlocks W2 (addBlocks W1 s).
Proof. apply fold_left_app. Qed.

Lemma writes_ret {A} (a : A) : writes (mret a) (Ok a) [].
Proof. by intros s. Qed.

Lemma writes_lift {A} (m : outcome A) : writes (lift m) m [].
Proof. by intros s. Qed.

Lemma writes_Add b : writes (Unixfs_Add b) (Ok (cidOf b)) [b].
Proof. by intros s. Qed.

Lemma writes_bind {A B} (m : M A) (f : A → M B) :
  (∃ r W, writes m r W) → (∀ a, ∃ r W, writes (f a) r W) →
  ∃ r W, writes (m ≫= f) r W.
Proof.
  intros (r & W & Hm) Hf. destruct r as [a|e|].
  - destruct (Hf a) as (r' & W' & Hfa). exists r', (W ++ W')%list. intros s.
    unfold mbind, M_bind. by rewrite Hm, Hfa, addBlocks_app.
  - exists (Err e), W. intros s. unfold mbind, M_bind. by rewrite Hm.
  - exists Panic, W. intros s. unfold mbind, M_bind. by rewrite Hm.
Qed.

Lemma writes_writeLayer l : ∃ r W, writes (writeLayer l) r W.
Proof.
  unfold writeLayer. apply writes_bind; [eauto using writes_lift|]. intros rc.
  apply writes_bind; [eauto using writes_lift|]. intros d.
  apply writes_bind; [eauto using writes_Add|]. intros p. eauto using writes_ret.
Qed.

Lemma writes_errgroup layers acc : ∃ r W, writes (errgroup layers acc) r W.
Proof.
  revert acc. induction layers as [|l layers IH]; intros acc.
  - exists acc, []. by intros s.
  - destruct (writes_writeLayer l) as (r & W & Hl).
    destruct (IH (match acc, r with
                  | Ok cidMap, Ok (d, p) => Ok (<[d := p]> cidMap)
                  | Ok _, Err e => Err e
                  | Ok _, Panic => Panic
                  | _, _ => acc
                  end)) as (r' & W' & Hg).
    exists r', (W ++ W')%list. intros s. simpl. by rewrite Hl, Hg, addBlocks_app.
Qed.

Lemma writes_writeObj obj : ∃ r W, writes (writeObj obj) r W.
Proof.
  unfold writeObj. apply writes_bind; [eauto using writes_Add|].
  intros p. eauto using writes_ret.
Qed.

Lemma writes_AddImage img : ∃ r W, writes (AddImage img) r W.
Proof.
  unfold AddImage.
  apply writes_bind.
  { unfold writeLayers. apply writes_bind; [eauto using writes_lift|].
    intros layers. apply writes_errgroup. }
  intros cidMap. apply writes_bind; [eauto using writes_lift|]. intros cfgData.
  apply writes_bind. { exists (Ok (cidOf cfgData)), [cfgData]. by intros s. }
  intros cfgPath. apply writes_bind; [eauto using writes_lift|]. intros manifest.
  apply writes_bind; [eauto using writes_lift|]. intros ipfsManifest.
  apply writes_bind; [apply writes_writeObj|]. intros [[mp mh] msz].
  apply writes_bind; [apply writes_writeObj|]. intros [[ip ih] isz].
  apply writes_bind; [apply writes_writeObj|]. intros [[wp wh] wsz].
  eauto using writes_ret.
Qed.

Lemma addBlocks_fields W s :
  names (addBlocks W s) = names s ∧ self (addBlocks W s) = self s
  ∧ peers (addBlocks W s) = peers s.
Proof. revert s. induction W as [|b W IH]; intros s; [done|]. apply (IH (addBlock b s)). Qed.

Lemma addBlocks_lookup W s c :
  blocks (addBlocks W s) !! c
  = match lastBlob c W with
    | Some b => Some (File b)
    | None => blocks s !! c
    end.
Proof.
  revert s. induction W as [|b W IH]; intros s; [done|].
  unfold addBlocks in *. simpl. rewrite IH. destruct (lastBlob c W); [done|].
  unfold addBlock. simpl. destruct (decide (cidOf b = c)) as [<-|Hne].
  - by rewrite lookup_insert_eq.
  - by rewrite lookup_insert_ne.
Qed.

Lemma addBlocks_idem W s : addBlocks W (addBlocks W s) = addBlocks W s.
Proof.
  destruct (addBlocks_fields W (addBlocks W s)) as (Hn & Hs & Hp).
  assert (blocks (addBlocks W (addBlocks W s)) = blocks (addBlocks W s)) as Hb.
  { apply map_eq. intros c. rewrite (addBlocks_lookup W (addBlocks W s)).
    rewrite !addBlocks_lookup. by destruct (lastBlob c W). }
  destruct (addBlocks W (addBlocks W s)), (addBlocks W s). simpl in *. congruence.
Qed.
End writes.

(** C7, as the code has it.  The root handle is a function of the image
    alone: ingesting the same image again, on any store, returns the SAME
    root handle, and a second ingestion leaves the store as the first one
    left it, so every CID recorded in the decorated manifest, the layer
    CIDs included, is the same in both. *)
Theorem AddImage_again_same_handle {Lb : Lib} img s s0 :
  (AddImage img s0).1 = (AddImage img s).1
  ∧ AddImage img (AddImage img s).2 = AddImage img s.
Proof.
  destruct (writes_AddImage img) as (r & W & Hw). rewrite !Hw. simpl.
  split; [done|]. by rewrite addBlocks_idem.
Qed.

(** C4.  The locator count in [resolveCids]: more than one locator is the
    error "expected a single cid", one locator is accepted and parsed,
    and NO locator panics on [urls[0]]; a pointer record with an empty
    [urls] list makes [step] panic. *)
Theorem resolveCids_without_locator_panics {Lb : Lib} :
  resolveCids [] = Panic
  ∧ (∀ f robj, json_Decode dec_catch f = Ok robj → catch.URLs robj = Some [] →
       step f = Panic)
  ∧ (∀ u1 u2 rest,
       resolveCids (u1 :: u2 :: rest) = Err (ErrExpectedSingleCid (S (S (length rest)))))
  ∧ (∀ u, resolveCids [u]
          = p ← url_Parse u;
            if decide (Scheme p = ipfsSchemePrefix) then cid_Decode (Hostname p)
            else Err (ErrExpectedIpfsScheme (Scheme p))).
Proof.
  repeat split.
  - intros f robj Hf Hu. unfold step. rewrite Hf. simpl. by rewrite Hu.
Qed.

(** C10.  When the read behind a manifests or blobs request fails (the
    reference does not parse, the walk or a read fails, the digest is not
    in the graph), the handler returns without writing: the response
    writer is as it was, and the client receives status 200 with no header
    set and an empty body, the response of a handler that did nothing. *)
Theorem failed_read_answers_empty_200 {Lb : Lib} {Ht : HttpLib} s r w :
  (∀ e, ReadManifest s (http.cid r) (http.reference r) = Err e →
        buildGetManifestHandler s w r = Ok w
        ∧ ServeHTTP s Manifests r = Some (http.mkResponse 200 ∅ []))
  ∧ (∀ e, digest_Parse (http.reference r) = Err e →
          buildGetBlobsHandler s w r = Ok w
          ∧ ServeHTTP s Blobs r = Some (http.mkResponse 200 ∅ []))
  ∧ (∀ d e, digest_Parse (http.reference r) = Ok d →
            ReadBlob s (http.cid r) d = Err e →
            buildGetBlobsHandler s w r = Ok w
            ∧ ServeHTTP s Blobs r = Some (http.mkResponse 200 ∅ []))
  ∧ http.finish (Ok http.fresh) = Some (http.mkResponse 200 ∅ []).
Proof.
  split; [|split; [|split; [|done]]].
  - intros e He. unfold ServeHTTP, buildGetManifestHandler. by rewrite He.
  - intros e He. unfold ServeHTTP, buildGetBlobsHandler. by rewrite He.
  - intros d e Hd He. unfold ServeHTTP, buildGetBlobsHandler. by rewrite Hd, He.
Qed.

Section admission_proofs.
Local Open Scope list_scope.

(** ** The admission handler *)

Section admission.
Context {Lb : Lib} {Ad : AdmissionLib}.
Variable cidMapper : CidMapper.
Variable registry : string.
Hypothesis no_panic : ∀ r, cidMapper r ≠ Panic.

Lemma relocate_spec cs changed :
∃ changed',
  relocate cidMapper registry cs changed
  = Ok (relocated cidMapper registry <$> cs, changed')
  ∧ Nat.ltb 0 (size changed')
    = Nat.ltb 0 (size changed) || existsb (resolves cidMapper) cs.
Proof.
revert changed. induction cs as [|c cs IH]; intros changed.
- exists changed. split; [done|]. simpl. by rewrite orb_false_r.
- simpl. unfold relocated at 1, resolves at 1.
  destruct (cidMapper (Container.Image c)) as [cid|e|] eqn:Hc.
  + destruct (IH (<[Container.Image c := prefixIpfsRegistry registry cid]> changed))
      as (changed' & -> & Hsz).
    exists changed'. split; [done|]. rewrite Hsz. simpl.
    assert (Nat.ltb 0 (size (<[Container.Image c
              := prefixIpfsRegistry registry cid]> changed)) = true) as ->.
    { apply Nat.ltb_lt.
      pose proof (proj2 (map_size_non_empty_iff _)
                    (insert_non_empty changed (Container.Image c)
                       (prefixIpfsRegistry registry cid))). lia. }
    by rewrite orb_true_r.
  + destruct (IH changed) as (changed' & -> & Hsz). exists changed'. done.
  + by destruct (no_panic (Container.Image c)).
Qed.

Lemma relocatePod_spec pod :
∃ changed,
  relocatePod cidMapper registry pod = Ok (relocatedPod cidMapper registry pod, changed)
  ∧ Nat.ltb 0 (size changed)
    = existsb (resolves cidMapper) (Pod.InitContainers pod ++ Pod.Containers pod).
Proof.
unfold relocatePod.
destruct (relocate_spec (Pod.InitContainers pod) ∅) as (ch1 & -> & H1).
cbn [mbind outcome_bind].
destruct (relocate_spec (Pod.Containers pod) ch1) as (ch2 & -> & H2).
exists ch2. split; [done|]. rewrite H2, H1, existsb_app. done.
Qed.

(** The response of [Handle] to a request that decodes. *)
Lemma Handle_spec raw pod :
Decode raw = Ok pod →
Handle cidMapper registry raw
= match Marshal (relocatedPod cidMapper registry pod) with
  | Ok marshaledPod =>
      Ok (if existsb (resolves cidMapper)
               (Pod.InitContainers pod ++ Pod.Containers pod)
          then admission.PatchResponseFromRaw raw marshaledPod
          else admission.Allowed "no image resolutions found")
  | Err err => Ok (admission.Errored 500 err)
  | Panic => Panic
  end.
Proof.
intros Hd. unfold Handle. rewrite Hd.
destruct (relocatePod_spec pod) as (changed & -> & Hc). cbn [mbind outcome_bind].
destruct (Marshal _); [|done..]. rewrite Hc. by destruct (existsb _ _).
Qed.

Lemma relocated_miss c : resolves cidMapper c = false → relocated cidMapper registry c = c.
Proof. unfold resolves, relocated. by destruct (cidMapper _). Qed.

Lemma relocated_misses cs :
Forall (λ c, resolves cidMapper c = false) cs →
relocated cidMapper registry <$> cs = cs.
Proof.
induction 1 as [|c cs Hc _ IH]; [done|]. csimpl. by rewrite relocated_miss, IH.
Qed.

Lemma existsb_misses cs :
Forall (λ c, resolves cidMapper c = false) cs → existsb (resolves cidMapper) cs = false.
Proof. induction 1 as [|c cs Hc _ IH]; [done|]. simpl. by rewrite Hc, IH. Qed.
End admission.

Lemma containers_patch_same kind i cs : containers_patch kind i cs cs = [].
Proof.
revert i. induction cs as [|c cs IH]; intros i; [done|].
simpl. unfold imagePatch. rewrite !decide_True by done. apply IH.
Qed.

Lemma containers_patch_one kind i pre c image post :
containers_patch kind i (pre ++ c :: post)
  (pre ++ Container.mk (Container.Name c) image :: post)
= imagePatch kind (i + length pre) (Container.Image c) image.
Proof.
revert i. induction pre as [|c0 pre IH]; intros i.
- simpl. rewrite decide_True by done. rewrite containers_patch_same, Nat.add_0_r.
  by rewrite app_nil_r.
- simpl. unfold imagePatch at 1. rewrite !decide_True by done. simpl. rewrite IH.
  f_equal. lia.
Qed.

Lemma relocatedPod_imagesReplaced {Lb : Lib} cidMapper registry pod :
imagesReplaced pod (relocatedPod cidMapper registry pod).
Proof.
assert (∀ cs : list Container.t,
          Container.Name <$> (relocated cidMapper registry <$> cs)
          = Container.Name <$> cs) as Hnames.
{ intros cs. rewrite <- list_fmap_compose. apply list_fmap_ext. intros _ c _.
  simpl. unfold relocated. by destruct (cidMapper _). }
unfold imagesReplaced, relocatedPod. simpl. by rewrite !Hnames.
Qed.

Lemma imagePatch_Permutation kind i old new patch :
patch ≡ₚ imagePatch kind i old new → patch = imagePatch kind i old new.
Proof.
unfold imagePatch. intros Hp.
repeat destruct (decide _);
  (by apply Permutation_nil_r in Hp) || (by apply Permutation_singleton_r in Hp).
Qed.

Lemma Handle_one_resolved {Lb : Lib} {Ad : AdmissionLib} {Aw : AdmissionLaws}
  cidMapper registry raw pod original kind inits cs pre c post cid :
(∀ r, cidMapper r ≠ Panic) →
Decode raw = Ok pod →
Marshal pod = Ok original → CreatePatch raw original = Ok [] →
Pod.InitContainers pod = inits → Pod.Containers pod = cs →
cidMapper (Container.Image c) = Ok cid →
(kind = "containers" ∧ cs = pre ++ c :: post
 ∧ Forall (λ c', resolves cidMapper c' = false) (inits ++ pre ++ post)
 ∨ kind = "initContainers" ∧ inits = pre ++ c :: post
   ∧ Forall (λ c', resolves cidMapper c' = false) (pre ++ post ++ cs)) →
Handle cidMapper registry raw
= Ok (admission.Patched
        (imagePatch kind (length pre) (Container.Image c)
           (prefixIpfsRegistry registry cid))).
Proof.
intros Hnp Hd Ho Hrt Hi Hc Hcid Hcase.
rewrite (Handle_spec cidMapper registry Hnp raw pod Hd).
destruct (Marshal_Ok (relocatedPod cidMapper registry pod)) as [current Hm].
rewrite Hm. unfold admission.PatchResponseFromRaw.
destruct (CreatePatch_images raw pod _ original current Hd Ho Hrt
            (relocatedPod_imagesReplaced cidMapper registry pod) Hm)
  as (patch & -> & Hperm).
assert (relocated cidMapper registry c
        = Container.mk (Container.Name c) (prefixIpfsRegistry registry cid)) as Hrc
  by (unfold relocated; by rewrite Hcid).
assert (resolves cidMapper c = true) as Hres
  by (unfold resolves; by rewrite Hcid).
unfold pod_patch, relocatedPod in Hperm. simpl in Hperm.
rewrite decide_True in Hperm by done. simpl in Hperm.
rewrite Hi, Hc in *.
destruct Hcase as [(-> & -> & HF)|(-> & -> & HF)].
- apply Forall_app in HF as [HFi HF]. apply Forall_app in HF as [HFpre HFpost].
  rewrite !existsb_app. simpl. rewrite Hres, !orb_true_r.
  rewrite fmap_app, fmap_cons, !relocated_misses, Hrc in Hperm by done.
  rewrite containers_patch_same, containers_patch_one in Hperm.
  by rewrite (imagePatch_Permutation _ _ _ _ _ Hperm).
- apply Forall_app in HF as [HFpre HF]. apply Forall_app in HF as [HFpost HFc].
  rewrite !existsb_app. simpl. rewrite Hres, !orb_true_r. simpl.
  rewrite fmap_app, fmap_cons, !relocated_misses, Hrc in Hperm by done.
  rewrite containers_patch_same, containers_patch_one, app_nil_r in Hperm.
  by rewrite (imagePatch_Permutation _ _ _ _ _ Hperm).
Qed.

(** C8, as the code has it.  The patch is computed from the raw object
  of the request.  For a raw object that loses nothing when it is decoded
  into a pod and serialized again, and a pod in which exactly one
  container (or init container) has an image that resolves, the response
  is a JSON patch that holds at most one operation, on the image of that
  container; for a pod in which no image resolves the response is
  "allowed" without a patch, whatever the raw object holds. *)
Theorem Handle_patches_only_the_resolved_image {Lb : Lib} {Ad : AdmissionLib} {Aw : AdmissionLaws}
  cidMapper registry raw pod :
(∀ r, cidMapper r ≠ Panic) →
Decode raw = Ok pod →
(∀ original pre c post cid,
   Marshal pod = Ok original → CreatePatch raw original = Ok [] →
   Pod.Containers pod = pre ++ c :: post →
   cidMapper (Container.Image c) = Ok cid →
   Forall (λ c', resolves cidMapper c' = false)
     (Pod.InitContainers pod ++ pre ++ post) →
   Handle cidMapper registry raw
   = Ok (admission.Patched
           (imagePatch "containers" (length pre) (Container.Image c)
              (prefixIpfsRegistry registry cid))))
∧ (∀ original pre c post cid,
     Marshal pod = Ok original → CreatePatch raw original = Ok [] →
     Pod.InitContainers pod = pre ++ c :: post →
     cidMapper (Container.Image c) = Ok cid →
     Forall (λ c', resolves cidMapper c' = false)
       (pre ++ post ++ Pod.Containers pod) →
     Handle cidMapper registry raw
     = Ok (admission.Patched
             (imagePatch "initContainers" (length pre) (Container.Image c)
                (prefixIpfsRegistry registry cid))))
∧ (Forall (λ c', resolves cidMapper c' = false)
     (Pod.InitContainers pod ++ Pod.Containers pod) →
   Handle cidMapper registry raw
   = Ok (admission.Allowed "no image resolutions found")).
Proof.
intros Hnp Hd. repeat split.
- intros original pre c post cid Ho Hrt Hc Hcid HF.
  eapply (Handle_one_resolved cidMapper registry raw pod original "containers");
    eauto.
- intros original pre c post cid Ho Hrt Hc Hcid HF.
  eapply (Handle_one_resolved cidMapper registry raw pod original "initContainers");
    eauto 10.
- intros HF. rewrite (Handle_spec cidMapper registry Hnp raw pod Hd).
  destruct (Marshal_Ok (relocatedPod cidMapper registry pod)) as [current ->].
  by rewrite (existsb_misses cidMapper _ HF).
Qed.

(** C9.  Whatever error the mapper returns for an image, the container
  is left as it is and the request does not fail for it: the response is
  an error only when the request does not decode (400) or the pod or the
  patch cannot be serialized (500). *)
Theorem Handle_never_fails_on_a_miss {Lb : Lib} {Ad : AdmissionLib} cidMapper registry raw :
(∀ r, cidMapper r ≠ Panic) →
match Decode raw with
| Err err => Handle cidMapper registry raw = Ok (admission.Errored 400 err)
| Panic => Handle cidMapper registry raw = Panic
| Ok pod =>
    (∀ c, resolves cidMapper c = false → relocated cidMapper registry c = c)
    ∧ match Marshal (relocatedPod cidMapper registry pod) with
      | Err err => Handle cidMapper registry raw = Ok (admission.Errored 500 err)
      | Panic => Handle cidMapper registry raw = Panic
      | Ok marshaledPod =>
          Handle cidMapper registry raw
          = Ok (if existsb (resolves cidMapper)
                     (Pod.InitContainers pod ++ Pod.Containers pod)
                then admission.PatchResponseFromRaw raw marshaledPod
                else admission.Allowed "no image resolutions found")
          ∧ (∀ patches, CreatePatch raw marshaledPod = Ok patches →
               ∀ code err,
                 Handle cidMapper registry raw ≠ Ok (admission.Errored code err))
      end
end.
Proof.
intros Hnp. destruct (Decode raw) as [pod|err|] eqn:Hd.
- split; [intros c; apply relocated_miss|].
  rewrite (Handle_spec cidMapper registry Hnp raw pod Hd).
  destruct (Marshal _) as [marshaledPod|err|]; [|done..].
  split; [done|]. intros patches Hp code err.
  unfold admission.PatchResponseFromRaw. rewrite Hp. by destruct (existsb _ _).
- unfold Handle. by rewrite Hd.
- unfold Handle. by rewrite Hd.
Qed.

End admission_proofs.

(** ** The double satisfies the interface *)

Lemma JSON_nested_ind (P : JSON → Prop) :
  P JNull → (∀ b, P (JBool b)) → (∀ n, P (JNum n)) → (∀ s, P (JStr s)) →
  (∀ items, Forall P items → P (JArr items)) →
  (∀ fields, Forall (λ kv, P kv.2) fields → P (JObj fields)) →
  ∀ j, P j.
Proof.
  intros Hnull Hbool Hnum Hstr Harr Hobj.
  fix IH 1. intros [|b|n|s|items|fields].
  - apply Hnull.
  - apply Hbool.
  - apply Hnum.
  - apply Hstr.
  - apply Harr. induction items as [|j items IHitems]; constructor.
    + apply IH.
    + apply IHitems.
  - apply Hobj. induction fields as [|[k v] fields IHfields]; constructor.
    + apply IH.
    + apply IHfields.
Qed.

Lemma of_tree_to_tree j : Sim.of_tree (Sim.to_tree j) = Some j.
Proof.
  induction j as [| | | |items IH|fields IH] using JSON_nested_ind; try done.
  - simpl. induction IH as [|j items Hj _ IHitems]; [done|].
    simpl in *. rewrite Hj. simpl.
    match type of IHitems with
    | JArr <$> ?t = _ => destruct t as [js|]; [|done]
    end.
    simpl in *. congruence.
  - simpl. induction IH as [|[k v] fields Hv _ IHfields]; [done|].
    simpl in *. rewrite Hv. simpl.
    match type of IHfields with
    | JObj <$> ?t = _ => destruct t as [js|]; [|done]
    end.
    simpl in *. congruence.
Qed.

Lemma bits_to_N_pos_bits p : Sim.bits_to_N (Sim.pos_bits p) = Npos p.
Proof. induction p as [p IH|p IH|]; simpl; [by rewrite IH..|done]. Qed.

Lemma byte_bits_of_bits b0 b1 b2 b3 b4 b5 b6 b7 :
  Sim.byte_bits (Byte.of_bits (b0, (b1, (b2, (b3, (b4, (b5, (b6, b7))))))))
  = [b0; b1; b2; b3; b4; b5; b6; b7].
Proof. unfold Sim.byte_bits. by rewrite Byte.to_bits_of_bits. Qed.

Lemma unpack_pack_value n bits :
  (length bits ≤ n)%nat →
  Sim.bits_to_N (Sim.unpack (Sim.pack bits)) = Sim.bits_to_N bits.
Proof.
  revert bits. induction n as [|n IH]; intros bits Hlen.
  { destruct bits; [done|simpl in Hlen; lia]. }
  destruct bits as [|b0 [|b1 [|b2 [|b3 [|b4 [|b5 [|b6 [|b7 rest]]]]]]]];
    try (cbn [Sim.pack Sim.unpack nth]; rewrite byte_bits_of_bits;
         repeat match goal with b : bool |- _ => destruct b end; reflexivity).
  - done.
  - cbn [Sim.pack Sim.unpack]. rewrite byte_bits_of_bits.
    cbn [app Sim.bits_to_N]. rewrite IH; [done|]. simpl in Hlen. lia.
Qed.

Lemma parse_print j : Sim.parse (Sim.print j) = Some j.
Proof.
  unfold Sim.parse, Sim.print.
  rewrite (unpack_pack_value _ _ (Nat.le_refl _)), bits_to_N_pos_bits.
  rewrite decode_encode. simpl. apply of_tree_to_tree.
Qed.

Lemma strip_prefix_app p s : Sim.strip_prefix p (p ++ s) = Some s.
Proof. induction p as [|a p IH]; simpl; [done|]. by rewrite decide_True. Qed.

Lemma string_of_list_byte_inj b1 b2 :
  string_of_list_byte b1 = string_of_list_byte b2 → b1 = b2.
Proof.
  intros Heq. apply (f_equal list_byte_of_string) in Heq.
  by rewrite !list_byte_of_string_of_list_byte in Heq.
Qed.

Lemma Sim_laws : @LibLaws Sim.lib.
Proof.
  split; simpl.
  - apply parse_print.
  - unfold Sim.cid. intros b1 b2 Heq. simpl in Heq.
    injection Heq as Heq. by apply string_of_list_byte_inj.
  - done.
  - intros b. unfold Sim.decodeCid, Sim.cid. by rewrite strip_prefix_app.
  - intros b. unfold Sim.parseURL, IPFSSchema. by rewrite strip_prefix_app.
  - intros b. unfold Sim.validDigest, Sim.sha. rewrite strip_prefix_app.
    by apply bool_decide_eq_true.
Qed.

Lemma dec_Container_json c : dec_struct Sim.dec_Container (Container_json c) = Ok c.
Proof. by destruct c. Qed.

Lemma dec_Pod_json p : dec_struct Sim.dec_Pod (Sim.Pod_json p) = Ok p.
Proof.
  destruct p as [n inits cs]. unfold Sim.Pod_json, dec_struct, Sim.dec_Pod.
  cbn [Pod.Name Pod.InitContainers Pod.Containers]. jfields.
  cbn [Sim.dec_object dec_struct]. jfields.
  cbn [dec_string mbind outcome_bind]. unfold dec_array.
  rewrite !mapM_outcome_fmap.
  rewrite !mapM_outcome_Ok_id by apply dec_Container_json. done.
Qed.

Lemma decodePod_print p : Sim.decodePod (Sim.print (Sim.Pod_json p)) = Ok p.
Proof.
  unfold Sim.decodePod, json_Decode. simpl. rewrite parse_print. apply dec_Pod_json.
Qed.

Lemma Sim_admissionLaws : @AdmissionLaws Sim.admissionLib.
Proof.
  split; simpl.
  - intros pod. eauto.
  - intros raw pod pod' original current Hd [= <-] Hrt _ [= <-].
    rewrite Hd, decodePod_print in Hrt. cbn [mbind outcome_bind] in Hrt.
    injection Hrt as Hrt. apply app_eq_nil in Hrt as [Hdrop _].
    exists (pod_patch pod pod'). split; [|done].
    rewrite Hd, decodePod_print. cbn [mbind outcome_bind]. by rewrite Hdrop.
Qed.

(** ** The properties on the double *)

Lemma Sim_ingested :
  AddImage Sim.image0 Sim.store0 = (Ok Sim.root1, Sim.store1).
Proof.
  assert (is_ok (AddImage Sim.image0 Sim.store0).1 = true) as Hok
    by (vm_compute; reflexivity).
  unfold Sim.root1, Sim.store1, Sim.rootOf.
  by destruct (AddImage Sim.image0 Sim.store0) as [[p|e|] s'].
Qed.

Lemma Sim_coherent : coherent Sim.layers0 Sim.config0 Sim.manifest0.
Proof.
  split.
  - intros l l' Hl Hl' Hd.
    repeat (apply elem_of_cons in Hl as [->|Hl]); [| | |by apply elem_of_nil in Hl];
      repeat (apply elem_of_cons in Hl' as [->|Hl']);
      try (by apply elem_of_nil in Hl'); try reflexivity;
      vm_compute in Hd; discriminate.
  - intros d d' Hl Hl' Hd.
    repeat (apply elem_of_cons in Hl as [->|Hl]); [| | |by apply elem_of_nil in Hl];
      repeat (apply elem_of_cons in Hl' as [->|Hl']);
      try (by apply elem_of_nil in Hl'); try reflexivity;
      vm_compute in Hd; discriminate.
Qed.

Lemma AddImage_then_ReadBlob_witness :
  ReadBlob Sim.store1 (cid_String Sim.root1) (Sim.sha Sim.config0)
  = Ok (Sim.config0, OCIConfigJSON)
  ∧ ReadBlob Sim.store1 (cid_String Sim.root1) (Sim.sha Sim.layer1)
    = Ok (Sim.layer1, Sim.gzip).
Proof.
  destruct (AddImage_then_ReadBlob (Lw := Sim_laws) Sim.image0 Sim.store0
              Sim.root1 Sim.store1 Sim.layers0 Sim.config0 Sim.manifest0
              Sim_ingested eq_refl eq_refl eq_refl Sim_coherent eq_refl)
    as [Hcfg Hlayers].
  split; [exact Hcfg|].
  exact (Hlayers 0%nat _ _ Sim.layer1 eq_refl eq_refl eq_refl eq_refl).
Defined.

(** C1 as stated fails: a digest can name two descriptors of an image.
    On the image whose only layer is its config blob, all of the above but
    the coherence holds, and the config digest resolves with the media
    type of the layer; on the image that lists one blob as a layer of two
    media types, the digest of the first layer resolves with the media
    type of the second. *)
Lemma one_digest_two_media_types :
  AddImage Sim.twin Sim.store0 = (Ok Sim.rootT, Sim.storeT)
  ∧ Descriptor.MediaType (Manifest.Config Sim.twinManifest) = OCIConfigJSON
  ∧ ReadBlob Sim.storeT (cid_String Sim.rootT)
      (Descriptor.Digest (Manifest.Config Sim.twinManifest))
    = Ok (Sim.config0, Sim.gzip)
  ∧ Sim.gzip ≠ OCIConfigJSON
  ∧ is_ok (AddImage Sim.mixed Sim.store0).1 = true
  ∧ Descriptor.MediaType <$> Manifest.Layers Sim.mixedManifest !! 0%nat = Some Sim.gzip
  ∧ (Descriptor.Digest <$> Manifest.Layers Sim.mixedManifest !! 0%nat)
    = Some (Sim.sha Sim.layer1)
  ∧ ReadBlob (AddImage Sim.mixed Sim.store0).2
      (cid_String (Sim.rootOf Sim.mixed Sim.store0)) (Sim.sha Sim.layer1)
    = Ok (Sim.layer1, Sim.zstd)
  ∧ Sim.zstd ≠ Sim.gzip.
Proof.
  split.
  { assert (is_ok (AddImage Sim.twin Sim.store0).1 = true) as Hok
      by (vm_compute; reflexivity).
    unfold Sim.rootT, Sim.storeT, Sim.rootOf.
    by destruct (AddImage Sim.twin Sim.store0) as [[p|e|] s']. }
  split; [reflexivity|]. split; [vm_compute; reflexivity|].
  split; [discriminate|]. split; [vm_compute; reflexivity|].
  split; [reflexivity|]. split; [reflexivity|].
  split; [vm_compute; reflexivity|discriminate].
Qed.

Lemma ReadManifest_latest_is_index_witness :
  ∃ n wrapper,
    open Sim.store1 Sim.root1 = Ok (wrapperBytes n)
    ∧ json_Decode dec_catch (wrapperBytes n) = Ok wrapper
    ∧ ReadManifest Sim.store1 (cid_String Sim.root1) "latest"
      = Ok (indexBytes n, catch.MediaType wrapper)
    ∧ indexBytes n ≠ manifestBytes n.
Proof.
  destruct (ReadManifest_latest_is_index (Lw := Sim_laws) Sim.image0 Sim.store0
              Sim.root1 Sim.store1 Sim_ingested)
    as [(m & n & wrapper & _ & _ & Hroot & Hdec & _ & _ & Hlatest & _ & Hne) _].
  exists n, wrapper. auto.
Defined.

Lemma Sim_decode_root1 : cid_Decode Sim.root1 = Ok Sim.root1.
Proof. vm_compute. reflexivity. Qed.

Lemma ReadBlob_walks_to_the_end_witness :
  match walkNodes Sim.store1 Sim.root1 with
  | Ok nodes =>
      ReadBlob Sim.store1 Sim.root1 Sim.unknown
      = match lastMatch Sim.unknown nodes with
        | Some (c, _, mt) => ff ← open Sim.store1 c; Ok (ff, mt)
        | None => Err (ErrDigestNotFound Sim.unknown)
        end
  | Err e => ReadBlob Sim.store1 Sim.root1 Sim.unknown = Err e
  | Panic => ReadBlob Sim.store1 Sim.root1 Sim.unknown = Panic
  end.
Proof.
  pose proof (ReadBlob_walks_to_the_end Sim.store1 Sim.root1 Sim.unknown Sim.root1
                Sim_decode_root1) as Hw.
  destruct (walkNodes Sim.store1 Sim.root1) as [nodes|e|]; [|exact Hw..].
  exact (proj2 Hw).
Defined.

(** C3 as stated fails: on the graph of the twin image the first node
    with the digest of the config is the config descriptor, and the media
    type returned is that of the layer visited after it; on a graph whose
    manifest block is gone the first node visited has the requested digest
    and the resolution fails. *)
Lemma first_match_is_not_what_ReadBlob_returns :
  (nodes ← walkNodes Sim.storeT Sim.rootT; Ok (firstMatch (Sim.sha Sim.config0) nodes))
  = Ok (Some (Sim.cid Sim.config0, Sim.sha Sim.config0, OCIConfigJSON))
  ∧ ReadBlob Sim.storeT Sim.rootT (Sim.sha Sim.config0) = Ok (Sim.config0, Sim.gzip)
  ∧ OCIConfigJSON ≠ Sim.gzip
  ∧ (rootf ← open Sim.broken Sim.root1; '(_, d, _) ← step rootf; Ok d)
    = Ok Sim.indexDigest
  ∧ ReadBlob Sim.broken Sim.root1 Sim.indexDigest = Err (ErrExt "Unixfs.Get").
Proof.
  split; [vm_compute; reflexivity|].
  split; [vm_compute; reflexivity|].
  split; [discriminate|].
  split; vm_compute; reflexivity.
Qed.

Lemma Update_then_Resolve_witness :
  ∃ ap e s',
    updateCidMap Sim.cluster0 Sim.alpine "bafyroot" (Sim.bootstrapped 1) = (Ok (ap, e), s')
    ∧ Resolve s' (mapperFetcher Sim.cluster0) Sim.alpine = Ok (path_String "bafyroot").
Proof.
  assert (is_ok (updateCidMap Sim.cluster0 Sim.alpine "bafyroot" (Sim.bootstrapped 1)).1
          = true) as Hok by (vm_compute; reflexivity).
  destruct (updateCidMap Sim.cluster0 Sim.alpine "bafyroot" (Sim.bootstrapped 1))
    as [[[ap e]|?|] s'] eqn:Hu; try discriminate Hok.
  exists ap, e, s'. split; [reflexivity|].
  apply (Update_then_Resolve (Lw := Sim_laws) Sim.cluster0 Sim.alpine "bafyroot"
           (Sim.bootstrapped 1) ap e s'); [reflexivity..|exact Hu].
Defined.

(** C5 as stated fails, twice.  A reference that is not canonical is
    stored as it is and looked up in its canonical form.  And the update
    publishes under the key of the store it talks to, while both the
    update and the mapper read the map under the key the secret points
    at: when the secret points at another key, the update of a canonical
    reference succeeds, the store resolves its own key to the new map,
    and the mapper still reads the old one. *)
Lemma Update_then_Resolve_temp_not_found :
  is_ok (updateCidMap Sim.cluster0 "temp" "bafyroot" (Sim.bootstrapped 1)).1 = true
  ∧ Resolve (updateCidMap Sim.cluster0 "temp" "bafyroot" (Sim.bootstrapped 1)).2
      (mapperFetcher Sim.cluster0) "temp"
    = Err (ErrCidDoesNotExist "index.docker.io/library/temp:latest")
  ∧ ParseReference Sim.alpine = Ok Sim.alpine
  ∧ peered Sim.bootstrappedOther = true
  ∧ mapperFetcher Sim.clusterOther = Ok "k51other"
  ∧ self Sim.bootstrappedOther = "k51self"
  ∧ let s' := (updateCidMap Sim.clusterOther Sim.alpine "bafyroot"
                 Sim.bootstrappedOther).2 in
    is_ok (updateCidMap Sim.clusterOther Sim.alpine "bafyroot" Sim.bootstrappedOther).1
    = true
    ∧ (p ← Name_Resolve s' "k51self"; nd ← Unixfs_Get s' p;
       match nd with
       | File f => json_Decode dec_cidMap f
       | Directory => Err ErrExpectedIndexFile
       end)
      = Ok {[Sim.alpine := path_String "bafyroot"]}
    ∧ Resolve s' (mapperFetcher Sim.clusterOther) Sim.alpine
      = Err (ErrCidDoesNotExist Sim.alpine).
Proof. repeat split; vm_compute; reflexivity. Qed.

Lemma updateCidMap_needs_the_map_witness :
  let data := json_print (cidMap_json {[Sim.alpine := path_String "bafyroot"]}) in
  (updateCidMap Sim.cluster0 Sim.alpine "bafyroot" (Sim.bootstrapped 0)).1
  = Ok (cidOf data, mkIpnsEntry "k51self" (cidOf data))
  ∧ json_Decode dec_cidMap data = Ok {[Sim.alpine := path_String "bafyroot"]}
  ∧ updateCidMap Sim.clusterNoKey Sim.alpine "bafyroot" Sim.store0
    = (Err (ErrNoIpnsKeyInSecret consts.CidMapperSecretName), Sim.store0).
Proof.
  destruct (updateCidMap_needs_the_map (Lw := Sim_laws) Sim.cluster0 Sim.alpine
              "bafyroot" (Sim.bootstrapped 0)) as (_ & _ & _ & _ & Hok).
  destruct (Hok {[consts.CidMapperSecretKey := "k51self"]} "k51self"
              (Sim.cid Sim.emptyMap) Sim.emptyMap ∅)
    as (Hu & Hdec & _); [reflexivity..|discriminate|reflexivity|reflexivity|].
  destruct (updateCidMap_needs_the_map (Lw := Sim_laws) Sim.clusterNoKey Sim.alpine
              "bafyroot" Sim.store0) as (_ & Hnokey & _).
  intros data. split; [by rewrite Hu|]. split; [exact Hdec|].
  apply (Hnokey ∅); reflexivity.
Defined.

(** C6 as stated fails: before the bootstrap has published a Name Map,
    [updateCidMap] returns the error of the name resolution and writes
    nothing. *)
Lemma updateCidMap_without_map_fails :
  updateCidMap Sim.cluster0 Sim.alpine "bafyroot" Sim.store0
  = (Err (ErrExt "Name.Resolve"), Sim.store0).
Proof. vm_compute. reflexivity. Qed.

(** C7 as stated fails: the two ingestions return one and the same root
    handle. *)
Lemma AddImage_twice_same_root :
  (AddImage Sim.image0 Sim.store0).1 = Ok Sim.root1
  ∧ (AddImage Sim.image0 (AddImage Sim.image0 Sim.store0).2).1 = Ok Sim.root1.
Proof. split; vm_compute; reflexivity. Qed.

Lemma Sim_oneMapper_no_panic : ∀ r, Sim.oneMapper r ≠ Panic.
Proof. intros r. unfold Sim.oneMapper. by destruct (decide _). Qed.

Lemma Sim_decode_raw0 : Decode Sim.raw0 = Ok Sim.pod0.
Proof. apply decodePod_print. Qed.

Lemma Sim_decode_raw1 : Decode Sim.raw1 = Ok Sim.pod1.
Proof. apply decodePod_print. Qed.

(** The raw object of the first pod loses nothing on the way through the
    pod. *)
Lemma Sim_roundtrip_raw0 :
  CreatePatch Sim.raw0 (Sim.print (Sim.Pod_json Sim.pod0)) = Ok [].
Proof. vm_compute. reflexivity. Qed.

Lemma Handle_patches_only_the_resolved_image_witness :
  Handle Sim.oneMapper "registry.local" Sim.raw0
  = Ok (admission.Patched
          [jsonpatch.mkOperation "replace" "/spec/containers/1/image"
             (JStr "registry.local/ipfs/bafyroot")])
  ∧ Handle Sim.oneMapper "registry.local" Sim.raw1
    = Ok (admission.Allowed "no image resolutions found").
Proof.
  split.
  - destruct (Handle_patches_only_the_resolved_image (Aw := Sim_admissionLaws)
                Sim.oneMapper "registry.local" Sim.raw0 Sim.pod0
                Sim_oneMapper_no_panic Sim_decode_raw0) as (Hone & _ & _).
    apply (Hone (Sim.print (Sim.Pod_json Sim.pod0)) [Container.mk "sidecar" "envoy"]
             (Container.mk "app" Sim.alpine) [] "/ipfs/bafyroot");
      [reflexivity|exact Sim_roundtrip_raw0|reflexivity..|].
    repeat constructor.
  - destruct (Handle_patches_only_the_resolved_image (Aw := Sim_admissionLaws)
                Sim.oneMapper "registry.local" Sim.raw1 Sim.pod1
                Sim_oneMapper_no_panic Sim_decode_raw1) as (_ & _ & Hnone).
    apply Hnone. repeat constructor.
Defined.

(** C8 as stated fails: a raw object with a field the pod of the
    webhook does not carry decodes to the same pod, exactly one image of
    which resolves, and the patch removes that field besides replacing the
    image. *)
Lemma Handle_patch_drops_what_the_pod_lacks :
  Decode Sim.raw2 = Ok Sim.pod0
  ∧ existsb (resolves Sim.oneMapper) (Pod.InitContainers Sim.pod0) = false
  ∧ resolves Sim.oneMapper <$> Pod.Containers Sim.pod0 = [false; true]
  ∧ Handle Sim.oneMapper "registry.local" Sim.raw2
    = Ok (admission.Patched
            [jsonpatch.mkOperation "remove" "/spec/schedulingGates" JNull;
             jsonpatch.mkOperation "replace" "/spec/containers/1/image"
               (JStr "registry.local/ipfs/bafyroot")]).
Proof. repeat split; vm_compute; reflexivity. Qed.

Lemma Handle_never_fails_on_a_miss_witness :
  Handle Sim.oneMapper "registry.local" Sim.raw1
  = Ok (admission.Allowed "no image resolutions found")
  ∧ relocatedPod Sim.oneMapper "registry.local" Sim.pod1 = Sim.pod1.
Proof.
  pose proof (Handle_never_fails_on_a_miss Sim.oneMapper "registry.local" Sim.raw1
                Sim_oneMapper_no_panic) as Hh.
  rewrite Sim_decode_raw1 in Hh. destruct Hh as [Hmiss [Hh _]].
  split; [exact Hh|].
  unfold relocatedPod. simpl. by rewrite !Hmiss.
Defined.

Lemma failed_read_answers_empty_200_witness :
  ReadBlob Sim.store1 Sim.root1 Sim.unknown = Err (ErrDigestNotFound Sim.unknown)
  ∧ ServeHTTP Sim.store1 Blobs (http.mkRequest "GET" Sim.root1 Sim.unknown)
    = Some (http.mkResponse 200 ∅ [])
  ∧ ServeHTTP Sim.store1 Manifests (http.mkRequest "GET" Sim.root1 "v1.0")
    = Some (http.mkResponse 200 ∅ []).
Proof.
  destruct (failed_read_answers_empty_200 Sim.store1
              (http.mkRequest "GET" Sim.root1 Sim.unknown) http.fresh)
    as (_ & _ & Hblob & _).
  destruct (failed_read_answers_empty_200 Sim.store1
              (http.mkRequest "GET" Sim.root1 "v1.0") http.fresh) as (Hman & _).
  assert (ReadBlob Sim.store1 Sim.root1 Sim.unknown = Err (ErrDigestNotFound Sim.unknown))
    as Hnf by (vm_compute; reflexivity).
  split; [exact Hnf|]. split.
  - apply (Hblob Sim.unknown (ErrDigestNotFound Sim.unknown)); [reflexivity|exact Hnf].
  - apply (Hman (ErrReferenceNotLatestOrDigest (ErrExt "digest.Parse"))).
    vm_compute. reflexivity.
Defined.

Lemma resolveCids_without_locator_panics_witness :
  step Sim.noLocator = Panic
  ∧ ReadManifest (addBlock Sim.noLocator Sim.store0)
      (cid_String (cidOf Sim.noLocator)) "latest"
    = Panic.
Proof.
  destruct (resolveCids_without_locator_panics (Lb := Sim.lib)) as (_ & Hstep & _).
  assert (step Sim.noLocator = Panic) as Hs.
  { apply (Hstep _ (catch.mk OCIImageIndex (Sim.sha Sim.config0) (Some []) [])).
    - unfold Sim.noLocator. apply (json_Decode_print (Lw := Sim_laws)).
    - reflexivity. }
  split; [exact Hs|].
  unfold ReadManifest. rewrite (cid_Decode_String (LibLaws := Sim_laws)).
  cbn [mbind outcome_bind]. rewrite decide_True by done.
  rewrite (open_stored (Lw := Sim_laws)) by apply stored_Add.
  cbn [mbind outcome_bind]. by rewrite Hs.
Defined.

(** * Further properties *)

(** ** Reading an ingested graph *)

Section reading.
Context {Lb : Lib} {Lw : LibLaws}.

Lemma lastMatch_None d (nodes : list node) :
  d ∉ (λ nd : node, nd.1.2) <$> nodes → lastMatch d nodes = None.
Proof.
  intros Hd. destruct (lastMatch d nodes) as [nd|] eqn:Hl; [|done].
  apply lastMatch_Some in Hl as [Hin <-]. destruct Hd.
  apply list_elem_of_fmap. by exists nd.
Qed.

(** The nodes of the walk over an ingested image: the index, the manifest,
    then one node for each digest the manifest lists, each naming a blob
    that is in the store. *)
Lemma ingested_graph img s root s' m :
  AddImage img s = (Ok root, s') → Image.Manifest img = Ok m →
  ∃ n ns,
    root = cidOf (wrapperBytes n)
    ∧ stored s' (wrapperBytes n) ∧ stored s' (indexBytes n)
    ∧ stored s' (manifestBytes n)
    ∧ walkNodes s' root
      = Ok ((cidOf (indexBytes n), SHA256 (indexBytes n), OCIImageIndex)
            :: (cidOf (manifestBytes n), SHA256 (manifestBytes n), OCIImageIndex)
            :: ns)
    ∧ (λ nd : node, nd.1.2) <$> ns = digests m
    ∧ Forall (λ nd : node, ∃ b, nd.1.1 = cidOf b ∧ stored s' b) ns.
Proof.
  intros Ha Hm.
  apply AddImage_Ok in Ha
    as (layers & cfg & m' & entries & n & Hl & Hc & Hm' & HF & Hn & ->
        & Hsw & Hsi & Hsm & Hsc & Hse).
  rewrite Hm in Hm'. injection Hm' as <-.
  destruct (walkNodes_ingested _ _ _ _ _ Hn Hsw Hsi Hsm) as (ns & Hw & Hns).
  exists n, ((cidOf cfg, Descriptor.Digest (Manifest.Config m),
              Descriptor.MediaType (Manifest.Config m)) :: ns).
  repeat split; try done.
  - unfold digests. csimpl. f_equal.
    clear -Hns. induction Hns as [|desc nd L ns' (c & _ & ->) _ IH]; [done|].
    csimpl. by rewrite IH.
  - constructor; [by exists cfg|].
    apply Forall_forall. intros nd Hin.
    apply list_elem_of_lookup in Hin as [j Hj].
    destruct (Forall2_lookup_r _ _ _ _ _ Hns Hj) as (desc & _ & c & Hcm & ->).
    simpl.
    destruct (decide (Descriptor.Digest (Manifest.Config m) = Descriptor.Digest desc))
      as [Heq|Hne].
    + rewrite <- Heq, lookup_insert_eq in Hcm. injection Hcm as <-. by exists cfg.
    + rewrite lookup_insert_ne in Hcm by done.
      apply cidMapOf_lookup in Hcm as [Hcm|(b & Hbin & ->)]; [done|].
      exists b. split; [done|].
      by apply (proj1 (Forall_forall _ _) Hse (Descriptor.Digest desc, b)).
Qed.

(** A resolution by digest on a graph all of whose nodes are in the
    store. *)
Lemma ReadBlob_on_graph s r nodes d :
  walkNodes s (cidOf r) = Ok nodes →
  Forall (λ nd : node, ∃ b, nd.1.1 = cidOf b ∧ stored s b) nodes →
  (d ∈ (λ nd : node, nd.1.2) <$> nodes →
   ∃ b mt, stored s b ∧ ReadBlob s (cid_String (cidOf r)) d = Ok (b, mt))
  ∧ (d ∉ (λ nd : node, nd.1.2) <$> nodes →
     ReadBlob s (cid_String (cidOf r)) d = Err (ErrDigestNotFound d)).
Proof.
  intros Hw Hall.
  rewrite ReadBlob_walkNodes, cid_Decode_String. cbn [mbind outcome_bind].
  rewrite Hw. cbn [mbind outcome_bind]. split.
  - intros Hd. apply list_elem_of_fmap in Hd as (nd & -> & Hin).
    destruct (lastMatch_is_Some _ _ _ Hin eq_refl) as [[[c d'] mt] Hl].
    rewrite Hl. apply lastMatch_Some in Hl as [Hin' _].
    destruct (proj1 (Forall_forall _ _) Hall _ Hin') as (b & Hc & Hb).
    simpl in Hc. subst c. exists b, mt. split; [done|]. unfold openNode.
    by rewrite (open_stored _ _ Hb).
  - intros Hd. by rewrite (lastMatch_None _ _ Hd).
Qed.

(** X1.  After an ingestion, a digest resolves exactly when it is one of
    the digests of the graph: the digest of the wrapping index, of the
    decorated manifest, or one the manifest lists for its config and
    layers.  Every other digest is the not-found error; the resolution
    never panics and never fails on the store. *)
Theorem ReadBlob_ingested_found_or_not img s root s' m d :
  AddImage img s = (Ok root, s') → Image.Manifest img = Ok m →
  ∃ n,
    root = cidOf (wrapperBytes n)
    ∧ let known := SHA256 (indexBytes n) :: SHA256 (manifestBytes n) :: digests m in
      (d ∈ known → ∃ b mt, ReadBlob s' (cid_String root) d = Ok (b, mt))
      ∧ (d ∉ known → ReadBlob s' (cid_String root) d = Err (ErrDigestNotFound d)).
Proof.
  intros Ha Hm.
  destruct (ingested_graph _ _ _ _ _ Ha Hm)
    as (n & ns & -> & Hsw & Hsi & Hsm & Hw & Hds & Hst).
  exists n. split; [done|]. intros known.
  assert (Forall (λ nd : node, ∃ b, nd.1.1 = cidOf b ∧ stored s' b)
            ((cidOf (indexBytes n), SHA256 (indexBytes n), OCIImageIndex)
             :: (cidOf (manifestBytes n), SHA256 (manifestBytes n), OCIImageIndex)
             :: ns)) as Hall.
  { constructor; [by exists (indexBytes n)|].
    constructor; [by exists (manifestBytes n)|done]. }
  destruct (ReadBlob_on_graph s' (wrapperBytes n) _ d Hw Hall) as [Hin Hout].
  rewrite !fmap_cons, Hds in Hin. rewrite !fmap_cons, Hds in Hout. split.
  - intros Hd. destruct (Hin Hd) as (b & mt & _ & Hr). by exists b, mt.
  - exact Hout.
Qed.

(** X2.  The manifests route by digest.  The digest of the decorated
    manifest resolves to the bytes of that manifest, served with the media
    type of the INDEX that points at it (the walk reports the media type of
    the record it decoded, not of the entry it followed); the digest of
    the wrapping index resolves to what ["latest"] resolves to. *)
Theorem ReadManifest_by_digest img s root s' m :
  AddImage img s = (Ok root, s') → Image.Manifest img = Ok m →
  digest_valid "latest" = false →
  ∃ n,
    root = cidOf (wrapperBytes n)
    ∧ json_Decode dec_Manifest (manifestBytes n) = Ok n
    ∧ (SHA256 (manifestBytes n) ∉ digests m →
       ReadManifest s' (cid_String root) (SHA256 (manifestBytes n))
       = Ok (manifestBytes n, OCIImageIndex))
    ∧ (SHA256 (indexBytes n) ∉ SHA256 (manifestBytes n) :: digests m →
       ReadManifest s' (cid_String root) (SHA256 (indexBytes n))
       = Ok (indexBytes n, OCIImageIndex)
       ∧ ReadManifest s' (cid_String root) "latest" = Ok (indexBytes n, OCIImageIndex)).
Proof.
  intros Ha Hm Hlatest.
  destruct (ingested_graph _ _ _ _ _ Ha Hm)
    as (n & ns & -> & Hsw & Hsi & Hsm & Hw & Hds & Hst).
  exists n. split; [done|].
  split; [unfold manifestBytes; by rewrite json_Decode_print, dec_Manifest_json|].
  assert (∀ b, ReadManifest s' (cid_String (cidOf (wrapperBytes n))) (SHA256 b)
               = openNode s' (SHA256 b)
                   (lastMatch (SHA256 b)
                      ((cidOf (indexBytes n), SHA256 (indexBytes n), OCIImageIndex)
                       :: (cidOf (manifestBytes n), SHA256 (manifestBytes n),
                           OCIImageIndex) :: ns))) as Hread.
  { intros b. unfold ReadManifest. rewrite cid_Decode_String.
    cbn [mbind outcome_bind]. rewrite decide_False.
    2:{ intros Heq. pose proof (SHA256_valid b) as Hv. rewrite Heq in Hv. congruence. }
    rewrite digest_Parse_SHA256. cbn [wrap_err mbind outcome_bind].
    rewrite ReadBlob_walkNodes, cid_Decode_String. cbn [mbind outcome_bind].
    by rewrite Hw. }
  split.
  - intros Hd. rewrite Hread. rewrite <- Hds in Hd.
    cbn [lastMatch]. rewrite (lastMatch_None _ _ Hd).
    cbn [fst snd]. rewrite decide_True by done.
    unfold openNode. by rewrite (open_stored _ _ Hsm).
  - intros Hd. apply not_elem_of_cons in Hd as [Hne Hd]. split.
    + rewrite Hread. rewrite <- Hds in Hd.
      cbn [lastMatch]. rewrite (lastMatch_None _ _ Hd).
      cbn [fst snd]. rewrite decide_False by done. rewrite decide_True by done.
      unfold openNode. by rewrite (open_stored _ _ Hsi).
    + unfold ReadManifest. rewrite cid_Decode_String. cbn [mbind outcome_bind].
      rewrite decide_True by done. rewrite (open_stored _ _ Hsw).
      cbn [mbind outcome_bind]. rewrite step_wrapper. cbn [mbind outcome_bind].
      by rewrite (open_stored _ _ Hsi).
Qed.

(** X3.  What [step] makes of the records the writer stores.  The outer
    wrapper, a record with its own [urls], is followed to its locator and
    reported with its own digest and media type.  An index with exactly
    one entry is followed to the locator of that entry and reported with
    the digest of the entry and the media type of the INDEX.  An index
    with no entry or with several is refused with the error "nope". *)
Theorem step_on_written_records :
  (∀ w b,
     IpfsManifest.URLs w = [locator b] →
     digest_valid (IpfsManifest.Digest w) = true →
     step (json_print (IpfsManifest_json w))
     = Ok (cidOf b, IpfsManifest.Digest w, IpfsManifest.MediaType w))
  ∧ (∀ i desc b,
       IndexManifest.Manifests i = [desc] →
       Descriptor.URLs desc = [locator b] →
       digest_valid (Descriptor.Digest desc) = true →
       step (json_print (IndexManifest_json i))
       = Ok (cidOf b, Descriptor.Digest desc, IndexManifest.MediaType i))
  ∧ (∀ i,
       length (IndexManifest.Manifests i) ≠ 1%nat →
       step (json_print (IndexManifest_json i)) = Err ErrNope).
Proof.
  split; [|split].
  - intros [mt dg sz urls] b Hu Hv. simpl in *. subst urls.
    unfold step. rewrite json_Decode_print, dec_catch_IpfsManifest.
    cbn [mbind outcome_bind catch.URLs catch.Digest catch.MediaType].
    unfold locator. rewrite resolveCids_locator. cbn [mbind outcome_bind].
    unfold digest_Parse. by rewrite Hv.
  - intros [sv mt ms] [dmt dsz ddg durls] b Hms Hu Hv. simpl in *. subst ms durls.
    unfold step. rewrite json_Decode_print.
    assert (dec_struct dec_catch
              (IndexManifest_json
                 (IndexManifest.mk sv mt [Descriptor.mk dmt dsz ddg [locator b]]))
            = Ok (catch.mk mt "" None [catch.mkEntry dmt ddg (Some [locator b])]))
      as ->.
    { destruct (decide (mt = "")) as [->|Hmt]; [|by apply dec_catch_IndexManifest].
      unfold IndexManifest_json, dec_struct, dec_catch, enc_mediaType_omitempty.
      cbn [IndexManifest.SchemaVersion IndexManifest.MediaType IndexManifest.Manifests].
      rewrite decide_True by done. jfields. done. }
    cbn [mbind outcome_bind catch.URLs catch.Manifests catch.eDigest catch.eURLs
         catch.MediaType from_option id].
    unfold locator. rewrite resolveCids_locator. cbn [mbind outcome_bind].
    unfold digest_Parse. by rewrite Hv.
  - intros [sv mt ms] Hlen. simpl in Hlen.
    unfold step. rewrite json_Decode_print.
    assert (∃ es, dec_struct dec_catch (IndexManifest_json (IndexManifest.mk sv mt ms))
                  = Ok (catch.mk mt "" None es) ∧ length es = length ms)
      as (es & -> & Hes).
    { assert (∃ es, dec_array dec_catch_entry (Some (JArr (Descriptor_json <$> ms)))
                    = Ok es ∧ length es = length ms) as (es & Hdec & Hes).
      { unfold dec_array. rewrite mapM_outcome_fmap.
        clear Hlen. induction ms as [|[dmt dsz ddg durls] ms (es & IH & Hes)].
        - by exists [].
        - exists (catch.mkEntry dmt ddg (match durls with [] => None | _ => Some durls end)
                  :: es).
          split; [|simpl; by rewrite Hes].
          cbn [mapM_outcome]. rewrite IH.
          unfold compose at 1, Descriptor_json, dec_catch_entry.
          cbn [Descriptor.MediaType Descriptor.Size Descriptor.Digest Descriptor.URLs].
          destruct durls as [|u durls]; jfields; [done|].
          cbn [dec_string mbind outcome_bind]. by rewrite dec_strings_JStr. }
      exists es. split; [|done].
      unfold IndexManifest_json, dec_struct, dec_catch, enc_mediaType_omitempty.
      cbn [IndexManifest.SchemaVersion IndexManifest.MediaType IndexManifest.Manifests].
      destruct (decide (mt = "")) as [->|Hmt]; jfields;
        cbn [dec_string dec_strings mbind outcome_bind]; by rewrite Hdec. }
    cbn [mbind outcome_bind catch.URLs catch.Manifests].
    destruct es as [|e [|e' es]]; simpl in *; [done| |done].
    destruct ms as [|? [|? ?]]; simpl in *; done.
Qed.

End reading.

(** X4.  A root record that [step] cannot read.  ["latest"] reports the
    error of [step].  A resolution by digest does not: [walk] does not
    look at that error, hands the callback the zero node and goes on to
    open the undefined CID, so the caller gets the error of the store. *)
Theorem failed_first_step_is_masked {Lb : Lib} s name rootc rootf e :
  cid_Decode name = Ok rootc → open s rootc = Ok rootf → step rootf = Err e →
  ReadManifest s name "latest" = Err e
  ∧ (∀ d, ReadBlob s name d = Err (ErrExt "Unixfs.Get"))
  ∧ (∀ St (fn : walkFn St) st,
       walk s rootc fn st
       = (_ ← fn cid_Undef "" "" st; Err (ErrExt "Unixfs.Get"))).
Proof.
  intros Hname Hroot Hstep.
  assert (∀ St (fn : walkFn St) st,
            walk s rootc fn st = (_ ← fn cid_Undef "" "" st; Err (ErrExt "Unixfs.Get")))
    as Hwalk.
  { intros St fn st. unfold walk. rewrite Hroot. cbn [mbind outcome_bind].
    rewrite Hstep. cbn [mbind outcome_bind].
    destruct (fn cid_Undef "" "" st) as [st'|e'|]; cbn [mbind outcome_bind]; [|done..].
    unfold open, Unixfs_Get. by rewrite decide_True. }
  split; [|split; [|done]].
  - unfold ReadManifest. rewrite Hname. cbn [mbind outcome_bind].
    rewrite decide_True by done. rewrite Hroot. cbn [mbind outcome_bind].
    by rewrite Hstep.
  - intros d. unfold ReadBlob. rewrite Hname. cbn [mbind outcome_bind].
    by rewrite Hwalk.
Qed.

(** ** What an ingestion leaves in the store *)

Section writer.
Context {Lb : Lib} {Lw : LibLaws}.

Lemma stored_addBlocks W s b : stored s b → stored (addBlocks W s) b.
Proof.
  revert s. induction W as [|b' W IH]; intros s Hb; [done|].
  apply (IH (addBlock b' s)). by apply stored_Add_mono.
Qed.

Lemma is_Some_addBlocks W s c :
  is_Some (blocks s !! c) → is_Some (blocks (addBlocks W s) !! c).
Proof.
  intros Hc. rewrite addBlocks_lookup. by destruct (lastBlob c W).
Qed.

(** X5.  An ingestion only adds blocks: whether it succeeds or fails, the
    published names, the key and the peers of the store are as they were,
    and every block that was in the store is still there. *)
Theorem AddImage_only_adds_blocks img s :
  names (AddImage img s).2 = names s
  ∧ self (AddImage img s).2 = self s
  ∧ peers (AddImage img s).2 = peers s
  ∧ (∀ b, stored s b → stored (AddImage img s).2 b)
  ∧ (∀ c, is_Some (blocks s !! c) → is_Some (blocks (AddImage img s).2 !! c)).
Proof.
  destruct (writes_AddImage img) as (r & W & Hw). rewrite (Hw s). simpl.
  destruct (addBlocks_fields W s) as (Hn & Hs & Hp).
  split; [done|]. split; [done|]. split; [done|]. split.
  - intros b. apply stored_addBlocks.
  - intros c. apply is_Some_addBlocks.
Qed.

Lemma bind_grows {A B} (m : M A) (f : A → M B) s b :
  (∀ a s1, stored s1 b → stored (f a s1).2 b) →
  stored (m s).2 b → stored ((m ≫= f) s).2 b.
Proof.
  intros Hf Hm. unfold mbind, M_bind.
  destruct (m s) as [[a|e|] s1]; simpl in *; auto.
Qed.

Lemma errgroup_grows layers acc s b :
  stored s b → stored (errgroup layers acc s).2 b.
Proof.
  destruct (writes_errgroup layers acc) as (r & W & Hw). rewrite (Hw s). simpl.
  apply stored_addBlocks.
Qed.

Lemma errgroup_stores layers acc s l b d :
  l ∈ layers → Layer.Compressed l = Ok b → Layer.Digest l = Ok d →
  stored (errgroup layers acc s).2 b.
Proof.
  intros Hin Hb Hd. revert acc s.
  induction layers as [|l' layers IH]; intros acc s; [by apply elem_of_nil in Hin|].
  apply elem_of_cons in Hin as [<-|Hin].
  - simpl. unfold writeLayer, mbind, M_bind, lift. rewrite Hb, Hd. simpl.
    apply errgroup_grows, stored_Add.
  - simpl. destruct (writeLayer l' s) as [r s1]. by apply IH.
Qed.

Lemma errgroup_fails layers acc s l :
  l ∈ layers →
  is_ok (Layer.Compressed l) = false ∨ is_ok (Layer.Digest l) = false →
  is_ok (errgroup layers acc s).1 = false.
Proof.
  intros Hin Hbad. revert acc s.
  induction layers as [|l' layers IH]; intros acc s; [by apply elem_of_nil in Hin|].
  apply elem_of_cons in Hin as [<-|Hin].
  - simpl. destruct (writeLayer l s) as [r s1] eqn:Hw.
    apply errgroup_not_Ok.
    assert (is_ok r = false) as Hr.
    { unfold writeLayer, mbind, M_bind, lift in Hw.
      destruct (Layer.Compressed l) as [b|e|]; [|by injection Hw as <- _..].
      destruct (Layer.Digest l) as [d|e|]; [|by injection Hw as <- _..].
      by destruct Hbad. }
    destruct acc as [cm|e|]; [|done..]. by destruct r as [[d p]|e|].
  - simpl. destruct (writeLayer l' s) as [r s1]. by apply IH.
Qed.

(** X6.  An ingestion has no rollback.  A layer whose bytes or digest
    cannot be read fails the ingestion; the blobs of the layers that could
    be read are in the store all the same, since every layer is written
    before the first error is looked at. *)
Theorem AddImage_has_no_rollback img s layers l :
  Image.Layers img = Ok layers → l ∈ layers →
  (is_ok (Layer.Compressed l) = false ∨ is_ok (Layer.Digest l) = false →
     is_ok (AddImage img s).1 = false)
  ∧ (∀ b d, Layer.Compressed l = Ok b → Layer.Digest l = Ok d →
       stored (AddImage img s).2 b).
Proof.
  intros Hl Hin. split.
  - intros Hbad. unfold AddImage, writeLayers.
    pose proof (errgroup_fails layers (Ok ∅) s l Hin Hbad) as Hf.
    unfold mbind, M_bind, lift. rewrite Hl.
    by destruct (errgroup layers (Ok ∅) s) as [[cm|e|] s1].
  - intros b d Hb Hd. unfold AddImage. apply bind_grows.
    + intros cm s1 Hs1.
      apply bind_grows; [|done]. intros cfgData s2 Hs2.
      apply bind_grows; [|by apply stored_Add_mono]. intros cfgPath s3 Hs3.
      apply bind_grows; [|done]. intros manifest s4 Hs4.
      apply bind_grows; [|done]. intros ipfsManifest s5 Hs5.
      apply bind_grows; [|by apply stored_Add_mono]. intros [[mp mh] msz] s6 Hs6.
      apply bind_grows; [|by apply stored_Add_mono]. intros [[ip ih] isz] s7 Hs7.
      apply bind_grows; [|by apply stored_Add_mono]. intros [[wp wh] wsz] s8 Hs8.
      done.
    + unfold writeLayers, mbind, M_bind, lift. rewrite Hl.
      by eapply errgroup_stores.
Qed.

Lemma convertLayers_find (cm : gmap string string) L :
  match list_find (λ desc, cm !! Descriptor.Digest desc = None) L with
  | Some (_, desc) =>
      mapM_outcome (convertLayer cm) L
      = Err (ErrLayerDescriptorNotFound (Descriptor.Digest desc))
  | None => is_ok (mapM_outcome (convertLayer cm) L) = true
  end.
Proof.
  induction L as [|desc L IH]; [done|].
  cbn [list_find mapM_outcome].
  destruct (decide (cm !! Descriptor.Digest desc = None)) as [Hd|Hd].
  - assert (convertLayer cm desc
            = Err (ErrLayerDescriptorNotFound (Descriptor.Digest desc))) as ->
      by (unfold convertLayer; by rewrite Hd).
    done.
  - destruct (cm !! Descriptor.Digest desc) as [c|] eqn:Hc; [|done].
    assert (∃ y, convertLayer cm desc = Ok y) as [y ->]
      by (unfold convertLayer; rewrite Hc; eauto).
    cbn [mbind outcome_bind].
    destruct (list_find _ L) as [[j desc']|]; simpl in *.
    + by rewrite IH.
    + by destruct (mapM_outcome (convertLayer cm) L).
Qed.

(** X7.  The check of the manifest.  [convertIpfs] looks for the digest
    of the config first and then for the digests of the layers, in the
    order of the manifest: when the table lacks the config digest the
    error is "config descriptor not found"; otherwise it is "layer
    descriptor not found" for the FIRST layer descriptor whose digest the
    table lacks, and there is no error when it lacks none, whatever CIDs
    the table holds.  So a handle that [AddImage] returned stands for an
    image every layer descriptor of which names the digest of the config
    descriptor or the digest of a layer the image handed over. *)
Theorem AddImage_checks_the_manifest :
  (∀ m (cids : gmap string string),
     match cids !! Descriptor.Digest (Manifest.Config m) with
     | None =>
         convertIpfs m cids
         = Err (ErrConfigDescriptorNotFound (Descriptor.Digest (Manifest.Config m)))
     | Some _ =>
         match list_find (λ desc, cids !! Descriptor.Digest desc = None)
                 (Manifest.Layers m) with
         | Some (_, desc) =>
             convertIpfs m cids
             = Err (ErrLayerDescriptorNotFound (Descriptor.Digest desc))
         | None => is_ok (convertIpfs m cids) = true
         end
     end)
  ∧ (∀ img s root s' m,
       AddImage img s = (Ok root, s') → Image.Manifest img = Ok m →
       ∃ layers,
         Image.Layers img = Ok layers
         ∧ Forall (λ desc,
                     Descriptor.Digest desc = Descriptor.Digest (Manifest.Config m)
                     ∨ ∃ l, l ∈ layers
                            ∧ Layer.Digest l = Ok (Descriptor.Digest desc))
             (Manifest.Layers m)).
Proof.
  split.
  - intros m cids. unfold convertIpfs.
    destruct (cids !! Descriptor.Digest (Manifest.Config m)) as [c|]; [|done].
    pose proof (convertLayers_find cids (Manifest.Layers m)) as Hfind.
    destruct (list_find _ (Manifest.Layers m)) as [[j desc]|].
    + by rewrite Hfind.
    + by destruct (mapM_outcome (convertLayer cids) (Manifest.Layers m)).
  - intros img s root s' m Ha Hm.
    apply AddImage_Ok in Ha
      as (layers & cfg & m' & entries & n & Hl & _ & Hm' & HF & Hn & _).
    rewrite Hm in Hm'. injection Hm' as <-.
    exists layers. split; [done|].
    apply convertIpfs_Ok in Hn as (c0 & _ & _ & HL).
    apply Forall_forall. intros desc Hin.
    apply list_elem_of_lookup in Hin as [j Hj].
    destruct (Forall2_lookup_l _ _ _ _ _ HL Hj) as (desc' & _ & Hconv).
    unfold convertLayer in Hconv.
    destruct (_ !! Descriptor.Digest desc) as [c|] eqn:Hc; [|done].
    destruct (decide (Descriptor.Digest (Manifest.Config m) = Descriptor.Digest desc))
      as [Heq|Hne]; [by left|].
    rewrite lookup_insert_ne in Hc by done.
    apply cidMapOf_lookup in Hc as [Hc|(b & Hbin & _)]; [done|].
    right. apply list_elem_of_lookup in Hbin as [i Hi].
    destruct (Forall2_lookup_r _ _ _ _ _ HF Hi) as (l & Hli & Hd & _).
    exists l. split; [by eapply list_elem_of_lookup_2|done].
Qed.

End writer.

(** ** The Name Map and the admission handler *)

Section naming_more.
Context {Lb : Lib} {Lw : LibLaws}.

(** The Name Map the mapper fetches, before and after an update. *)
Lemma fetch_updateCidMap k ref op s ap e s' :
  mapperFetcher k = Ok (self s) →
  peered s = true →
  updateCidMap k ref op s = (Ok (ap, e), s') →
  ∃ m, fetch s (mapperFetcher k) = Ok m
    ∧ fetch s' (mapperFetcher k) = Ok (<[ref := path_String op]> m).
Proof.
  intros Hfetch Hpeer Hu.
  destruct (updateCidMap_inv _ _ _ _ _ _ _ Hu)
    as (secret & idxPath & p & f & m & Hk & Hs & Hn & Hp & Hb & Hm).
  rewrite (updateCidMap_Ok _ ref op _ _ _ _ _ _ Hk Hs Hn Hp Hb Hm) in Hu.
  injection Hu as <- <- <-.
  assert (idxPath = self s) as ->.
  { unfold mapperFetcher, SecretFetcher_Fetch, NewSecretFetcher in Hfetch.
    simpl in Hfetch. rewrite Hk, Hs in Hfetch. by injection Hfetch. }
  exists m. split.
  - unfold fetch. rewrite Hfetch, Hpeer. simpl.
    unfold Name_Resolve. rewrite Hn. simpl.
    unfold Unixfs_Get. rewrite decide_False by done. by rewrite Hb.
  - unfold fetch. rewrite Hfetch.
    unfold peered, Swarm_Peers in *. simpl. rewrite Hpeer. simpl.
    unfold Name_Resolve. simpl. rewrite lookup_insert_eq. simpl.
    unfold Unixfs_Get. simpl. rewrite decide_False by apply cidOf_defined.
    rewrite lookup_insert_eq. cbn [mbind outcome_bind].
    by rewrite json_Decode_print, dec_cidMap_json.
Qed.

(** X8.  [Resolve] after [updateCidMap], for every reference.  On a
    peered store whose bootstrap pointer is the key the store publishes
    under, a reference whose canonical name is the key that was stored
    resolves to the path string of the handle; every other reference
    resolves as it did before the update. *)
Theorem Resolve_after_updateCidMap k ref op s ap e s' reference :
  mapperFetcher k = Ok (self s) →
  peered s = true →
  updateCidMap k ref op s = (Ok (ap, e), s') →
  Resolve s' (mapperFetcher k) reference
  = match ParseReference reference with
    | Ok name =>
        if decide (name = ref) then Ok (path_String op)
        else Resolve s (mapperFetcher k) reference
    | _ => Resolve s (mapperFetcher k) reference
    end.
Proof.
  intros Hfetch Hpeer Hu.
  destruct (fetch_updateCidMap _ _ _ _ _ _ _ Hfetch Hpeer Hu) as (m & Hold & Hnew).
  unfold Resolve. rewrite Hold, Hnew.
  destruct (ParseReference reference) as [name|err|]; simpl; [|done..].
  destruct (decide (name = ref)) as [->|Hne].
  - by rewrite lookup_insert_eq.
  - by rewrite lookup_insert_ne.
Qed.

End naming_more.

Section relocation.
Local Open Scope list_scope.
Context {Lb : Lib} {Ad : AdmissionLib}.

(** X9.  A store without peers resolves nothing: every [Resolve] is the
    error "unable to retrieve cid mapper", whatever the secret holds, also
    for a reference that does not parse, and [Handle] admits every pod
    that decodes and serializes as it is, without a patch. *)
Theorem no_peers_no_relocation s fetcher registry raw pod current :
  peers s = 0%nat →
  (∀ reference, Resolve s fetcher reference = Err ErrUnableToRetrieveCidMapper)
  ∧ (Decode raw = Ok pod → Marshal pod = Ok current →
     Handle (Resolve s fetcher) registry raw
     = Ok (admission.Allowed "no image resolutions found")).
Proof.
  intros Hp.
  assert (∀ reference, Resolve s fetcher reference = Err ErrUnableToRetrieveCidMapper)
    as Hres.
  { intros reference. unfold Resolve, fetch, peered, Swarm_Peers. by rewrite Hp. }
  split; [done|]. intros Hd Hm.
  assert (∀ r, Resolve s fetcher r ≠ Panic) as Hnp by (intros r; by rewrite Hres).
  assert (∀ cs, Forall (λ c, resolves (Resolve s fetcher) c = false) cs) as Hmiss.
  { intros cs. apply Forall_forall. intros c _. unfold resolves. by rewrite Hres. }
  rewrite (Handle_spec _ registry Hnp raw pod Hd).
  assert (relocatedPod (Resolve s fetcher) registry pod = pod) as ->.
  { unfold relocatedPod. rewrite !relocated_misses by apply Hmiss. by destruct pod. }
  rewrite Hm. by rewrite (existsb_misses _ _ (Hmiss _)).
Qed.

Lemma containers_patch_relocated cidMapper registry kind i cs :
  containers_patch kind i cs (relocated cidMapper registry <$> cs)
  = imagePatches cidMapper registry kind i cs.
Proof.
  unfold imagePatches. revert i.
  induction cs as [|c cs IH]; intros i; [done|].
  csimpl. rewrite IH.
  assert (Container.Name (relocated cidMapper registry c) = Container.Name c) as ->.
  { unfold relocated. by destruct (cidMapper _). }
  rewrite decide_True by done. cbn [app]. rewrite Nat.add_0_r.
  f_equal. f_equal. apply imap_ext. intros j c' _. simpl. f_equal. lia.
Qed.

(** X10.  The patch of [Handle], for any pod.  For a raw object that
    loses nothing when it is decoded into a pod and serialized again, and
    a pod of which at least one image resolves, the patch is made of the
    image operations, one for each container whose image the mapper
    resolved to a different string, at the index of that container among
    the init containers or the containers, and of nothing else; the
    order of the operations is the library's.  A container whose image
    did not resolve contributes nothing. *)
Theorem Handle_patches_every_resolved_image {Aw : AdmissionLaws}
    cidMapper registry raw pod original :
  (∀ r, cidMapper r ≠ Panic) →
  Decode raw = Ok pod →
  Marshal pod = Ok original → CreatePatch raw original = Ok [] →
  existsb (resolves cidMapper) (Pod.InitContainers pod ++ Pod.Containers pod) = true →
  (∃ patch,
     Handle cidMapper registry raw = Ok (admission.Patched patch)
     ∧ patch ≡ₚ imagePatches cidMapper registry "initContainers" 0
                  (Pod.InitContainers pod)
                ++ imagePatches cidMapper registry "containers" 0 (Pod.Containers pod))
  ∧ (∀ kind i c, resolves cidMapper c = false →
       imagePatches cidMapper registry kind i [c] = []).
Proof.
  intros Hnp Hd Ho Hrt Hex. split.
  - rewrite (Handle_spec cidMapper registry Hnp raw pod Hd).
    destruct (Marshal_Ok (relocatedPod cidMapper registry pod)) as [current Hm].
    rewrite Hm, Hex. unfold admission.PatchResponseFromRaw.
    destruct (CreatePatch_images raw pod _ original current Hd Ho Hrt
                (relocatedPod_imagesReplaced cidMapper registry pod) Hm)
      as (patch & -> & Hperm).
    exists patch. split; [done|]. rewrite Hperm.
    unfold pod_patch, relocatedPod. simpl. rewrite decide_True by done. simpl.
    by rewrite !containers_patch_relocated.
  - intros kind i c Hc. unfold imagePatches. simpl.
    rewrite (relocated_miss cidMapper registry c Hc). unfold imagePatch.
    rewrite decide_True by done. done.
Qed.

End relocation.

(** ** The reconciler *)

Lemma R_bind_Ok {A B} (m : R A) (f : A → R B) w b w' :
  (m ≫= f) w = (Ok b, w') → ∃ a w1, m w = (Ok a, w1) ∧ f a w1 = (Ok b, w').
Proof.
  unfold mbind, R_bind. destruct (m w) as [[a|e|] w1]; [eauto | discriminate..].
Qed.

Section reconciler.
Context {Lb : Lib}.

(** The world after the bootstrap of the Name Map. *)
Lemma reconcileCidMapper_fresh r w data :
  secrets w !! SecretReconciler.CidMapperSecretKey r = Some data →
  data !! consts.CidMapperSecretKey = None →
  peered (ipfs w) = true →
  reconcileCidMapper r w
  = (Ok (ctrl.mkResult false),
     mkWorld (<[SecretReconciler.CidMapperSecretKey r
                := {[consts.CidMapperSecretKey := self (ipfs w)]}]> (secrets w))
       (mkIpfs (<[cidOf emptyObject := File emptyObject]> (blocks (ipfs w)))
          (<[self (ipfs w) := cidOf emptyObject]> (names (ipfs w)))
          (self (ipfs w)) (peers (ipfs w)))).
Proof.
  intros Hs Hd Hp. unfold reconcileCidMapper, mbind, R_bind, client.Get. rewrite Hs.
  unfold peered, Swarm_Peers in *.
  destruct (peers (ipfs w)) as [|n] eqn:Hn; [done|]. simpl. rewrite Hd.
  unfold onIpfs, Unixfs_Add, Name_Publish, addBlock, client.Update. simpl.
  by rewrite Hs, Hn.
Qed.

(** X11.  Reconciling the pointer secret settles: once a reconcile has
    returned without an error, another one returns the same result and
    leaves the secrets and the store exactly as they are.  In particular
    a pointer that is in the secret is never published again. *)
Theorem reconcileCidMapper_settles r w res w' :
  reconcileCidMapper r w = (Ok res, w') →
  reconcileCidMapper r w' = (Ok res, w')
  ∧ (∀ data p, secrets w !! SecretReconciler.CidMapperSecretKey r = Some data →
       data !! consts.CidMapperSecretKey = Some p → w' = w)
  ∧ (peers (ipfs w) = 0%nat → w' = w ∧ ctrl.Requeue res = true).
Proof.
  intros Hr.
  destruct (secrets w !! SecretReconciler.CidMapperSecretKey r) as [data|] eqn:Hs.
  2:{ unfold reconcileCidMapper, mbind, R_bind, client.Get in Hr.
      rewrite Hs in Hr. discriminate. }
  destruct (peers (ipfs w)) as [|n] eqn:Hn.
  { unfold reconcileCidMapper, mbind, R_bind, client.Get, Swarm_Peers in Hr.
    rewrite Hs, Hn in Hr. simpl in Hr. injection Hr as <- <-.
    split; [|split; [done|done]].
    unfold reconcileCidMapper, mbind, R_bind, client.Get, Swarm_Peers.
    by rewrite Hs, Hn. }
  destruct (data !! consts.CidMapperSecretKey) as [p|] eqn:Hd.
  { unfold reconcileCidMapper, mbind, R_bind, client.Get, Swarm_Peers in Hr.
    rewrite Hs, Hn in Hr. simpl in Hr. rewrite Hd in Hr. injection Hr as <- <-.
    split; [|split; [done|done]].
    unfold reconcileCidMapper, mbind, R_bind, client.Get, Swarm_Peers.
    rewrite Hs, Hn. simpl. by rewrite Hd. }
  rewrite (reconcileCidMapper_fresh r w data Hs Hd) in Hr
    by (unfold peered, Swarm_Peers; by rewrite Hn).
  injection Hr as <- <-.
  split; [|split].
  - unfold reconcileCidMapper, mbind, R_bind, client.Get, Swarm_Peers. simpl.
    rewrite lookup_insert_eq, Hn. simpl. by rewrite lookup_singleton_eq.
  - intros data' p [= <-] Hd'. congruence.
  - intros Hp. congruence.
Qed.

(** X12.  A request for any other secret makes sure the two secrets of
    the reconciler exist: one that is missing is created without data,
    every secret that was there keeps its data, the store is not touched,
    and reconciling again changes nothing. *)
Theorem Reconcile_ensures_the_secrets r req w :
  req ≠ SecretReconciler.ClusterSecretKey r →
  req ≠ SecretReconciler.CidMapperSecretKey r →
  ∃ w',
    Reconcile r req w = (Ok (ctrl.mkResult false), w')
    ∧ ipfs w' = ipfs w
    ∧ (∀ key, secrets w' !! key
              = match secrets w !! key with
                | Some data => Some data
                | None =>
                    if decide (key = SecretReconciler.ClusterSecretKey r
                               ∨ key = SecretReconciler.CidMapperSecretKey r)
                    then Some ∅ else None
                end)
    ∧ Reconcile r req w' = (Ok (ctrl.mkResult false), w').
Proof.
  intros Hc Hm.
  assert (∀ n w0, ∃ w1,
            ensureSecret n w0 = (Ok (), w1) ∧ ipfs w1 = ipfs w0
            ∧ (∀ key, secrets w1 !! key
                      = match secrets w0 !! key with
                        | Some data => Some data
                        | None => if decide (key = n) then Some ∅ else None
                        end)) as Hensure.
  { intros n w0. unfold ensureSecret, client.Get, client.Create.
    destruct (secrets w0 !! n) as [data|] eqn:Hn; simpl.
    - exists w0. split; [done|]. split; [done|]. intros key.
      destruct (secrets w0 !! key) as [data'|] eqn:Hk; [done|].
      rewrite decide_False; [done|]. intros ->. congruence.
    - rewrite Hn. eexists. split; [done|]. split; [done|]. intros key. simpl.
      destruct (decide (key = n)) as [->|Hne].
      + by rewrite lookup_insert_eq, Hn.
      + rewrite lookup_insert_ne by done. by destruct (secrets w0 !! key). }
  assert (∀ w0, ∃ w2,
            Reconcile r req w0 = (Ok (ctrl.mkResult false), w2) ∧ ipfs w2 = ipfs w0
            ∧ (∀ key, secrets w2 !! key
                      = match secrets w0 !! key with
                        | Some data => Some data
                        | None =>
                            if decide (key = SecretReconciler.ClusterSecretKey r
                                       ∨ key = SecretReconciler.CidMapperSecretKey r)
                            then Some ∅ else None
                        end)) as Hrec.
  { intros w0. unfold Reconcile. rewrite !decide_False by done.
    destruct (Hensure (SecretReconciler.ClusterSecretKey r) w0) as (w1 & H1 & Hi1 & Hs1).
    destruct (Hensure (SecretReconciler.CidMapperSecretKey r) w1)
      as (w2 & H2 & Hi2 & Hs2).
    exists w2. unfold mbind, R_bind. rewrite H1, H2. split; [done|].
    split; [congruence|]. intros key. rewrite Hs2, Hs1.
    destruct (secrets w0 !! key) as [data|]; [done|].
    destruct (decide (key = SecretReconciler.ClusterSecretKey r)) as [->|Hk1].
    - rewrite decide_True by auto. done.
    - destruct (decide (key = SecretReconciler.CidMapperSecretKey r)) as [->|Hk2].
      + rewrite decide_True by auto. done.
      + rewrite decide_False by tauto. done. }
  destruct (Hrec w) as (w' & Hr & Hi & Hs). exists w'.
  split; [done|]. split; [done|]. split; [done|].
  destruct (Hrec w') as (w'' & Hr' & Hi' & Hs'). rewrite Hr'. f_equal.
  destruct w' as [k' s'], w'' as [k'' s'']. simpl in *. f_equal; [|done].
  apply map_eq. intros key. rewrite Hs'.
  destruct (k' !! key) as [data|] eqn:Hk; [done|].
  rewrite Hs in Hk. destruct (secrets w !! key); [done|].
  by destruct (decide _).
Qed.

(** X13.  Reconciling the cluster config secret sets its data to the
    swarm key of the repository and the bootstrap address of the node,
    and to nothing else; the other secrets and the store are not touched,
    and reconciling again changes nothing. *)
Theorem reconcileClusterConfig_settles r w data swarmKey cfg :
  secrets w !! SecretReconciler.ClusterSecretKey r = Some data →
  repo.SwarmKey (SecretReconciler.IpfsRepo r) = Ok swarmKey →
  repo.Config (SecretReconciler.IpfsRepo r) = Ok cfg →
  let w' := mkWorld (<[SecretReconciler.ClusterSecretKey r
                       := clusterConfig r swarmKey (repo.PeerID cfg)]> (secrets w))
              (ipfs w) in
  reconcileClusterConfig r w = (Ok (ctrl.mkResult false), w')
  ∧ reconcileClusterConfig r w' = (Ok (ctrl.mkResult false), w')
  ∧ clusterConfig r swarmKey (repo.PeerID cfg) !! "swarm.key" = Some swarmKey
  ∧ size (clusterConfig r swarmKey (repo.PeerID cfg)) = 2%nat.
Proof.
  intros Hs Hk Hc w'.
  assert (∀ w0 data0,
            secrets w0 !! SecretReconciler.ClusterSecretKey r = Some data0 →
            reconcileClusterConfig r w0
            = (Ok (ctrl.mkResult false),
               mkWorld (<[SecretReconciler.ClusterSecretKey r
                          := clusterConfig r swarmKey (repo.PeerID cfg)]> (secrets w0))
                 (ipfs w0))) as Hrec.
  { intros w0 data0 Hs0.
    unfold reconcileClusterConfig, mbind, R_bind, client.Get, liftR.
    rewrite Hs0, Hk, Hc. fold (clusterConfig r swarmKey (repo.PeerID cfg)).
    destruct (decide (clusterConfig r swarmKey (repo.PeerID cfg) = data0)) as [<-|Hne].
    - simpl. unfold mret, R_ret. f_equal. destruct w0 as [k0 s0]. simpl in *.
      f_equal. symmetry. by apply insert_id.
    - unfold client.Update. by rewrite Hs0. }
  split; [by eapply Hrec|]. split.
  - rewrite (Hrec w' (clusterConfig r swarmKey (repo.PeerID cfg)))
      by (unfold w'; simpl; apply lookup_insert_eq).
    unfold w'. simpl. by rewrite insert_insert_eq.
  - split.
    + unfold clusterConfig. rewrite lookup_insert_ne by done. apply lookup_insert_eq.
    + unfold clusterConfig. rewrite map_size_insert, lookup_insert_ne by done.
      rewrite lookup_empty. by rewrite map_size_insert, lookup_empty, map_size_empty.
Qed.

End reconciler.

(** ** From the bootstrap to an admitted pod *)

Section bootstrap.
Context {Lb : Lib} {Lw : LibLaws}.
Hypothesis parse_emptyObject : json_parse emptyObject = Some (JObj []).

Lemma decode_emptyObject : json_Decode dec_cidMap emptyObject = Ok ∅.
Proof. unfold json_Decode. by rewrite parse_emptyObject. Qed.

(** The Name Map a store serves right after the empty object has been
    published under its key. *)
Lemma fetch_published_empty s fetcher :
  peered s = true → fetcher = Ok (self s) →
  names s !! self s = Some (cidOf emptyObject) → stored s emptyObject →
  fetch s fetcher = Ok ∅.
Proof.
  intros Hp -> Hn Hb. unfold fetch. rewrite Hp. simpl.
  unfold Name_Resolve. rewrite Hn. simpl.
  unfold Unixfs_Get. rewrite decide_False by apply cidOf_defined.
  unfold stored in Hb. rewrite Hb. apply decode_emptyObject.
Qed.

(** X14.  The bootstrap of the Name Map.  On a peered store, for a
    pointer secret that exists and holds no pointer yet, the reconciler
    stores the empty object, publishes it under the key of the node and
    writes that key into the secret, as its ONLY entry; from then on the
    mapper wired to that secret fetches the empty map, and every reference
    that parses resolves to the error "cid does not exist". *)
Theorem reconcileCidMapper_bootstraps r w data :
  secrets w !! SecretReconciler.CidMapperSecretKey r = Some data →
  data !! consts.CidMapperSecretKey = None →
  peered (ipfs w) = true →
  ∃ w',
    reconcileCidMapper r w = (Ok (ctrl.mkResult false), w')
    ∧ secrets w' !! SecretReconciler.CidMapperSecretKey r
      = Some {[consts.CidMapperSecretKey := self (ipfs w)]}
    ∧ reconcilerFetcher r (secrets w') = Ok (self (ipfs w'))
    ∧ fetch (ipfs w') (reconcilerFetcher r (secrets w')) = Ok ∅
    ∧ (∀ reference name,
         ParseReference reference = Ok name →
         Resolve (ipfs w') (reconcilerFetcher r (secrets w')) reference
         = Err (ErrCidDoesNotExist name)).
Proof.
  intros Hs Hd Hp. eexists. split; [by eapply reconcileCidMapper_fresh|].
  cbn [secrets ipfs].
  assert (reconcilerFetcher r
            (<[SecretReconciler.CidMapperSecretKey r
               := {[consts.CidMapperSecretKey := self (ipfs w)]}]> (secrets w))
          = Ok (self (ipfs w))) as Hf.
  { unfold reconcilerFetcher, SecretFetcher_Fetch, NewSecretFetcher. simpl.
    rewrite lookup_insert_eq. by rewrite lookup_singleton_eq. }
  split; [apply lookup_insert_eq|]. split; [done|].
  assert (fetch (mkIpfs (<[cidOf emptyObject := File emptyObject]> (blocks (ipfs w)))
                   (<[self (ipfs w) := cidOf emptyObject]> (names (ipfs w)))
                   (self (ipfs w)) (peers (ipfs w)))
            (reconcilerFetcher r
               (<[SecretReconciler.CidMapperSecretKey r
                  := {[consts.CidMapperSecretKey := self (ipfs w)]}]> (secrets w)))
          = Ok ∅) as Hfetch.
  { apply fetch_published_empty; try done.
    - simpl. apply lookup_insert_eq.
    - unfold stored. simpl. apply lookup_insert_eq. }
  split; [done|]. intros reference name Hname.
  unfold Resolve. rewrite Hfetch, Hname. simpl. by rewrite lookup_empty.
Qed.

(** X15.  The bootstrap of the daemon resets the Name Map.  Whatever
    [createMapper] returns, it has published the empty object under the
    key of the node: on a peered store, every reference that parses
    resolves to "cid does not exist" afterwards through a pointer to that
    key, also one that resolved before.  The only secret it may write is
    [ripfs-index]; the secret the mapper reads is left as it is. *)
Theorem createMapper_resets_the_name_map inCluster w :
  peered (ipfs w) = true →
  (∀ key, key ≠ ("ripfs-system", "ripfs-index") →
     secrets (createMapper inCluster w).2 !! key = secrets w !! key)
  ∧ (∀ reference name,
       ParseReference reference = Ok name →
       Resolve (ipfs (createMapper inCluster w).2) (Ok (self (ipfs w))) reference
       = Err (ErrCidDoesNotExist name)).
Proof.
  intros Hp.
  set (s1 := mkIpfs (<[cidOf emptyObject := File emptyObject]> (blocks (ipfs w)))
               (<[self (ipfs w) := cidOf emptyObject]> (names (ipfs w)))
               (self (ipfs w)) (peers (ipfs w))).
  assert (ipfs (createMapper inCluster w).2 = s1
          ∧ ∀ key, key ≠ ("ripfs-system", "ripfs-index") →
              secrets (createMapper inCluster w).2 !! key = secrets w !! key)
    as [Hi Hk].
  { unfold createMapper, mbind, R_bind, onIpfs, liftR, client.Create.
    unfold Unixfs_Add, Name_Publish, addBlock. simpl.
    destruct inCluster as [[]|err|]; simpl; [|done..].
    destruct (secrets w !! ("ripfs-system", "ripfs-index")); simpl; [done|].
    split; [done|]. intros key Hne. by rewrite lookup_insert_ne. }
  split; [done|]. intros reference name Hname. rewrite Hi.
  assert (fetch s1 (Ok (self (ipfs w))) = Ok ∅) as Hfetch.
  { apply fetch_published_empty; try done.
    - simpl. apply lookup_insert_eq.
    - unfold stored. simpl. apply lookup_insert_eq. }
  unfold Resolve. rewrite Hfetch, Hname. simpl. by rewrite lookup_empty.
Qed.

Lemma stored_after_update s data names' b :
  stored s b →
  stored (mkIpfs (<[cidOf data := File data]> (blocks s)) names' (self s) (peers s)) b.
Proof. intros Hb. by apply (stored_Add_mono b data s) in Hb. Qed.

(** X16.  From the bootstrap to the pull.  After the reconciler has
    bootstrapped the Name Map into the secret the [add] command reads, an
    image that is ingested and recorded under the canonical name of a
    reference (the key [add] uses for a remote image) is resolved by the
    mapper from that reference; a pod whose one container runs it, sent as
    a raw object that loses nothing on the way through the pod, is patched
    to the registry path of the root handle; and under that handle the
    registry serves, for ["latest"], the bytes of the wrapping index of
    the ingestion with the media type of an index. *)
Theorem bootstrap_add_admit {Ad : AdmissionLib} {Aw : AdmissionLaws}
    r w data img reference name registry root s2 raw pod original c :
  (∀ x, ParseReference x ≠ Panic) →
  SecretReconciler.CidMapperSecretKey r = secretKey →
  secrets w !! secretKey = Some data →
  data !! consts.CidMapperSecretKey = None →
  peered (ipfs w) = true →
  ParseReference reference = Ok name →
  AddImage img (ipfs (reconcileCidMapper r w).2) = (Ok root, s2) →
  Decode raw = Ok pod →
  Marshal pod = Ok original → CreatePatch raw original = Ok [] →
  Pod.InitContainers pod = [] → Pod.Containers pod = [c] →
  Container.Image c = reference →
  let k := secrets (reconcileCidMapper r w).2 in
  ∃ ap e s3,
    updateCidMap k name root s2 = (Ok (ap, e), s3)
    ∧ Resolve s3 (mapperFetcher k) reference = Ok (path_String root)
    ∧ Handle (Resolve s3 (mapperFetcher k)) registry raw
      = Ok (admission.Patched
              (imagePatch "containers" 0 reference
                 (prefixIpfsRegistry registry (path_String root))))
    ∧ ∃ n,
        root = cidOf (wrapperBytes n)
        ∧ stored s3 (indexBytes n)
        ∧ ReadManifest s3 (cid_String root) "latest"
          = Ok (indexBytes n, OCIImageIndex).
Proof.
  intros Hnp Hkey Hs Hd Hp Hname Ha Hdec Ho Hrt Hinit Hcs Himg k.
  rewrite <- Hkey in Hs.
  unfold k. rewrite (reconcileCidMapper_fresh r w data Hs Hd Hp) in *.
  cbn [snd secrets ipfs] in *. rewrite Hkey in *.
  set (s1 := mkIpfs (<[cidOf emptyObject := File emptyObject]> (blocks (ipfs w)))
               (<[self (ipfs w) := cidOf emptyObject]> (names (ipfs w)))
               (self (ipfs w)) (peers (ipfs w))) in *.
  set (k1 := <[secretKey := {[consts.CidMapperSecretKey := self (ipfs w)]}]>
               (secrets w)) in *.
  (* the store after the ingestion *)
  assert (s2 = (AddImage img s1).2) as Hs2 by (by rewrite Ha).
  destruct (writes_AddImage img) as (ra & W & Hw).
  rewrite (Hw s1) in Hs2. simpl in Hs2.
  destruct (addBlocks_fields W s1) as (Hn2 & Hself2 & Hp2).
  rewrite <- Hs2 in Hn2, Hself2, Hp2. simpl in Hn2, Hself2, Hp2.
  assert (stored s2 emptyObject) as Hempty.
  { rewrite Hs2. apply stored_addBlocks. unfold stored, s1. simpl.
    apply lookup_insert_eq. }
  (* the update *)
  set (newMap := json_print (cidMap_json (<[name := path_String root]> ∅))).
  set (s3 := mkIpfs (<[cidOf newMap := File newMap]> (blocks s2))
               (<[self s2 := cidOf newMap]> (names s2)) (self s2) (peers s2)).
  assert (updateCidMap k1 name root s2
          = (Ok (cidOf newMap, mkIpnsEntry (self s2) (cidOf newMap)), s3)) as Hu.
  { apply (updateCidMap_Ok k1 name root s2
             {[consts.CidMapperSecretKey := self (ipfs w)]} (self (ipfs w))
             (cidOf emptyObject) emptyObject ∅).
    - unfold k1. apply lookup_insert_eq.
    - apply lookup_singleton_eq.
    - rewrite Hn2. apply lookup_insert_eq.
    - apply cidOf_defined.
    - exact Hempty.
    - apply decode_emptyObject. }
  eexists _, _, s3. split; [exact Hu|].
  assert (mapperFetcher k1 = Ok (self s2)) as Hf.
  { unfold mapperFetcher, SecretFetcher_Fetch, NewSecretFetcher, k1. simpl.
    rewrite lookup_insert_eq, lookup_singleton_eq. by rewrite Hself2. }
  assert (peered s2 = true) as Hpeer2
    by (unfold peered, Swarm_Peers in *; by rewrite Hp2).
  destruct (fetch_updateCidMap _ _ _ _ _ _ _ Hf Hpeer2 Hu) as (m & Hold & Hnew).
  assert (∀ x, Resolve s3 (mapperFetcher k1) x ≠ Panic) as Hnopanic.
  { intros x. unfold Resolve. rewrite Hnew.
    destruct (ParseReference x) as [nm|err|] eqn:Hx; simpl.
    - by destruct (_ !! nm).
    - done.
    - by destruct (Hnp x). }
  assert (Resolve s3 (mapperFetcher k1) reference = Ok (path_String root)) as Hres.
  { unfold Resolve. rewrite Hnew, Hname. simpl. by rewrite lookup_insert_eq. }
  split; [exact Hres|]. split.
  - rewrite <- Himg in *.
    apply (Handle_one_resolved (Resolve s3 (mapperFetcher k1)) registry raw pod
             original "containers" [] [c] [] c [] (path_String root)); auto.
  - apply AddImage_Ok in Ha
      as (layers & cfg & m' & entries & n & _ & _ & _ & _ & _ & -> & Hsw & Hsi & _).
    exists n.
    assert (stored s3 (wrapperBytes n)) as Hsw3 by (by apply stored_after_update).
    assert (stored s3 (indexBytes n)) as Hsi3 by (by apply stored_after_update).
    split; [done|]. split; [done|].
    unfold ReadManifest. rewrite cid_Decode_String. cbn [mbind outcome_bind].
    rewrite decide_True by done. rewrite (open_stored _ _ Hsw3).
    cbn [mbind outcome_bind]. rewrite step_wrapper. cbn [mbind outcome_bind].
    by rewrite (open_stored _ _ Hsi3).
Qed.

End bootstrap.

(** ** The add and install commands *)

Section commands.
Local Open Scope list_scope.
Context {Lb : Lib} {Hs : Host}.

Lemma layoutImages_Done idx title ms acc imgs :
  layoutImages idx title ms acc = (Done (), imgs) →
  match last ms with
  | None => imgs = acc
  | Some m =>
      ∃ img, ImageIndex.Image idx (ImageIndex.Digest m) = Ok img
             ∧ imgs = <[title := img]> acc
  end.
Proof.
  revert acc. induction ms as [|m ms IH]; intros acc Hl.
  - by injection Hl as <-.
  - cbn [layoutImages] in Hl. unfold mbind, ST_bind, liftST, setImage in Hl.
    destruct (ImageIndex.Image idx (ImageIndex.Digest m)) as [img|err|] eqn:Hm;
      [|discriminate..].
    apply IH in Hl. destruct ms as [|m' ms'].
    + simpl in *. exists img. by rewrite Hl.
    + rewrite last_cons_cons. revert Hl.
      destruct (last (m' :: ms')) as [ml|] eqn:Hlast;
        [|by apply last_None in Hlast].
      intros (img' & Hml & ->). exists img'. split; [done|].
      by rewrite insert_insert_eq.
Qed.

(** X17.  What the loaders hand to [Run].  A reference that parses is
    loaded from the remote registry and from nowhere else, under its
    canonical name.  A file is loaded as a tarball under the key ["temp"].
    A directory is loaded as a layout, and all its images go under one
    key, the title annotation of its index (the empty string when there
    is none): only the LAST image of the layout is kept.  In every case
    the map holds at most one image. *)
Theorem loadImages_at_most_one o reference imgs :
  loadImages o reference = Done imgs →
  (size imgs ≤ 1)%nat
  ∧ match ParseReference reference with
    | Ok name => ∃ img, imgs = {[name := img]}
    | _ =>
        match os_Stat reference with
        | Ok false => ∃ img, imgs = {["temp" := img]}
        | Ok true =>
            ∃ idx idxm,
              layout_FromPath reference = Ok (Ok idx)
              ∧ ImageIndex.IndexManifest idx = Ok idxm
              ∧ match last (ImageIndex.Manifests idxm) with
                | None => imgs = ∅
                | Some m =>
                    ∃ img,
                      ImageIndex.Image idx (ImageIndex.Digest m) = Ok img
                      ∧ imgs = {[default "" (ImageIndex.Annotations idxm
                                             !! AnnotationTitle) := img]}
                end
        | _ => False
        end
    end.
Proof.
  intros Hl.
  assert (∀ (k : string) (img : Image.t), (size ({[k := img]} : imgMap) ≤ 1)%nat)
    as Hone by (intros k img; by rewrite map_size_singleton).
  unfold loadImages in Hl.
  destruct (ParseReference reference) as [name|err|] eqn:Hp; [| |done].
  - unfold loaded, loadImagesFromRemote, mbind, ST_bind, liftST, setImage in Hl.
    destruct (remote_Get _ name) as [mt|?|]; simpl in Hl; [|done..].
    destruct (decide _); simpl in Hl; [done|].
    destruct (remote_Image _ name) as [img|?|]; simpl in Hl; [|done..].
    injection Hl as <-. split; [|by exists img]. apply Hone.
  - destruct (os_Stat reference) as [[|]|?|] eqn:Hst; [| |done..].
    + unfold loaded, loadImagesFromLayout, mbind, ST_bind, liftST in Hl.
      destruct (layout_FromPath reference) as [[idx|?|]|?|] eqn:Hfp;
        simpl in Hl; [|done..].
      destruct (ImageIndex.IndexManifest idx) as [idxm|?|] eqn:Hidxm;
        simpl in Hl; [|done..].
      destruct (layoutImages idx _ (ImageIndex.Manifests idxm) ∅) as [[[]|?|] imgs']
        eqn:Hli; simpl in Hl; [|done..].
      injection Hl as <-. apply layoutImages_Done in Hli.
      split.
      * revert Hli. destruct (last _) as [m|].
        -- intros (img & _ & ->). rewrite insert_empty. apply Hone.
        -- intros ->. rewrite map_size_empty. lia.
      * exists idx, idxm. split; [done|]. split; [done|].
        revert Hli. destruct (last _) as [m|]; [|done].
        intros (img & Hm & ->). exists img. by rewrite insert_empty.
    + unfold loaded, loadImagesFromTar, mbind, ST_bind, liftST, setImage in Hl.
      destruct (tarball_ImageFromPath reference) as [img|?|]; simpl in Hl; [|done..].
      injection Hl as <-. split; [|by exists img]. apply Hone.
Qed.

(** X18.  The pod the tunnel is opened to.  [fwdTarget] looks at the
    FIRST pod the selector of the service lists, and at no other: it
    returns that pod with the container asked for when the pod has a
    container of that name, the error "couldn't find container" when it
    has none, and panics on [pods.Items[0]] when the list is empty. *)
Theorem fwdTarget_looks_at_the_first_pod o selector :
  NewForConfig = Ok () →
  Services_Get (addCommandOpts.Namespace o) (addCommandOpts.Name o) = Ok selector →
  (Pods_List (addCommandOpts.Namespace o) selector = Ok [] → fwdTarget o = Crashed)
  ∧ (∀ ns pod rest,
       Pods_List (addCommandOpts.Namespace o) selector = Ok ((ns, pod) :: rest) →
       (addCommandOpts.Container o ∈ Container.Name <$> Pod.Containers pod →
        fwdTarget o = Done (k8s.mkTarget (Pod.Name pod) ns (addCommandOpts.Container o)))
       ∧ (addCommandOpts.Container o ∉ Container.Name <$> Pod.Containers pod →
          fwdTarget o
          = Failed (ErrCouldntFindContainer (addCommandOpts.Container o)
                      (Pod.Name pod)))).
Proof.
  intros Hcfg Hsvc. split.
  - intros Hp. unfold fwdTarget. rewrite Hcfg. simpl. rewrite Hsvc. simpl.
    by rewrite Hp.
  - intros ns pod rest Hp.
    assert (∀ cs, existsb (λ c, String.eqb (Container.Name c)
                                  (addCommandOpts.Container o)) cs = true
                  ↔ addCommandOpts.Container o ∈ Container.Name <$> cs) as Hex.
    { intros cs. induction cs as [|c cs IH]; csimpl.
      - split; [done|]. by intros ?%elem_of_nil.
      - rewrite orb_true_iff, IH, elem_of_cons, String.eqb_eq.
        intuition congruence. }
    unfold fwdTarget. rewrite Hcfg. simpl. rewrite Hsvc. simpl. rewrite Hp.
    simpl. split.
    + intros Hin. apply Hex in Hin. by rewrite Hin.
    + intros Hin. destruct (existsb _ _) eqn:He; [|done].
      destruct Hin. by apply Hex.
Qed.

Lemma scanIndex_flat idx ms img :
  Forall (λ m, ImageIndex.MediaType m ≠ DockerManifestList
               ∧ ImageIndex.MediaType m ≠ OCIImageIndex) ms →
  scanIndex idx ms img = Done img.
Proof.
  induction 1 as [|m ms [H1 H2] _ IH]; [done|].
  simpl. rewrite decide_False by tauto. done.
Qed.

Lemma firstOfPlatform_first idx pre e post img :
  Forall (λ m, ImageIndex.PlatformEquals m = Some false) pre →
  ImageIndex.PlatformEquals e = Some true →
  firstOfPlatform idx (pre ++ e :: post) img
  = match ImageIndex.Image idx (ImageIndex.Digest e) with
    | Ok found => Done (Some found)
    | Err _ => Done None
    | Panic => Crashed
    end.
Proof.
  intros Hpre He. induction Hpre as [|m pre Hm _ IH]; simpl.
  - by rewrite He.
  - by rewrite Hm.
Qed.

(** X19.  The image [getImage] takes from a layout.  Image manifests at
    the top of the layout are not looked at: a layout without a nested
    index has no image for the code.  In a nested index the FIRST entry
    of the platform decides, and the entries after it are not looked at:
    its image is the result, and when that image cannot be read the
    result is "couldn't find image". *)
Theorem getImage_reads_nested_indexes path idx idxm :
  layout_FromPath path = Ok (Ok idx) →
  ImageIndex.IndexManifest idx = Ok idxm →
  (Forall (λ m, ImageIndex.MediaType m ≠ DockerManifestList
                ∧ ImageIndex.MediaType m ≠ OCIImageIndex)
     (ImageIndex.Manifests idxm) →
   getImage path = Failed ErrCouldntFindImage)
  ∧ (∀ m nidx nidxm pre e post,
       ImageIndex.Manifests idxm = [m] →
       ImageIndex.MediaType m = OCIImageIndex
       ∨ ImageIndex.MediaType m = DockerManifestList →
       ImageIndex.ImageIndex idx (ImageIndex.Digest m) = Ok nidx →
       ImageIndex.IndexManifest nidx = Ok nidxm →
       ImageIndex.Manifests nidxm = pre ++ e :: post →
       Forall (λ x, ImageIndex.PlatformEquals x = Some false) pre →
       ImageIndex.PlatformEquals e = Some true →
       getImage path
       = match ImageIndex.Image nidx (ImageIndex.Digest e) with
         | Ok img => Done img
         | Err _ => Failed ErrCouldntFindImage
         | Panic => Crashed
         end).
Proof.
  intros Hfp Hidxm. split.
  - intros Hflat. unfold getImage. rewrite Hfp. simpl. rewrite Hidxm. simpl.
    by rewrite (scanIndex_flat _ _ _ Hflat).
  - intros m nidx nidxm pre e post Hms Hmt Hn Hnm Hes Hpre He.
    unfold getImage. rewrite Hfp. simpl. rewrite Hidxm. simpl. rewrite Hms.
    simpl. rewrite decide_True by tauto. rewrite Hn. simpl. rewrite Hnm. simpl.
    rewrite Hes, (firstOfPlatform_first _ _ _ _ _ Hpre He).
    by destruct (ImageIndex.Image nidx (ImageIndex.Digest e)).
Qed.

Lemma addImages_secrets imgs w : secrets (addImages imgs w).2 = secrets w.
Proof.
  revert w. induction imgs as [|[ref img] imgs IH]; intros w; [done|].
  cbn [addImages]. unfold mbind, ST_bind, onStore.
  destruct (AddImage img (ipfs w)) as [[p|?|] s1]; simpl; [|done..].
  destruct (updateCidMap (secrets w) ref p s1) as [[[ap e]|?|] s2]; simpl; [|done..].
  by rewrite IH.
Qed.

End commands.

Section run.
Context {Lb : Lib} {Lw : LibLaws} {Hs : Host}.

(** X20.  [ripfs add] of a remote image, then [Resolve].  When the
    reference parses, the registry has the image (not in the schema 1
    format), the tunnel and the client of the IPFS API open, and the Name
    Map has been bootstrapped under the key of a peered store, the command
    ingests the image and records its root handle under the canonical name
    of the reference, the secrets are as they were, and the mapper
    resolves the reference the command was given to the path of that
    handle. *)
Theorem Run_remote_then_Resolve o reference name mediaType img ma w root s1 ap e s2 :
  let p := Platform.mk (addCommandOpts.Architecture o) (addCommandOpts.OS o)
             (addCommandOpts.Variant o) in
  GetConfigOrDie = true →
  ParseReference reference = Ok name →
  remote_Get p name = Ok mediaType →
  mediaType ≠ DockerManifestSchema1 → mediaType ≠ DockerManifestSchema1Signed →
  remote_Image p name = Ok img →
  openTunnel o = Done () →
  NewMultiaddr (addCommandOpts.IPFSApiAddress o) = Ok ma → NewApi ma = Ok () →
  mapperFetcher (secrets w) = Ok (self (ipfs w)) →
  peered (ipfs w) = true →
  AddImage img (ipfs w) = (Ok root, s1) →
  updateCidMap (secrets w) name root s1 = (Ok (ap, e), s2) →
  Run o reference w = (Done (), mkWorld (secrets w) s2)
  ∧ Resolve s2 (mapperFetcher (secrets w)) reference = Ok (path_String root).
Proof.
  intros p Hcfg Hname Hget Hne1 Hne2 Himg Htun Hma Hapi Hf Hpeer Ha Hu. split.
  - unfold Run, mbind, ST_bind, liftST, loadImages. rewrite Hcfg, Hname.
    unfold loaded, loadImagesFromRemote, mbind, ST_bind, liftST, setImage.
    fold p. rewrite Hget. simpl. rewrite decide_False by tauto. simpl.
    rewrite Himg. simpl. rewrite Htun, Hma. simpl. rewrite Hapi. simpl.
    rewrite insert_empty, map_to_list_singleton. cbn [addImages].
    unfold mbind, ST_bind, onStore. rewrite Ha. simpl. by rewrite Hu.
  - destruct (writes_AddImage img) as (ra & W & Hw). rewrite (Hw (ipfs w)) in Ha.
    injection Ha as _ <-.
    destruct (addBlocks_fields W (ipfs w)) as (_ & Hself & Hpeers).
    assert (mapperFetcher (secrets w) = Ok (self (addBlocks W (ipfs w)))) as Hf'
      by (by rewrite Hself).
    assert (peered (addBlocks W (ipfs w)) = true) as Hpeer'
      by (unfold peered, Swarm_Peers in *; by rewrite Hpeers).
    destruct (fetch_updateCidMap _ _ _ _ _ _ _ Hf' Hpeer' Hu) as (m & _ & Hnew).
    unfold Resolve. rewrite Hnew, Hname. simpl. by rewrite lookup_insert_eq.
Qed.

(** X21.  [ripfs add] never writes a secret, and an image that could not
    be ingested is never recorded: when the ingestion of the only loaded
    image fails, the command fails with the error of the ingestion, and the
    published names are as they were. *)
Theorem Run_records_only_what_it_ingested o reference w :
  secrets (Run o reference w).2 = secrets w
  ∧ (∀ ref img err s1,
       GetConfigOrDie = true →
       loadImages o reference = Done {[ref := img]} →
       openTunnel o = Done () →
       is_ok (ma ← NewMultiaddr (addCommandOpts.IPFSApiAddress o); NewApi ma) = true →
       AddImage img (ipfs w) = (Err err, s1) →
       (Run o reference w).1 = Failed (ErrFrom err)
       ∧ names (ipfs (Run o reference w).2) = names (ipfs w)).
Proof.
  split.
  - unfold Run, mbind, ST_bind, liftST.
    destruct GetConfigOrDie; [|done].
    destruct (wrap_failed _ _) as [imgs|?|]; simpl; [|done..].
    destruct (openTunnel o) as [[]|?|]; simpl; [|done..].
    destruct (NewMultiaddr _) as [ma|?|]; simpl; [|done..].
    destruct (NewApi ma) as [[]|?|]; simpl; [|done..].
    apply addImages_secrets.
  - intros ref img err s1 Hcfg Hl Htun Hapi Ha.
    unfold Run, mbind, ST_bind, liftST. rewrite Hcfg, Hl, Htun. simpl.
    destruct (NewMultiaddr _) as [ma|?|]; simpl in *; [|done..].
    destruct (NewApi ma) as [[]|?|]; simpl in *; [|done..].
    rewrite map_to_list_singleton. cbn [addImages].
    unfold mbind, ST_bind, onStore. rewrite Ha. simpl. split; [done|].
    destruct (writes_AddImage img) as (ra & W & Hw). rewrite (Hw (ipfs w)) in Ha.
    injection Ha as _ <-. apply (addBlocks_fields W (ipfs w)).
Qed.

End run.

(** ** A pull over HTTP *)

Section serving.
Context {Lb : Lib} {Lw : LibLaws} {Ht : HttpLib}.

(** X22.  A pull after an ingestion, for GET and for HEAD.  The
    manifests route with the reference ["latest"] hands the wrapping index
    to [ServeContent], with the content type of an index.  The blobs route
    hands a blob of the store to [ServeContent] for every well-formed
    digest the manifest lists.  For a digest outside the graph, well-formed
    or not, the blobs handler returns without writing. *)
Theorem ingested_image_is_served img s root s' m meth :
  AddImage img s = (Ok root, s') → Image.Manifest img = Ok m →
  ∃ n,
    root = cidOf (wrapperBytes n)
    ∧ (∀ w,
         let r := http.mkRequest meth (cid_String root) "latest" in
         buildGetManifestHandler s' w r
         = Ok (ServeContent (http.Header_Set "Content-Type" OCIImageIndex w) r
                 (indexBytes n)))
    ∧ (∀ w d,
         let r := http.mkRequest meth (cid_String root) d in
         d ∈ digests m → digest_valid d = true →
         ∃ b mt,
           stored s' b
           ∧ ReadBlob s' (cid_String root) d = Ok (b, mt)
           ∧ buildGetBlobsHandler s' w r
             = Ok (ServeContent (http.Header_Set "Content-Type" mt w) r b))
    ∧ (∀ w d,
         d ∉ SHA256 (indexBytes n) :: SHA256 (manifestBytes n) :: digests m →
         buildGetBlobsHandler s' w (http.mkRequest meth (cid_String root) d) = Ok w).
Proof.
  intros Ha Hm.
  destruct (ingested_graph _ _ _ _ _ Ha Hm)
    as (n & ns & -> & Hsw & Hsi & Hsm & Hw & Hds & Hst).
  exists n. split; [done|].
  assert (Forall (λ nd : node, ∃ b, nd.1.1 = cidOf b ∧ stored s' b)
            ((cidOf (indexBytes n), SHA256 (indexBytes n), OCIImageIndex)
             :: (cidOf (manifestBytes n), SHA256 (manifestBytes n), OCIImageIndex)
             :: ns)) as Hall.
  { constructor; [by exists (indexBytes n)|].
    constructor; [by exists (manifestBytes n)|done]. }
  assert (∀ d,
            (d ∈ SHA256 (indexBytes n) :: SHA256 (manifestBytes n) :: digests m →
             ∃ b mt, stored s' b
                     ∧ ReadBlob s' (cid_String (cidOf (wrapperBytes n))) d = Ok (b, mt))
            ∧ (d ∉ SHA256 (indexBytes n) :: SHA256 (manifestBytes n) :: digests m →
               ReadBlob s' (cid_String (cidOf (wrapperBytes n))) d
               = Err (ErrDigestNotFound d))) as Hread.
  { intros d. destruct (ReadBlob_on_graph s' (wrapperBytes n) _ d Hw Hall) as [Hin Hout].
    rewrite !fmap_cons, Hds in Hin. rewrite !fmap_cons, Hds in Hout. done. }
  split; [|split].
  - intros w r. unfold buildGetManifestHandler, ReadManifest, r.
    cbn [http.cid http.reference].
    rewrite cid_Decode_String. cbn [mbind outcome_bind].
    rewrite decide_True by done. rewrite (open_stored _ _ Hsw).
    cbn [mbind outcome_bind]. rewrite step_wrapper. cbn [mbind outcome_bind].
    by rewrite (open_stored _ _ Hsi).
  - intros w d r Hd Hv.
    destruct (proj1 (Hread d)) as (b & mt & Hb & Hr);
      [by do 2 apply list_elem_of_further|].
    exists b, mt. split; [done|]. split; [done|].
    unfold buildGetBlobsHandler, digest_Parse, r. cbn [http.cid http.reference].
    by rewrite Hv, Hr.
  - intros w d Hd. unfold buildGetBlobsHandler, digest_Parse.
    cbn [http.cid http.reference].
    destruct (digest_valid d); [|done]. by rewrite (proj2 (Hread d) Hd).
Qed.

End serving.

(** ** The applier *)

Section applier_proofs.
Local Open Scope list_scope.
Context {Mg : ssa.Manager}.

Lemma split_loop objects cobjs objs :
  fold_left split_step objects (cobjs, objs)
  = (cobjs ++ filter (λ obj, ssa.IsClusterDefinition obj = true) objects,
     objs ++ filter (λ obj, ssa.IsClusterDefinition obj ≠ true) objects).
Proof.
  revert cobjs objs. induction objects as [|obj objects IH]; intros cobjs objs.
  - simpl. by rewrite !app_nil_r.
  - cbn [fold_left]. unfold split_step at 2. cbn [fst snd].
    destruct (ssa.IsClusterDefinition obj) eqn:Hc.
    + rewrite IH, filter_cons_True, filter_cons_False by congruence.
      by rewrite <- app_assoc.
    + rewrite IH, filter_cons_False, filter_cons_True by congruence.
      by rewrite <- app_assoc.
Qed.

(** X23.  [Apply] in two stages.  The objects are split, in their order,
    into the cluster definitions and the rest.  The cluster definitions
    are applied and waited for first, and when that fails the rest is not
    applied.  The result is that of the SECOND stage: the change set of
    the cluster definitions is dropped, and an [Apply] without any other
    object returns no change set, whatever it applied. *)
Theorem Apply_returns_the_second_stage objects k :
  let cobjs := filter (λ obj, ssa.IsClusterDefinition obj = true) objects in
  let objs := filter (λ obj, ssa.IsClusterDefinition obj ≠ true) objects in
  split objects = (cobjs, objs)
  ∧ (∀ e k1, applyAndWait cobjs k = (Err e, k1) → Apply objects k = (Err e, k1))
  ∧ (∀ cs k1, applyAndWait cobjs k = (Ok cs, k1) →
       Apply objects k = applyAndWait objs k1)
  ∧ (objs = [] → ∀ cs k1, Apply objects k = (Ok cs, k1) → cs = None)
  ∧ (cobjs = [] → Apply objects k = applyAndWait objs k).
Proof.
  intros cobjs objs.
  assert (split objects = (cobjs, objs)) as Hsplit
    by (unfold split; by rewrite split_loop).
  split; [done|].
  assert (∀ e k1, applyAndWait cobjs k = (Err e, k1) → Apply objects k = (Err e, k1))
    as Herr by (intros e k1 H1; unfold Apply; by rewrite Hsplit, H1).
  assert (∀ cs k1, applyAndWait cobjs k = (Ok cs, k1) →
            Apply objects k = applyAndWait objs k1)
    as Hok by (intros cs k1 H1; unfold Apply; by rewrite Hsplit, H1).
  split; [done|]. split; [done|]. split.
  - intros Hnone cs k1 Ha. unfold Apply in Ha. rewrite Hsplit, Hnone in Ha.
    destruct (applyAndWait cobjs k) as [[cs0|e|] k0]; [|discriminate..].
    simpl in Ha. by injection Ha as <- _.
  - intros Hnone. apply (Hok None). by rewrite Hnone.
Qed.

End applier_proofs.

(** ** The properties on the doubles *)

Lemma isEmptyObject_true b : Demo.isEmptyObject b = true → b = emptyObject.
Proof.
  destruct b as [|x [|y [|z l]]]; simpl; try discriminate.
  intros [Hx Hy]%andb_true_iff. apply byte_dec_bl in Hx, Hy. by subst.
Qed.

Lemma Demo_parse_print j : Demo.parse (Demo.print j) = Some j.
Proof.
  assert (Sim.parse emptyObject = None) as Hnone by (vm_compute; reflexivity).
  assert (∀ j', Sim.print j' = emptyObject → False) as Hne.
  { intros j' Hj. pose proof (parse_print j') as Hp. rewrite Hj, Hnone in Hp.
    discriminate. }
  assert (∀ j', Demo.parse (Sim.print j') = Some j') as Hsim.
  { intros j'. unfold Demo.parse.
    destruct (Demo.isEmptyObject (Sim.print j')) eqn:He.
    - apply isEmptyObject_true in He. by destruct (Hne j').
    - apply parse_print. }
  destruct j as [| | | | |[|f fs]]; try apply Hsim. reflexivity.
Qed.

Lemma Demo_laws : @LibLaws Demo.lib.
Proof.
  split.
  - apply Demo_parse_print.
  - apply (@cidOf_inj Sim.lib Sim_laws).
  - apply (@cidOf_defined Sim.lib Sim_laws).
  - apply (@cid_Decode_String Sim.lib Sim_laws).
  - apply (@url_Parse_ipfs Sim.lib Sim_laws).
  - apply (@SHA256_valid Sim.lib Sim_laws).
Qed.

Lemma Demo_parseRef_no_panic : ∀ x, @ParseReference Demo.lib x ≠ Panic.
Proof.
  intros x. simpl. unfold Demo.parseRef, Sim.parseRef.
  destruct (Sim.strip_prefix "/" x); [done|].
  by destruct (Sim.strip_prefix "index.docker.io/" x).
Qed.

(** The root handle determines the decorated manifest. *)
Lemma wrapperBytes_inj {Lb : Lib} {Lw : LibLaws} n n' :
  cidOf (wrapperBytes n) = cidOf (wrapperBytes n') → n = n'.
Proof.
  intros Hw. apply cidOf_inj in Hw.
  assert (cidOf (indexBytes n) = cidOf (indexBytes n')) as Hi.
  { pose proof (step_wrapper n) as H1. rewrite Hw, step_wrapper in H1.
    by injection H1. }
  apply cidOf_inj in Hi.
  assert (cidOf (manifestBytes n) = cidOf (manifestBytes n')) as Hm.
  { pose proof (step_index n) as H1. rewrite Hi, step_index in H1.
    by injection H1. }
  apply cidOf_inj in Hm.
  assert (json_Decode dec_Manifest (manifestBytes n) = Ok n) as Hd
    by (unfold manifestBytes; by rewrite json_Decode_print, dec_Manifest_json).
  rewrite Hm in Hd. unfold manifestBytes in Hd.
  rewrite json_Decode_print, dec_Manifest_json in Hd. by injection Hd.
Qed.

Lemma Sim_root1_decorated : Sim.root1 = cidOf (wrapperBytes Demo.decorated).
Proof. vm_compute. reflexivity. Qed.

Lemma ReadBlob_ingested_found_or_not_witness :
  (∃ b mt,
     ReadBlob Sim.store1 (cid_String Sim.root1) (Sim.sha Sim.layer2) = Ok (b, mt))
  ∧ ReadBlob Sim.store1 (cid_String Sim.root1) Sim.unknown
    = Err (ErrDigestNotFound Sim.unknown).
Proof.
  split.
  - destruct (ReadBlob_ingested_found_or_not (Lw := Sim_laws) Sim.image0 Sim.store0
                Sim.root1 Sim.store1 Sim.manifest0 (Sim.sha Sim.layer2)
                Sim_ingested eq_refl) as (n & _ & Hin & _).
    apply Hin. do 4 apply list_elem_of_further. apply list_elem_of_here.
  - destruct (ReadBlob_ingested_found_or_not (Lw := Sim_laws) Sim.image0 Sim.store0
                Sim.root1 Sim.store1 Sim.manifest0 Sim.unknown
                Sim_ingested eq_refl) as (n & Hroot & _ & Hout).
    rewrite Sim_root1_decorated in Hroot.
    apply (wrapperBytes_inj (Lw := Sim_laws)) in Hroot. subst n.
    apply Hout. intros Hin. apply (bool_decide_pack _) in Hin.
    vm_compute in Hin. exact Hin.
Defined.

Lemma ReadManifest_by_digest_witness :
  ReadManifest Sim.store1 (cid_String Sim.root1) (SHA256 (manifestBytes Demo.decorated))
  = Ok (manifestBytes Demo.decorated, OCIImageIndex)
  ∧ ReadManifest Sim.store1 (cid_String Sim.root1) (SHA256 (indexBytes Demo.decorated))
    = Ok (indexBytes Demo.decorated, OCIImageIndex)
  ∧ ReadManifest Sim.store1 (cid_String Sim.root1) "latest"
    = Ok (indexBytes Demo.decorated, OCIImageIndex).
Proof.
  destruct (ReadManifest_by_digest (Lw := Sim_laws) Sim.image0 Sim.store0
              Sim.root1 Sim.store1 Sim.manifest0 Sim_ingested eq_refl eq_refl)
    as (n & Hroot & _ & Hm & Hi).
  rewrite Sim_root1_decorated in Hroot.
  apply (wrapperBytes_inj (Lw := Sim_laws)) in Hroot. subst n.
  split.
  - apply Hm. intros Hin. apply (bool_decide_pack _) in Hin.
    vm_compute in Hin. exact Hin.
  - apply Hi. intros Hin. apply (bool_decide_pack _) in Hin.
    vm_compute in Hin. exact Hin.
Defined.

Lemma step_on_written_records_witness :
  step (json_print (IndexManifest_json (IndexManifest.mk 2 OCIImageIndex [])))
  = Err ErrNope
  ∧ step (json_print
            (IndexManifest_json
               (IndexManifest.mk 2 DockerManifestList
                  [Descriptor.mk Sim.gzip 9 (Sim.sha Sim.layer1) [locator Sim.layer1]])))
    = Ok (cidOf Sim.layer1, Sim.sha Sim.layer1, DockerManifestList)
  ∧ step (json_print
            (IpfsManifest_json
               (IpfsManifest.mk Sim.gzip (Sim.sha Sim.layer1) 9 [locator Sim.layer1])))
    = Ok (cidOf Sim.layer1, Sim.sha Sim.layer1, Sim.gzip).
Proof.
  destruct (step_on_written_records (Lw := Sim_laws)) as (Hw & Hi & Hn).
  split; [by apply Hn|]. split.
  - exact (Hi (IndexManifest.mk 2 DockerManifestList
                 [Descriptor.mk Sim.gzip 9 (Sim.sha Sim.layer1) [locator Sim.layer1]])
             (Descriptor.mk Sim.gzip 9 (Sim.sha Sim.layer1) [locator Sim.layer1])
             Sim.layer1 eq_refl eq_refl eq_refl).
  - exact (Hw (IpfsManifest.mk Sim.gzip (Sim.sha Sim.layer1) 9 [locator Sim.layer1])
             Sim.layer1 eq_refl eq_refl).
Defined.

Lemma failed_first_step_is_masked_witness :
  ReadManifest Demo.scrambled (Sim.cid Sim.layer1) "latest"
  = Err (ErrExt "json.Decode")
  ∧ ReadBlob Demo.scrambled (Sim.cid Sim.layer1) (Sim.sha Sim.layer1)
    = Err (ErrExt "Unixfs.Get").
Proof.
  destruct (failed_first_step_is_masked Demo.scrambled (Sim.cid Sim.layer1)
              (Sim.cid Sim.layer1) Sim.layer1 (ErrExt "json.Decode"))
    as (Hlatest & Hblob & _); [vm_compute; reflexivity..|].
  split; [exact Hlatest|apply Hblob].
Defined.

Lemma AddImage_only_adds_blocks_witness :
  names (AddImage Demo.torn (Sim.bootstrapped 1)).2 = names (Sim.bootstrapped 1)
  ∧ stored (AddImage Demo.torn (Sim.bootstrapped 1)).2 Sim.emptyMap.
Proof.
  destruct (AddImage_only_adds_blocks (Lw := Sim_laws) Demo.torn (Sim.bootstrapped 1))
    as (Hn & _ & _ & Hb & _).
  split; [exact Hn|]. apply Hb. reflexivity.
Defined.

Lemma AddImage_has_no_rollback_witness :
  is_ok (AddImage Demo.torn Sim.store0).1 = false
  ∧ stored (AddImage Demo.torn Sim.store0).2 Sim.layer1.
Proof.
  split.
  - apply (AddImage_has_no_rollback (Lw := Sim_laws) Demo.torn Sim.store0 _
             (Layer.mk (Err (ErrExt "Compressed")) (Ok (Sim.sha Sim.layer2))) eq_refl).
    + apply list_elem_of_further, list_elem_of_here.
    + by left.
  - exact (proj2 (AddImage_has_no_rollback (Lw := Sim_laws) Demo.torn Sim.store0 _
                    (Layer.mk (Ok Sim.layer1) (Ok (Sim.sha Sim.layer1))) eq_refl
                    (list_elem_of_here _ _))
             Sim.layer1 (Sim.sha Sim.layer1) eq_refl eq_refl).
Defined.

Lemma AddImage_checks_the_manifest_witness :
  convertIpfs Sim.manifest0
    {[Sim.sha Sim.config0 := Sim.cid Sim.config0;
      Sim.sha Sim.layer1 := Sim.cid Sim.layer1]}
  = Err (ErrLayerDescriptorNotFound (Sim.sha Sim.layer2))
  ∧ Forall (λ desc,
              Descriptor.Digest desc = Descriptor.Digest (Manifest.Config Sim.manifest0)
              ∨ ∃ l, l ∈ Sim.layers0 ∧ Layer.Digest l = Ok (Descriptor.Digest desc))
      (Manifest.Layers Sim.manifest0).
Proof.
  destruct (AddImage_checks_the_manifest (Lw := Sim_laws)) as [Hconv Hadd]. split.
  - pose proof (Hconv Sim.manifest0
                  {[Sim.sha Sim.config0 := Sim.cid Sim.config0;
                    Sim.sha Sim.layer1 := Sim.cid Sim.layer1]}) as Hc.
    destruct (_ !! Descriptor.Digest (Manifest.Config Sim.manifest0)) eqn:Hcfg in Hc;
      [|vm_compute in Hcfg; discriminate].
    destruct (list_find _ _) as [[i desc]|] eqn:Hfind in Hc;
      [|vm_compute in Hfind; discriminate].
    assert (Descriptor.Digest desc = Sim.sha Sim.layer2) as Hd.
    { apply (f_equal (fmap (λ x, Descriptor.Digest x.2))) in Hfind.
      vm_compute in Hfind. injection Hfind as Hfind. exact (eq_sym Hfind). }
    rewrite Hd in Hc. exact Hc.
  - destruct (Hadd Sim.image0 Sim.store0 Sim.root1 Sim.store1 Sim.manifest0
                Sim_ingested eq_refl) as (layers & Hl & HF).
    injection Hl as <-. exact HF.
Defined.

Lemma Resolve_after_updateCidMap_witness :
  ∃ ap e s',
    updateCidMap Sim.cluster0 Sim.alpine "bafyroot" (Sim.bootstrapped 1) = (Ok (ap, e), s')
    ∧ Resolve s' (mapperFetcher Sim.cluster0) "alpine" = Ok (path_String "bafyroot")
    ∧ Resolve s' (mapperFetcher Sim.cluster0) "busybox"
      = Resolve (Sim.bootstrapped 1) (mapperFetcher Sim.cluster0) "busybox".
Proof.
  assert (is_ok (updateCidMap Sim.cluster0 Sim.alpine "bafyroot" (Sim.bootstrapped 1)).1
          = true) as Hok by (vm_compute; reflexivity).
  destruct (updateCidMap Sim.cluster0 Sim.alpine "bafyroot" (Sim.bootstrapped 1))
    as [[[ap e]|?|] s'] eqn:Hu; try discriminate Hok.
  exists ap, e, s'. split; [reflexivity|]. split.
  - exact (Resolve_after_updateCidMap (Lw := Sim_laws) Sim.cluster0 Sim.alpine
             "bafyroot" (Sim.bootstrapped 1) ap e s' "alpine" eq_refl eq_refl Hu).
  - exact (Resolve_after_updateCidMap (Lw := Sim_laws) Sim.cluster0 Sim.alpine
             "bafyroot" (Sim.bootstrapped 1) ap e s' "busybox" eq_refl eq_refl Hu).
Defined.

Lemma no_peers_no_relocation_witness :
  Resolve (Sim.bootstrapped 0) (mapperFetcher Sim.cluster0) "alpine"
  = Err ErrUnableToRetrieveCidMapper
  ∧ Handle (Resolve (Sim.bootstrapped 0) (mapperFetcher Sim.cluster0))
      "registry.local" Sim.raw0
    = Ok (admission.Allowed "no image resolutions found").
Proof.
  destruct (no_peers_no_relocation (Sim.bootstrapped 0) (mapperFetcher Sim.cluster0)
              "registry.local" Sim.raw0 Sim.pod0 (Sim.print (Sim.Pod_json Sim.pod0))
              eq_refl) as [Hres Hadm].
  split; [apply Hres|]. apply Hadm; [apply Sim_decode_raw0|reflexivity].
Defined.

Lemma Handle_patches_every_resolved_image_witness :
  (∃ patch,
     Handle Sim.oneMapper "registry.local" Sim.raw0 = Ok (admission.Patched patch)
     ∧ patch ≡ₚ [jsonpatch.mkOperation "replace" "/spec/containers/1/image"
                   (JStr "registry.local/ipfs/bafyroot")])
  ∧ imagePatches Sim.oneMapper "registry.local" "initContainers" 0
      (Pod.InitContainers Sim.pod0) = [].
Proof.
  destruct (Handle_patches_every_resolved_image (Aw := Sim_admissionLaws)
              Sim.oneMapper "registry.local" Sim.raw0 Sim.pod0
              (Sim.print (Sim.Pod_json Sim.pod0))
              Sim_oneMapper_no_panic Sim_decode_raw0 eq_refl Sim_roundtrip_raw0 eq_refl)
    as [(patch & Hh & Hp) Hmiss].
  split.
  - exists patch. split; [exact Hh|]. rewrite Hp.
    assert (imagePatches Sim.oneMapper "registry.local" "initContainers" 0
              (Pod.InitContainers Sim.pod0)
            ++ imagePatches Sim.oneMapper "registry.local" "containers" 0
                 (Pod.Containers Sim.pod0)
            = [jsonpatch.mkOperation "replace" "/spec/containers/1/image"
                 (JStr "registry.local/ipfs/bafyroot")])%list as ->
      by (vm_compute; reflexivity).
    done.
  - exact (Hmiss "initContainers" 0%nat (Container.mk "init" "busybox") eq_refl).
Defined.

Lemma Demo_bootstrapped :
  @reconcileCidMapper Demo.lib Demo.reconciler Demo.world1
  = (Ok (ctrl.mkResult false), Demo.world2).
Proof.
  assert ((@reconcileCidMapper Demo.lib Demo.reconciler Demo.world1).1
          = Ok (ctrl.mkResult false)) as Hok by (vm_compute; reflexivity).
  unfold Demo.world2.
  destruct (@reconcileCidMapper Demo.lib Demo.reconciler Demo.world1) as [r w].
  simpl in *. by rewrite Hok.
Qed.

Lemma reconcileCidMapper_settles_witness :
  @reconcileCidMapper Demo.lib Demo.reconciler Demo.world2
  = (Ok (ctrl.mkResult false), Demo.world2)
  ∧ @reconcileCidMapper Demo.lib Demo.reconciler Demo.alone
    = (Ok (ctrl.mkResult true), Demo.alone).
Proof.
  split.
  - exact (proj1 (reconcileCidMapper_settles (Lb := Demo.lib) Demo.reconciler
                    Demo.world1 (ctrl.mkResult false) Demo.world2 Demo_bootstrapped)).
  - exact (proj1 (reconcileCidMapper_settles (Lb := Demo.lib) Demo.reconciler
                    Demo.alone (ctrl.mkResult true) Demo.alone eq_refl)).
Defined.

Lemma Reconcile_ensures_the_secrets_witness :
  ∃ w',
    @Reconcile Demo.lib Demo.reconciler ("default", "registry-credentials") Demo.world0
    = (Ok (ctrl.mkResult false), w')
    ∧ ipfs w' = ipfs Demo.world0
    ∧ secrets w' !! Demo.clusterKey = Some ∅
    ∧ secrets w' !! secretKey = Some ∅
    ∧ secrets w' !! ("default", "registry-credentials") = None.
Proof.
  destruct (Reconcile_ensures_the_secrets (Lb := Demo.lib) Demo.reconciler
              ("default", "registry-credentials") Demo.world0)
    as (w' & Hr & Hi & Hs & _); [discriminate..|].
  exists w'. split; [exact Hr|]. split; [exact Hi|].
  split; [|split]; rewrite Hs; reflexivity.
Defined.

Lemma reconcileClusterConfig_settles_witness :
  let w' := mkWorld (<[Demo.clusterKey
                       := clusterConfig Demo.reconciler "/key/swarm/psk/1.0.0/"
                            "12D3KooWpeer"]> (secrets Demo.world1))
              (ipfs Demo.world1) in
  reconcileClusterConfig Demo.reconciler Demo.world1 = (Ok (ctrl.mkResult false), w')
  ∧ reconcileClusterConfig Demo.reconciler w' = (Ok (ctrl.mkResult false), w').
Proof.
  intros w'.
  destruct (reconcileClusterConfig_settles Demo.reconciler Demo.world1 ∅
              "/key/swarm/psk/1.0.0/" (repo.mkIdentity "12D3KooWpeer")
              eq_refl eq_refl eq_refl) as (H1 & H2 & _).
  split; [exact H1|exact H2].
Defined.

Lemma reconcileCidMapper_bootstraps_witness :
  ∃ w',
    @reconcileCidMapper Demo.lib Demo.reconciler Demo.world1
    = (Ok (ctrl.mkResult false), w')
    ∧ secrets w' !! secretKey = Some {[consts.CidMapperSecretKey := "k51self"]}
    ∧ @fetch Demo.lib (ipfs w') (reconcilerFetcher Demo.reconciler (secrets w')) = Ok ∅
    ∧ @Resolve Demo.lib (ipfs w') (reconcilerFetcher Demo.reconciler (secrets w'))
        "alpine"
      = Err (ErrCidDoesNotExist Sim.alpine).
Proof.
  destruct (reconcileCidMapper_bootstraps (Lb := Demo.lib) (Lw := Demo_laws) eq_refl
              Demo.reconciler Demo.world1 ∅ eq_refl eq_refl eq_refl)
    as (w' & Hr & Hs & _ & Hf & Hres).
  exists w'. split; [exact Hr|]. split; [exact Hs|]. split; [exact Hf|].
  exact (Hres "alpine" Sim.alpine eq_refl).
Defined.

Lemma createMapper_resets_the_name_map_witness :
  secrets (@createMapper Demo.lib (Ok ()) Demo.world3).2 !! secretKey
  = secrets Demo.world3 !! secretKey
  ∧ @Resolve Demo.lib (ipfs (@createMapper Demo.lib (Ok ()) Demo.world3).2)
      (Ok (self (ipfs Demo.world3))) "alpine"
    = Err (ErrCidDoesNotExist Sim.alpine).
Proof.
  destruct (createMapper_resets_the_name_map (Lb := Demo.lib) (Lw := Demo_laws) eq_refl
              (Ok ()) Demo.world3 eq_refl) as [Hk Hres].
  split; [apply Hk; discriminate|]. exact (Hres "alpine" Sim.alpine eq_refl).
Defined.

Lemma Demo_ingested :
  @AddImage Demo.lib Sim.image0
    (ipfs (@reconcileCidMapper Demo.lib Demo.reconciler Demo.world1).2)
  = (Ok Demo.root2, Demo.store2).
Proof.
  change (@reconcileCidMapper Demo.lib Demo.reconciler Demo.world1).2 with Demo.world2.
  assert (is_ok (@AddImage Demo.lib Sim.image0 (ipfs Demo.world2)).1 = true) as Hok
    by (vm_compute; reflexivity).
  unfold Demo.root2, Demo.store2.
  by destruct (@AddImage Demo.lib Sim.image0 (ipfs Demo.world2)) as [[p|e|] s'].
Qed.

Lemma Demo_roundtrip_raw :
  CreatePatch Demo.raw (Sim.print (Sim.Pod_json Demo.pod)) = Ok [].
Proof. vm_compute. reflexivity. Qed.

Lemma bootstrap_add_admit_witness :
  let k := secrets Demo.world2 in
  ∃ ap e s3,
    @updateCidMap Demo.lib k Sim.alpine Demo.root2 Demo.store2 = (Ok (ap, e), s3)
    ∧ @Resolve Demo.lib s3 (mapperFetcher k) "alpine" = Ok (path_String Demo.root2)
    ∧ @Handle Demo.lib Sim.admissionLib (@Resolve Demo.lib s3 (mapperFetcher k))
        "registry.local" Demo.raw
      = Ok (admission.Patched
              (imagePatch "containers" 0 "alpine"
                 (prefixIpfsRegistry "registry.local" (path_String Demo.root2))))
    ∧ ∃ n,
        Demo.root2 = @cidOf Demo.lib (@wrapperBytes Demo.lib n)
        ∧ @stored Demo.lib s3 (@indexBytes Demo.lib n)
        ∧ @ReadManifest Demo.lib s3 (@cid_String Demo.lib Demo.root2) "latest"
          = Ok (@indexBytes Demo.lib n, OCIImageIndex).
Proof.
  exact (bootstrap_add_admit (Lb := Demo.lib) (Lw := Demo_laws) eq_refl
           (Ad := Sim.admissionLib) (Aw := Sim_admissionLaws)
           Demo.reconciler Demo.world1 ∅ Sim.image0 "alpine" Sim.alpine
           "registry.local" Demo.root2 Demo.store2 Demo.raw Demo.pod
           (Sim.print (Sim.Pod_json Demo.pod)) (Container.mk "app" "alpine")
           Demo_parseRef_no_panic eq_refl eq_refl eq_refl eq_refl eq_refl
           Demo_ingested (decodePod_print Demo.pod) eq_refl Demo_roundtrip_raw
           eq_refl eq_refl eq_refl).
Defined.

Lemma loadImages_at_most_one_witness :
  @loadImages Demo.lib Demo.host Demo.direct "/srv/Layout"
  = Done {["demo" := Sim.twin]}
  ∧ (size ({["demo" := Sim.twin]} : gmap string Image.t) ≤ 1)%nat
  ∧ @loadImages Demo.lib Demo.host Demo.direct "/srv/Image.tar"
    = Done {["temp" := Sim.twin]}
  ∧ @loadImages Demo.lib Demo.host Demo.direct "alpine"
    = Done {[Sim.alpine := Sim.image0]}.
Proof.
  assert (@loadImages Demo.lib Demo.host Demo.direct "/srv/Layout"
          = Done {["demo" := Sim.twin]}) as Hl by (vm_compute; reflexivity).
  split; [exact Hl|]. split.
  - exact (proj1 (loadImages_at_most_one (Lb := Demo.lib) (Hs := Demo.host)
                    Demo.direct "/srv/Layout" _ Hl)).
  - split; vm_compute; reflexivity.
Defined.

Lemma fwdTarget_looks_at_the_first_pod_witness :
  @fwdTarget Demo.host Demo.tunneled
  = Done (k8s.mkTarget "ripfs-0" "ripfs-system" "ipfs")
  ∧ @fwdTarget Demo.host Demo.nginx
    = Failed (ErrCouldntFindContainer "nginx" "ripfs-0")
  ∧ @fwdTarget Demo.host Demo.elsewhere = Crashed.
Proof.
  split; [|split].
  - destruct (fwdTarget_looks_at_the_first_pod (Hs := Demo.host) Demo.tunneled
                {["app" := "ripfs"]} eq_refl eq_refl) as [_ Hpod].
    apply (Hpod "ripfs-system" Demo.ipfsPod [] eq_refl).
    apply list_elem_of_further, list_elem_of_here.
  - destruct (fwdTarget_looks_at_the_first_pod (Hs := Demo.host) Demo.nginx
                {["app" := "ripfs"]} eq_refl eq_refl) as [_ Hpod].
    apply (Hpod "ripfs-system" Demo.ipfsPod [] eq_refl).
    intros Hin. apply (bool_decide_pack _) in Hin. vm_compute in Hin. exact Hin.
  - destruct (fwdTarget_looks_at_the_first_pod (Hs := Demo.host) Demo.elsewhere
                {["app" := "ripfs"]} eq_refl eq_refl) as [Hnone _].
    apply Hnone. reflexivity.
Defined.

Lemma getImage_reads_nested_indexes_witness :
  @getImage Demo.host "/srv/Nested" = Done Sim.image0
  ∧ @getImage Demo.host "/srv/Layout" = Failed ErrCouldntFindImage.
Proof.
  split.
  - destruct (getImage_reads_nested_indexes (Hs := Demo.host) "/srv/Nested"
                Demo.nested _ eq_refl eq_refl) as [_ Hn].
    exact (Hn (ImageIndex.mkEntry OCIImageIndex "sha256:idx" None) Demo.platforms _
             [ImageIndex.mkEntry Demo.imageManifest "sha256:arm" (Some false)]
             (ImageIndex.mkEntry Demo.imageManifest "sha256:1" (Some true))
             [ImageIndex.mkEntry Demo.imageManifest "sha256:2" (Some true)]
             eq_refl (or_introl eq_refl) eq_refl eq_refl eq_refl
             ltac:(repeat constructor) eq_refl).
  - destruct (getImage_reads_nested_indexes (Hs := Demo.host) "/srv/Layout"
                Demo.flat _ eq_refl eq_refl) as [Hflat _].
    apply Hflat. repeat constructor; discriminate.
Defined.

Lemma Run_remote_then_Resolve_witness :
  ∃ root s2,
    @Run Sim.lib Demo.host Demo.tunneled "alpine" Demo.world3
    = (Done (), mkWorld Sim.cluster0 s2)
    ∧ Resolve s2 (mapperFetcher Sim.cluster0) "alpine" = Ok (path_String root)
    ∧ ∃ content,
        ReadManifest s2 (cid_String root) "latest" = Ok (content, OCIImageIndex).
Proof.
  assert (is_ok (AddImage Sim.image0 (Sim.bootstrapped 1)).1 = true) as Hok
    by (vm_compute; reflexivity).
  destruct (AddImage Sim.image0 (Sim.bootstrapped 1)) as [[root|?|] s1] eqn:Ha;
    try discriminate Hok.
  assert (is_ok (updateCidMap Sim.cluster0 Sim.alpine root s1).1 = true) as Hok'.
  { replace root with (Sim.rootOf Sim.image0 (Sim.bootstrapped 1))
      by (unfold Sim.rootOf; by rewrite Ha).
    replace s1 with (AddImage Sim.image0 (Sim.bootstrapped 1)).2 by (by rewrite Ha).
    vm_compute. reflexivity. }
  destruct (updateCidMap Sim.cluster0 Sim.alpine root s1) as [[[ap e]|?|] s2] eqn:Hu;
    try discriminate Hok'.
  exists root, s2.
  destruct (Run_remote_then_Resolve (Lb := Sim.lib) (Lw := Sim_laws) (Hs := Demo.host)
              Demo.tunneled "alpine" Sim.alpine Demo.imageManifest Sim.image0
              "/ip4/127.0.0.1/tcp/5001" Demo.world3 root s1 ap e s2
              eq_refl eq_refl eq_refl ltac:(discriminate) ltac:(discriminate)
              eq_refl eq_refl eq_refl eq_refl eq_refl eq_refl Ha Hu) as [Hrun Hres].
  split; [exact Hrun|]. split; [exact Hres|].
  replace s2 with (updateCidMap Sim.cluster0 Sim.alpine
                     (Sim.rootOf Sim.image0 (Sim.bootstrapped 1))
                     (AddImage Sim.image0 (Sim.bootstrapped 1)).2).2.
  2:{ unfold Sim.rootOf. rewrite Ha. simpl. by rewrite Hu. }
  replace root with (Sim.rootOf Sim.image0 (Sim.bootstrapped 1))
    by (unfold Sim.rootOf; by rewrite Ha).
  eexists. vm_compute. reflexivity.
Defined.

Lemma Run_records_only_what_it_ingested_witness :
  (@Run Sim.lib Demo.host Demo.direct "torn" Demo.world3).1
  = Failed (ErrFrom (ErrExt "Compressed"))
  ∧ names (ipfs (@Run Sim.lib Demo.host Demo.direct "torn" Demo.world3).2)
    = names (ipfs Demo.world3)
  ∧ secrets (@Run Sim.lib Demo.host Demo.direct "torn" Demo.world3).2
    = secrets Demo.world3.
Proof.
  destruct (Run_records_only_what_it_ingested (Lb := Sim.lib) (Hs := Demo.host)
              Demo.direct "torn" Demo.world3) as [Hsec Hfail].
  assert ((AddImage Demo.torn (ipfs Demo.world3)).1 = Err (ErrExt "Compressed")) as Herr
    by (vm_compute; reflexivity).
  destruct (AddImage Demo.torn (ipfs Demo.world3)) as [r s1] eqn:Ha.
  simpl in Herr. subst r.
  destruct (Hfail "index.docker.io/library/torn:latest" Demo.torn (ErrExt "Compressed")
              s1 eq_refl ltac:(vm_compute; reflexivity) eq_refl eq_refl Ha)
    as [Hrun Hnames].
  split; [exact Hrun|]. split; [exact Hnames|exact Hsec].
Defined.

Lemma ingested_image_is_served_witness :
  ServeHTTP Sim.store1 Manifests (http.mkRequest "GET" (cid_String Sim.root1) "latest")
  = Some (http.mkResponse 200 {["Content-Type" := OCIImageIndex]}
            (indexBytes Demo.decorated))
  ∧ ServeHTTP Sim.store1 Blobs
      (http.mkRequest "GET" (cid_String Sim.root1) (Sim.sha Sim.layer1))
    = Some (http.mkResponse 200 {["Content-Type" := Sim.gzip]} Sim.layer1)
  ∧ ServeHTTP Sim.store1 Blobs
      (http.mkRequest "HEAD" (cid_String Sim.root1) (Sim.sha Sim.layer1))
    = Some (http.mkResponse 200 {["Content-Type" := Sim.gzip]} [])
  ∧ ServeHTTP Sim.store1 Blobs (http.mkRequest "GET" (cid_String Sim.root1) Sim.unknown)
    = Some (http.mkResponse 200 ∅ []).
Proof.
  split; [|split; [|split]].
  - destruct (ingested_image_is_served (Lw := Sim_laws) Sim.image0 Sim.store0
                Sim.root1 Sim.store1 Sim.manifest0 "GET" Sim_ingested eq_refl)
      as (n & Hroot & Hlatest & _).
    rewrite Sim_root1_decorated in Hroot.
    apply (wrapperBytes_inj (Lw := Sim_laws)) in Hroot. subst n.
    unfold ServeHTTP. by rewrite (Hlatest http.fresh).
  - destruct (ingested_image_is_served (Lw := Sim_laws) Sim.image0 Sim.store0
                Sim.root1 Sim.store1 Sim.manifest0 "GET" Sim_ingested eq_refl)
      as (n & _ & _ & Hblob & _).
    destruct (Hblob http.fresh (Sim.sha Sim.layer1)) as (b & mt & _ & Hr & Hb);
      [apply list_elem_of_further, list_elem_of_here|reflexivity|].
    assert (ReadBlob Sim.store1 (cid_String Sim.root1) (Sim.sha Sim.layer1)
            = Ok (Sim.layer1, Sim.gzip)) as Hc by (vm_compute; reflexivity).
    rewrite Hc in Hr. injection Hr as <- <-.
    unfold ServeHTTP. by rewrite Hb.
  - destruct (ingested_image_is_served (Lw := Sim_laws) Sim.image0 Sim.store0
                Sim.root1 Sim.store1 Sim.manifest0 "HEAD" Sim_ingested eq_refl)
      as (n & _ & _ & Hblob & _).
    destruct (Hblob http.fresh (Sim.sha Sim.layer1)) as (b & mt & _ & Hr & Hb);
      [apply list_elem_of_further, list_elem_of_here|reflexivity|].
    assert (ReadBlob Sim.store1 (cid_String Sim.root1) (Sim.sha Sim.layer1)
            = Ok (Sim.layer1, Sim.gzip)) as Hc by (vm_compute; reflexivity).
    rewrite Hc in Hr. injection Hr as <- <-.
    unfold ServeHTTP. by rewrite Hb.
  - destruct (ingested_image_is_served (Lw := Sim_laws) Sim.image0 Sim.store0
                Sim.root1 Sim.store1 Sim.manifest0 "GET" Sim_ingested eq_refl)
      as (n & Hroot & _ & _ & Hout).
    rewrite Sim_root1_decorated in Hroot.
    apply (wrapperBytes_inj (Lw := Sim_laws)) in Hroot. subst n.
    unfold ServeHTTP. rewrite Hout; [reflexivity|].
    intros Hin. apply (bool_decide_pack _) in Hin. vm_compute in Hin. exact Hin.
Defined.

Lemma Apply_returns_the_second_stage_witness :
  @Apply Demo.manager [("crd", true); ("namespace", true)] []
  = (Ok None, [["crd"; "namespace"]])
  ∧ @Apply Demo.manager [("deployment", false); ("crd", true); ("service", false)] []
    = (Ok (Some ["deployment"; "service"]), [["crd"]; ["deployment"; "service"]]).
Proof.
  split.
  - destruct (Apply_returns_the_second_stage (Mg := Demo.manager)
                [("crd", true); ("namespace", true)] []) as (_ & _ & _ & Hnone & _).
    destruct (@Apply Demo.manager [("crd", true); ("namespace", true)] [])
      as [[cs|e|] k1] eqn:Ha; try (vm_compute in Ha; discriminate).
    rewrite (Hnone eq_refl cs k1 eq_refl).
    vm_compute in Ha. by injection Ha as _ <-.
  - destruct (Apply_returns_the_second_stage (Mg := Demo.manager)
                [("deployment", false); ("crd", true); ("service", false)] [])
      as (_ & _ & Hok & _).
    by rewrite (Hok (Some ["crd"]) [["crd"]] eq_refl).
Defined.
